(** * Offline inference driver (MaxText/inference_mlperf/offline_inference.py)

    A shallow embedding of [OfflineInference]: the warm-up that fills the
    compiled-variant caches, the producer loop of
    [batch_inference_with_callback] (slot acquisition, prefill bucketing,
    decode dispatch), the [detokenize] consumer thread, and the bulk entry
    point [batch_inference] with its [callback].

    Python integers are [Z]; [//] is [Z.div] (both round towards minus
    infinity).  Python dictionaries keep insertion order and are modelled as
    association lists; [defaultdict(list)] creates a key when it is read.
    Request objects are shared by reference between the caller, the buckets
    and the queue, so they live in a store indexed by references. *)

From stdpp Require Import base decidable option list numbers strings gmap.

Local Open Scope Z_scope.

(** ** Python exceptions that the modelled code can raise *)

Inductive exn :=
  | AssertionError (msg : string)
  | TypeError (msg : string)
  | ValueError (msg : string)
  | UnboundLocalError (msg : string)
  | IndexError (msg : string)
  | KeyError (msg : string).

Inductive result (A : Type) :=
  | Ok (a : A)
  | Raise (e : exn).
Arguments Ok {A} a.
Arguments Raise {A} e.

(** ** Requests *)

(** [@dataclasses.dataclass class InputData]. *)
Record InputData := mkInputData {
  id : string;
  tokens : list Z;
  true_length : Z;
}.

(** Request objects are mutable and aliased; a [ref] names one object. *)
Definition ref := nat.
Definition store := ref → InputData.

Definition store_set (h : store) (r : ref) (x : InputData) : store :=
  λ r', if decide (r' = r) then x else h r'.

(** [len(row.tokens)], also [row.tokens.shape[0]]. *)
Definition padded_length (x : InputData) : Z := Z.of_nat (length (tokens x)).

(** ** Dictionaries *)

Section dict.
Context {K V : Type} `{EqDecision K}.

(** A Python [dict]: keys in insertion order, no key twice. *)
Definition dict := list (K * V).

Fixpoint dict_lookup (k : K) (d : dict) : option V :=
  match d with
  | [] => None
  | (k', v) :: d' => if decide (k = k') then Some v else dict_lookup k d'
  end.

(** [d[k] = v]: overwrite in place, or append a new key. *)
Fixpoint dict_set (k : K) (v : V) (d : dict) : dict :=
  match d with
  | [] => [(k, v)]
  | (k', v') :: d' =>
      if decide (k = k') then (k, v) :: d' else (k', v') :: dict_set k v d'
  end.

(** [del d[k]] on a key that is present. *)
Fixpoint dict_del (k : K) (d : dict) : dict :=
  match d with
  | [] => []
  | (k', v') :: d' =>
      if decide (k = k') then d' else (k', v') :: dict_del k d'
  end.

Definition dict_keys (d : dict) : list K := d.*1.
Definition dict_values (d : dict) : list V := d.*2.
End dict.
Arguments dict : clear implicits.

Section defaultdict.
Context {K V : Type} `{EqDecision K}.

(** [defaultdict(list)]: reading a missing key stores [[]] under it. *)
Definition dd_get (k : K) (d : dict K (list V)) : list V :=
  default [] (dict_lookup k d).

Definition dd_touch (k : K) (d : dict K (list V)) : dict K (list V) :=
  match dict_lookup k d with
  | Some _ => d
  | None => d ++ [(k, [])]
  end.

(** [d[k].append(x)]. *)
Definition dd_append (k : K) (x : V) (d : dict K (list V)) : dict K (list V) :=
  dict_set k (dd_get k d ++ [x]) (dd_touch k d).
End defaultdict.

(** [range(a, b)]. *)
Definition range (a b : Z) : list Z := seqZ a (b - a).

(** ** Compiled variants and the engine *)

(** What [lower(...).compile()] was specialised for. *)
Inductive executable :=
  | PrefillInsert (length : Z)
  | PrefillInsertBatch (max_length length num_prompts : Z)
  | Generate.

Global Instance executable_eq_dec : EqDecision executable.
Proof. solve_decision. Defined.

(** [result_tokens.data[slot]] is the triple (token, is_valid, length). *)
Definition ResultTokens := nat → Z * Z * Z.

(** The executor behind the compiled functions ([engine_api.Engine]):
    opaque to the driver, which only threads the decode state through. *)
Class Engine := {
  DecodeState : Type;
  (** [prefill_fn(params, tokens, slot, true_length, decode_state)] *)
  run_prefill_insert :
    executable → list Z → nat → Z → DecodeState → Z * DecodeState;
  (** [prefill_fn(params, tokens, slots, positions, sequence_indicator,
      start_pos, true_lengths, decode_state)] *)
  run_prefill_insert_batch :
    executable → list Z → list Z → list Z → list Z → list Z → list Z →
    DecodeState → (nat → Z) * DecodeState;
  (** [gen_fn(params, decode_state, None)] *)
  run_generate : executable → DecodeState → DecodeState * ResultTokens;
}.

(** Entries of [detokenize_backlog]:
    [(first_token, True, row.id, slot)] and [(result_tokens, False, 0, 0)]. *)
Inductive entry :=
  | FirstTokenEntry (first_token : Z) (row_id : string) (slot : nat)
  | StepEntry (result_tokens : ResultTokens).

(** Invocations of compiled functions, in call order (a ghost log). *)
Inductive call :=
  | CallPrefill (fn : executable) (slot : nat) (row : ref)
  | CallPrefillBatch (fn : executable) (bucket : list (nat * ref))
  | CallGenerate (fn : executable).

(** ** The [OfflineInference] object *)

Section object.
Context `{Engine}.

(** The fields the producer thread owns.  [live] and
    [detokenize_backlog], which both threads touch, are kept in the
    state of the whole run below. *)
Record OfflineInference := mkOfflineInference {
  decode_state : DecodeState;
  enable_batch_prefill : bool;
  batch_size : nat;
  max_prefill_length : Z;
  max_decode_length : Z;
  dummy : bool;
  _cached_pref : gmap Z executable;
  _cached_pref_batch : gmap (Z * Z) executable;
  _cached_generate : option executable;
  prefill_buckets : dict Z (list (nat * ref));
}.

Definition set_decode_state (ds : DecodeState) (o : OfflineInference) :=
  mkOfflineInference ds (enable_batch_prefill o) (batch_size o)
    (max_prefill_length o) (max_decode_length o) (dummy o) (_cached_pref o)
    (_cached_pref_batch o) (_cached_generate o) (prefill_buckets o).

Definition set_cached_pref (c : gmap Z executable) (o : OfflineInference) :=
  mkOfflineInference (decode_state o) (enable_batch_prefill o) (batch_size o)
    (max_prefill_length o) (max_decode_length o) (dummy o) c
    (_cached_pref_batch o) (_cached_generate o) (prefill_buckets o).

Definition set_cached_pref_batch (c : gmap (Z * Z) executable)
    (o : OfflineInference) :=
  mkOfflineInference (decode_state o) (enable_batch_prefill o) (batch_size o)
    (max_prefill_length o) (max_decode_length o) (dummy o) (_cached_pref o)
    c (_cached_generate o) (prefill_buckets o).

Definition set_cached_generate (c : option executable)
    (o : OfflineInference) :=
  mkOfflineInference (decode_state o) (enable_batch_prefill o) (batch_size o)
    (max_prefill_length o) (max_decode_length o) (dummy o) (_cached_pref o)
    (_cached_pref_batch o) c (prefill_buckets o).

Definition set_prefill_buckets (b : dict Z (list (nat * ref)))
    (o : OfflineInference) :=
  mkOfflineInference (decode_state o) (enable_batch_prefill o) (batch_size o)
    (max_prefill_length o) (max_decode_length o) (dummy o) (_cached_pref o)
    (_cached_pref_batch o) (_cached_generate o) b.

(** *** [warmup]: building the compiled-variant caches *)

Definition interesting_buckets : list Z :=
  [64; 128; 256; 512; 1024; 2048; 4096].

(** The inner loop [for num_prompts in possible_prompts]. *)
Definition compile_batch_variants (max_length length : Z)
    (possible_prompts : list Z) (o : OfflineInference) : OfflineInference :=
  foldl (λ o num_prompts,
           set_cached_pref_batch
             (<[(length, num_prompts) :=
                  PrefillInsertBatch max_length length num_prompts]>
                (_cached_pref_batch o)) o)
        o possible_prompts.

(** The loop [for length in interesting_buckets], with its [break] and
    [continue]. *)
Fixpoint compile_variants (max_length : Z) (buckets : list Z)
    (o : OfflineInference) : OfflineInference :=
  match buckets with
  | [] => o
  | length :: rest =>
      if decide (length > max_length) then o
      else
        let o1 :=
          set_cached_pref (<[length := PrefillInsert length]> (_cached_pref o)) o in
        if decide (length = 64 ∨ length = 1024)
        then compile_variants max_length rest o1
        else
          let min_num_prompts := max_length `div` length in
          let max_num_prompts := max_length `div` (length `div` 2) in
          let possible_prompts := range min_num_prompts max_num_prompts in
          compile_variants max_length rest
            (compile_batch_variants max_length length possible_prompts o1)
  end.

(** [warmup] up to, and not including, its closing throwaway
    [batch_inference(warmup_samples)] pass, which is a serving run and
    writes to neither cache. *)
Definition warmup (max_length : Z) (o : OfflineInference) : OfflineInference :=
  compile_variants max_length interesting_buckets
    (set_cached_generate (Some Generate) o).
End object.

(** ** Sequential code of the producer thread *)

Section producer.
Context `{Engine}.

(** What the producer's code reads and writes between two queue
    operations: the object, the request store, the entries it has handed
    to [detokenize_backlog.put] ([outbox], in order), and the log of
    compiled functions it has invoked. *)
Record pstate := mkPstate {
  self : OfflineInference;
  heap : store;
  outbox : list entry;
  calls : list call;
}.

(** State and exceptions: a raise keeps the mutations made before it. *)
Definition M (A : Type) : Type := pstate → result A * pstate.

Global Instance M_ret : MRet M := λ A a st, (Ok a, st).
Global Instance M_bind : MBind M := λ A B f m st,
  match m st with
  | (Ok a, st') => f a st'
  | (Raise e, st') => (Raise e, st')
  end.

Global Instance M_fmap : FMap M := λ A B f m st,
  match m st with
  | (Ok a, st') => (Ok (f a), st')
  | (Raise e, st') => (Raise e, st')
  end.

Definition raise {A} (e : exn) : M A := λ st, (Raise e, st).
Definition get_self : M OfflineInference := λ st, (Ok (self st), st).
Definition put_self (o : OfflineInference) : M unit :=
  λ st, (Ok (), mkPstate o (heap st) (outbox st) (calls st)).
Definition get_heap : M store := λ st, (Ok (heap st), st).
Definition get_row (r : ref) : M InputData := λ st, (Ok (heap st r), st).
Definition put_row (r : ref) (x : InputData) : M unit :=
  λ st, (Ok (), mkPstate (self st) (store_set (heap st) r x) (outbox st) (calls st)).
(** [self.detokenize_backlog.put(e, block=True)] *)
Definition backlog_put (e : entry) : M unit :=
  λ st, (Ok (), mkPstate (self st) (heap st) (outbox st ++ [e]) (calls st)).
Definition log_call (c : call) : M unit :=
  λ st, (Ok (), mkPstate (self st) (heap st) (outbox st) (calls st ++ [c])).

(** [for x in l: body(x)], collecting what the bodies return. *)
Fixpoint for_each {A B} (l : list A) (body : A → M B) : M (list B) :=
  match l with
  | [] => mret []
  | x :: l' => y ← body x; ys ← for_each l' body; mret (y :: ys)
  end.

(** Buckets: [self.prefill_buckets[k]] as an expression (the read
    creates the key), and [self.prefill_buckets[k] = v]. *)
Definition read_bucket (k : Z) : M (list (nat * ref)) :=
  o ← get_self;
  put_self (set_prefill_buckets (dd_touch k (prefill_buckets o)) o);;
  mret (dd_get k (prefill_buckets o)).

Definition write_bucket (k : Z) (v : list (nat * ref)) : M unit :=
  o ← get_self;
  put_self (set_prefill_buckets (dict_set k v (prefill_buckets o)) o).

(** numpy: [np.full(n, v)] and [np.zeros(n)] reject a negative [n]. *)
Definition np_full (n v : Z) : M (list Z) :=
  if decide (n < 0) then raise (ValueError "negative dimensions are not allowed")
  else mret (replicate (Z.to_nat n) v).

(** [np.arange(0, n)] is empty for [n <= 0]. *)
Definition np_arange (n : Z) : list Z := seqZ 0 n.

(** [np.cumsum([0] + l)[:-1]] *)
Fixpoint start_positions (acc : Z) (l : list Z) : list Z :=
  match l with
  | [] => []
  | x :: l' => acc :: start_positions (acc + x) l'
  end.

(** [pad_num_prompts_len_array(array_to_pad, pad_len)] *)
Definition pad_num_prompts_len_array (array_to_pad : list Z) (pad_len : nat) : list Z :=
  if decide (length array_to_pad < pad_len)%nat
  then array_to_pad ++ replicate (pad_len - length array_to_pad) 0
  else array_to_pad.

(** What [prefill] returns: [123] in dummy mode, else the list of
    [(first_token, slot, row)]. *)
Inductive prefill_ret :=
  | RetInt (n : Z)
  | RetList (l : list (Z * nat * ref)).

(** The single-request branch: one compiled call per member. *)
Definition prefill_each (prefill_fn : executable)
    (prefill_bucket : list (nat * ref)) : M (list (Z * nat * ref)) :=
  for_each prefill_bucket (λ '(slot, row),
    o ← get_self;
    x ← get_row row;
    let '(first_token, ds) :=
      run_prefill_insert prefill_fn (tokens x) slot (true_length x) (decode_state o) in
    put_self (set_decode_state ds o);;
    log_call (CallPrefill prefill_fn slot row);;
    mret (first_token, slot, row)).

(** The batched branch: the argument buffers, then the cache lookup,
    then one compiled call for the whole bucket. *)
Definition prefill_concat (prefill_bucket : list (nat * ref)) (prefill_len : Z)
    : M (list (Z * nat * ref)) :=
  o ← get_self;
  let num_prompts := Z.of_nat (length prefill_bucket) in
  rows ← for_each prefill_bucket (λ '(slot, row), get_row row);
  indicators ← for_each (imap (λ idx x, (idx, x)) rows) (λ '(idx, x),
    np_full (true_length x) (Z.of_nat idx * 2 + 1));
  let total_len := foldl Z.add 0 (true_length <$> rows) in
  zeros ← np_full (max_prefill_length o - total_len) 0;
  let sequence_indicator := concat indicators ++ zeros in
  let positions :=
    concat ((λ x, np_arange (true_length x)) <$> rows)
    ++ np_arange (max_prefill_length o - total_len) in
  let toks :=
    concat ((λ x, take (Z.to_nat (true_length x)) (tokens x)) <$> rows) ++ zeros in
  let slots :=
    pad_num_prompts_len_array ((λ p, Z.of_nat p.1) <$> prefill_bucket) 16 in
  let true_lengths := pad_num_prompts_len_array (true_length <$> rows) 16 in
  let start_pos :=
    pad_num_prompts_len_array (start_positions 0 (true_length <$> rows)) 16 in
  match _cached_pref_batch o !! (prefill_len, num_prompts) with
  | Some prefill_fn =>
      let '(first_tokens, ds) :=
        run_prefill_insert_batch prefill_fn toks slots positions
          sequence_indicator start_pos true_lengths (decode_state o) in
      put_self (set_decode_state ds o);;
      log_call (CallPrefillBatch prefill_fn prefill_bucket);;
      mret (imap (λ idx p, (first_tokens idx, p.1, p.2)) prefill_bucket)
  | None => raise (AssertionError "prefill batch not found")
  end.

(** The nested function [prefill(prefill_bucket, prefill_len)]. *)
Definition prefill (prefill_bucket : list (nat * ref)) (prefill_len : Z)
    : M prefill_ret :=
  o ← get_self;
  if dummy o then mret (RetInt 123)
  else if negb (enable_batch_prefill o)
          || bool_decide (prefill_len = max_prefill_length o)
          || bool_decide (prefill_len * Z.of_nat (length prefill_bucket)
                          < max_prefill_length o)
  then
    match _cached_pref o !! prefill_len with
    | Some prefill_fn => RetList <$> prefill_each prefill_fn prefill_bucket
    | None => raise (AssertionError "prefill fn not found")
    end
  else RetList <$> prefill_concat prefill_bucket prefill_len.

(** The nested function [prefill_batch(prefill_bucket, padded_len)]:
    prefill, then queue one first-token entry per result. *)
Definition prefill_batch (prefill_bucket : list (nat * ref)) (padded_len : Z)
    : M unit :=
  prefill_results ← prefill prefill_bucket padded_len;
  match prefill_results with
  | RetInt _ => raise (TypeError "'int' object is not iterable")
  | RetList l =>
      for_each l (λ '(_first_token, _slot, _row),
        x ← get_row _row;
        backlog_put (FirstTokenEntry _first_token (id x) _slot));;
      mret ()
  end.

(** [first_token, slot, row = prefill([(slot, row)], padded_len)[0]]
    followed by the [put] of its first token. *)
Definition prefill_one (slot : nat) (row : ref) (padded_len : Z) : M unit :=
  r ← prefill [(slot, row)] padded_len;
  match r with
  | RetInt _ => raise (TypeError "'int' object is not subscriptable")
  | RetList [] => raise (IndexError "list index out of range")
  | RetList ((first_token, slot, row) :: _) =>
      x ← get_row row;
      backlog_put (FirstTokenEntry first_token (id x) slot)
  end.

(** [sum(row.true_length for (slot, row) in bucket)] *)
Definition total_true_length (h : store) (bucket : list (nat * ref)) : Z :=
  foldl Z.add 0 ((λ p, true_length (h p.2)) <$> bucket).

(** Lines 440-462: the test made on a bucket right after an append. *)
Definition flush_if_full (padded_len : Z) : M unit :=
  bucket ← read_bucket padded_len;
  o ← get_self;
  if decide (Z.of_nat (length bucket) * padded_len >= max_prefill_length o)
  then
    h ← get_heap;
    let total_true_len := total_true_length h bucket in
    if decide (max_prefill_length o - padded_len `div` 2 < total_true_len
               ∧ total_true_len <= max_prefill_length o)
    then
      prefill_batch bucket padded_len;;
      write_bucket padded_len []
    else if decide (total_true_len > max_prefill_length o)
    then
      match last bucket with
      | Some current =>
          prefill_batch (removelast bucket) padded_len;;
          write_bucket padded_len [current]
      | None => raise (IndexError "list index out of range")
      end
    else mret ()
  else mret ().

(** The body of [for row in data], from [padded_len = len(row.tokens)]
    on, with the slot that [empty_slots.pop()] returned. *)
Definition serve_row (slot : nat) (row : ref) : M unit :=
  x ← get_row row;
  o ← get_self;
  let padded_len := padded_length x in
  if negb (enable_batch_prefill o) then prefill_one slot row padded_len
  else
    half ← read_bucket (padded_len `div` 2);
    (if decide (length half ≠ 0%nat)
     then prefill_batch half (padded_len `div` 2);;
          write_bucket (padded_len `div` 2) []
     else mret ());;
    if decide (padded_len = max_prefill_length o)
    then prefill_one slot row padded_len
    else
      padded_len ←
        (if decide (padded_len = 64)
         then x ← get_row row;
              put_row row (mkInputData (id x) (tokens x ++ replicate 64 0)
                                       (true_length x));;
              mret 128
         else mret padded_len);
      bucket ← read_bucket padded_len;
      write_bucket padded_len (bucket ++ [(slot, row)]);;
      flush_if_full padded_len.

(** Lines 464-466: the end-of-input flush of every bucket key. *)
Definition flush_leftovers : M unit :=
  o ← get_self;
  for_each (dict_keys (prefill_buckets o)) (λ padded_len,
    bucket ← read_bucket padded_len;
    prefill_batch bucket padded_len);;
  o ← get_self;
  put_self (set_prefill_buckets [] o).

(** The nested function [decode()]: ten generate steps, then ten puts.
    In dummy mode [result_tokens_l] is never bound. *)
Definition decode : M unit :=
  o ← get_self;
  if dummy o
  then raise (UnboundLocalError "result_tokens_l")
  else
    match _cached_generate o with
    | Some gen_fn =>
        result_tokens_l ← for_each (seq 0 10) (λ _,
          o ← get_self;
          let '(ds, result_tokens) := run_generate gen_fn (decode_state o) in
          put_self (set_decode_state ds o);;
          log_call (CallGenerate gen_fn);;
          mret result_tokens);
        for_each result_tokens_l (λ result_tokens,
          backlog_put (StepEntry result_tokens));;
        mret ()
    | None => raise (AssertionError "no generate fn")
    end.

(** The producer loop with the slots it was handed written next to the
    rows: every row served in turn, then the leftovers flushed.  (The
    decode calls that the real loop interleaves touch neither the
    buckets nor the request store.) *)
Fixpoint serve_rows (work : list (nat * ref)) : M unit :=
  match work with
  | [] => mret ()
  | (slot, row) :: rest => serve_row slot row;; serve_rows rest
  end.

Definition serve_all (work : list (nat * ref)) : M unit :=
  serve_rows work;; flush_leftovers.

(** The requests that compiled prefill calls were made for, in order. *)
Definition prefilled_by (c : call) : list (nat * ref) :=
  match c with
  | CallPrefill _ slot row => [(slot, row)]
  | CallPrefillBatch _ bucket => bucket
  | CallGenerate _ => []
  end.

Definition prefilled (cs : list call) : list (nat * ref) :=
  cs ≫= prefilled_by.
End producer.

(** ** The bulk entry point [batch_inference] *)

Section bulk.
(** [random.shuffle], one outcome per group: an unknown rearrangement. *)
Variable shuffle : Z → list ref → list ref.

(** Lines 478-488: group by padded length, fold the 64 group into the
    128 group, shuffle and concatenate the groups 128, 256, 512, 1024. *)
Definition sort_data (h : store) (data : list ref) : list ref :=
  let data_dict : dict Z (list ref) :=
    foldl (λ d row, dd_append (padded_length (h row)) row d) [] data in
  let data_dict :=
    dict_set 128 (dd_get 128 data_dict ++ dd_get 64 data_dict)
      (dd_touch 64 (dd_touch 128 data_dict)) in
  let data_dict := dict_set 64 [] data_dict in
  (foldl (λ '(data_dict, data) padded_len,
            let group := shuffle padded_len (dd_get padded_len data_dict) in
            (dict_set padded_len group (dd_touch padded_len data_dict),
             data ++ group))
         (data_dict, []) [128; 256; 512; 1024]).2.

(** The nested function [callback(id_, token)] over [res]. *)
Definition callback (eos_id : Z) (id_ : string) (token : Z)
    (res : dict string (list Z)) : bool * dict string (list Z) :=
  let res := dd_touch id_ res in
  let res :=
    if decide (dd_get id_ res = [] ∨ last (dd_get id_ res) ≠ Some eos_id)
    then dict_set id_ (dd_get id_ res ++ [token]) res
    else res in
  (bool_decide (token = eos_id), res).

(** [res] after a sequence of callback invocations, oldest first. *)
Definition run_callbacks (eos_id : Z) (emissions : list (string * Z))
    (res : dict string (list Z)) : dict string (list Z) :=
  foldl (λ res e, (callback eos_id e.1 e.2 res).2) res emissions.
End bulk.

(** ** The run of [batch_inference_with_callback]: producer and consumer *)

Section run.
Context `{Engine}.
(** The caller's callbacks, with whatever state they close over. *)
Context {CB : Type}.
Variable emit_first_token : string → Z → CB → bool * CB.
Variable emit_token : string → Z → CB → bool * CB.

(** Where the producer (the calling thread) stands. *)
Inductive producer_pc :=
  | PLoop (data : list ref)   (* at the head of [for row in data] *)
  | PDrain                    (* at [while slot_to_id] *)
  | PJoin                     (* in [detokenize_thread.join()] *)
  | PReturned
  | PRaised (e : exn).

(** Where the [detokenize] thread stands. *)
Inductive consumer_pc :=
  | CTop                      (* at [while self.live] *)
  | CGet                      (* in [detokenize_backlog.get(block=True)] *)
  | CFirst (first_token : Z) (row_id : string) (_slot : nat)
  | CStep (result_tokens : ResultTokens)
  | CRelease (newly_empty todo : list nat)  (* in [for slot in newly_empty] *)
  | CAppend (newly_empty : list nat) (slot : nat) (todo : list nat)
                              (* between [del] and [append] *)
  | CExited                   (* the loop has been left *)
  | CKilled (e : exn).        (* [JetThread.run] caught [e]: SIGKILL *)

Record state := mkState {
  prod : pstate;
  ppc : producer_pc;
  live : bool;
  detokenize_backlog : list entry;
  empty_slots : list nat;
  slot_to_id : dict nat string;
  cb : CB;
  cpc : consumer_pc;
}.

(** [queue.Queue(10)] *)
Definition backlog_capacity : nat := 10.

Inductive label :=
  | Acquire (slot : nat)      (* [empty_slots.pop()] returned [slot] *)
  | Release (slot : nat)      (* [empty_slots.append(slot)] *)
  | Tau.

(** The state at the first [for row in data] test: [live] set, the
    consumer started, every slot free. *)
Definition initial (o : OfflineInference) (h : store) (data : list ref)
    (cb0 : CB) : state :=
  mkState (mkPstate o h [] []) (PLoop data) true []
          (seq 0 (batch_size o)) [] cb0 CTop.

(** Run a piece of producer code and move to [next] unless it raised. *)
Definition producer_run (m : M unit) (next : producer_pc) (l : label)
    (st : state) : label * state :=
  match m (prod st) with
  | (Ok _, p) =>
      (l, mkState p next (live st) (detokenize_backlog st) (empty_slots st)
            (slot_to_id st) (cb st) (cpc st))
  | (Raise e, p) =>
      (l, mkState p (PRaised e) (live st) (detokenize_backlog st)
            (empty_slots st) (slot_to_id st) (cb st) (cpc st))
  end.

Definition with_empty_slots (l : list nat) (st : state) : state :=
  mkState (prod st) (ppc st) (live st) (detokenize_backlog st) l
          (slot_to_id st) (cb st) (cpc st).

(** One atomic action of the producer, if it is not blocked. *)
Definition producer_step (st : state) : option (label * state) :=
  match outbox (prod st) with
  | e :: rest =>
      (* a pending [put(..., block=True)] *)
      if decide (length (detokenize_backlog st) < backlog_capacity)%nat
      then Some (Tau,
             mkState (mkPstate (self (prod st)) (heap (prod st)) rest
                               (calls (prod st)))
                     (ppc st) (live st) (detokenize_backlog st ++ [e])
                     (empty_slots st) (slot_to_id st) (cb st) (cpc st))
      else None
  | [] =>
      match ppc st with
      | PLoop (row :: rest) =>
          match last (empty_slots st) with
          | None => Some (producer_run decode (PLoop (row :: rest)) Tau st)
          | Some slot =>
              Some (producer_run (serve_row slot row) (PLoop rest)
                      (Acquire slot)
                      (with_empty_slots (removelast (empty_slots st)) st))
          end
      | PLoop [] => Some (producer_run flush_leftovers PDrain Tau st)
      | PDrain =>
          match slot_to_id st with
          | _ :: _ => Some (producer_run decode PDrain Tau st)
          | [] =>
              Some (Tau,
                mkState (prod st) PJoin false (detokenize_backlog st)
                        (empty_slots st) (slot_to_id st) (cb st) (cpc st))
          end
      | PJoin =>
          match cpc st with
          | CExited =>
              Some (Tau,
                mkState (prod st) PReturned (live st) (detokenize_backlog st)
                        (empty_slots st) (slot_to_id st) (cb st) (cpc st))
          | _ => None
          end
      | PReturned | PRaised _ => None
      end
  end.

(** The loop [for slot, id_ in slot_to_id.items()] of a step entry. *)
Fixpoint scan_slots (max_decode_length : Z) (result_tokens : ResultTokens)
    (items : list (nat * string)) (c : CB) (newly_empty : list nat)
    : CB * list nat :=
  match items with
  | [] => (c, newly_empty)
  | (slot, id_) :: items' =>
      let '(token, is_valid, length) := result_tokens slot in
      let '(should_finish, c) :=
        if decide (is_valid ≠ 0) then emit_token id_ token c else (false, c) in
      let newly_empty :=
        if should_finish || bool_decide (length >= max_decode_length)
        then newly_empty ++ [slot] else newly_empty in
      scan_slots max_decode_length result_tokens items' c newly_empty
  end.

(** Line 385: the test that leaves the loop. *)
Definition drained (newly_empty : list nat) (backlog : list entry)
    (occupied : dict nat string) : bool :=
  bool_decide (newly_empty ≠ []) && bool_decide (length backlog = 0%nat)
  && bool_decide (length occupied = 0%nat).

Definition consumer_at (pc : consumer_pc) (st : state) : state :=
  mkState (prod st) (ppc st) (live st) (detokenize_backlog st)
          (empty_slots st) (slot_to_id st) (cb st) pc.

(** One atomic action of the consumer, if it is not blocked. *)
Definition consumer_step (st : state) : option (label * state) :=
  match cpc st with
  | CTop => Some (Tau, consumer_at (if live st then CGet else CExited) st)
  | CGet =>
      match detokenize_backlog st with
      | [] => None
      | e :: rest =>
          Some (Tau,
            mkState (prod st) (ppc st) (live st) rest (empty_slots st)
                    (slot_to_id st) (cb st)
                    match e with
                    | FirstTokenEntry first_token row_id _slot =>
                        CFirst first_token row_id _slot
                    | StepEntry result_tokens => CStep result_tokens
                    end)
      end
  | CFirst first_token row_id _slot =>
      let '(should_terminate, c) := emit_first_token row_id first_token (cb st) in
      if should_terminate
      then Some (Release _slot,
             mkState (prod st) (ppc st) (live st) (detokenize_backlog st)
                     (empty_slots st ++ [_slot]) (slot_to_id st) c CTop)
      else Some (Tau,
             mkState (prod st) (ppc st) (live st) (detokenize_backlog st)
                     (empty_slots st) (dict_set _slot row_id (slot_to_id st))
                     c CTop)
  | CStep result_tokens =>
      let '(c, newly_empty) :=
        scan_slots (max_decode_length (self (prod st))) result_tokens
                   (slot_to_id st) (cb st) [] in
      Some (Tau,
        mkState (prod st) (ppc st) (live st) (detokenize_backlog st)
                (empty_slots st) (slot_to_id st) c
                (CRelease newly_empty newly_empty))
  | CRelease newly_empty (slot :: todo) =>
      match dict_lookup slot (slot_to_id st) with
      | Some _ =>
          Some (Tau,
            mkState (prod st) (ppc st) (live st) (detokenize_backlog st)
                    (empty_slots st) (dict_del slot (slot_to_id st)) (cb st)
                    (CAppend newly_empty slot todo))
      | None => Some (Tau, consumer_at (CKilled (KeyError "slot")) st)
      end
  | CAppend newly_empty slot todo =>
      Some (Release slot,
        mkState (prod st) (ppc st) (live st) (detokenize_backlog st)
                (empty_slots st ++ [slot]) (slot_to_id st) (cb st)
                (CRelease newly_empty todo))
  | CRelease newly_empty [] =>
      Some (Tau,
        consumer_at
          (if drained newly_empty (detokenize_backlog st) (slot_to_id st)
           then CExited else CTop) st)
  | CExited | CKilled _ => None
  end.

(** The process is gone once the consumer has been killed. *)
Definition alive (st : state) : bool :=
  match cpc st with CKilled _ => false | _ => true end.

Inductive thread := Producer | Consumer.

Definition thread_step (t : thread) (st : state) : option (label * state) :=
  if alive st
  then match t with
       | Producer => producer_step st
       | Consumer => consumer_step st
       end
  else None.

(** Any interleaving of the atomic actions of the two threads. *)
Inductive step : state → label → state → Prop :=
  | step_thread t st l st' :
      thread_step t st = Some (l, st') → step st l st'.

Inductive execution : state → list label → state → Prop :=
  | execution_nil st : execution st [] st
  | execution_snoc st tr st' l st'' :
      execution st tr st' → step st' l st'' → execution st (tr ++ [l]) st''.

Definition reachable (st0 st : state) : Prop := ∃ tr, execution st0 tr st.

(** Running a given schedule; [None] if a scheduled thread is blocked. *)
Fixpoint run_schedule (sched : list thread) (st : state)
    : option (list label * state) :=
  match sched with
  | [] => Some ([], st)
  | t :: sched' =>
      match thread_step t st with
      | Some (l, st') =>
          match run_schedule sched' st' with
          | Some (tr, st'') => Some (l :: tr, st'')
          | None => None
          end
      | None => None
      end
  end.

(** The consumer running on its own, from the entry it has just got
    until it is back at [while self.live] or has left the loop. *)
Fixpoint finish_entry (fuel : nat) (st : state) : state :=
  match fuel with
  | O => st
  | S fuel' =>
      match cpc st with
      | CTop | CGet | CExited | CKilled _ => st
      | _ =>
          match consumer_step st with
          | Some (_, st') => finish_entry fuel' st'
          | None => st
          end
      end
  end.

(** The slots held according to a trace: acquired and not yet released. *)
Definition held_after (tr : list label) : list nat :=
  foldl (λ held l,
           match l with
           | Acquire s => s :: held
           | Release s => filter (.≠ s) held
           | Tau => held
           end) [] tr.
End run.

(** ** A concrete engine, for running the model on examples *)

(** The decode state counts the compiled calls made so far; every first
    token is [7], and generation yields token [5], valid, with the call
    count as the output length. *)
Definition counting_engine : Engine := {|
  DecodeState := Z;
  run_prefill_insert := λ _ _ _ _ ds, (7, ds + 1);
  run_prefill_insert_batch := λ _ _ _ _ _ _ _ ds, (λ _, 7, ds + 1);
  run_generate := λ _ ds, (ds + 1, λ _, (5, 1, ds + 1));
|}.

(** A freshly constructed object ([__init__]) for [counting_engine]. *)
Definition fresh_object (enable_batch_prefill : bool) (batch_size : nat)
    (max_prefill_length max_decode_length : Z) : @OfflineInference counting_engine :=
  @mkOfflineInference counting_engine 0 enable_batch_prefill batch_size
    max_prefill_length max_decode_length false ∅ ∅ None [].

(** * Notions used in the statements *)

Section warmup_notions.
Context `{Engine}.

(** The lengths the outer loop reaches before its [break]. *)
Fixpoint compiled_lengths (max_length : Z) (buckets : list Z) : list Z :=
  match buckets with
  | [] => []
  | length :: rest =>
      if decide (length > max_length) then []
      else length :: compiled_lengths max_length rest
  end.

End warmup_notions.

(** The batched keys as the specification words them: a feasible pair is
    an interesting length up to the maximum, other than 64 and the maximum,
    with a request count whose padded total does not exceed the maximum. *)
Definition spec_batch_variant (max_length l n : Z) : Prop :=
  l ∈ interesting_buckets ∧ l <= max_length ∧ l ≠ 64 ∧ l ≠ max_length
  ∧ 0 < n ∧ l * n <= max_length.

Section callback_notions.
Variable eos_id : Z.

(** The marker occurs nowhere but in the last position. *)
Definition eos_only_last (s : list Z) : Prop :=
  ∀ pre x, s = pre ++ [x] → eos_id ∉ pre.

End callback_notions.

Section producer_notions.
Context `{Engine}.
Implicit Types (st : pstate) (o : OfflineInference) (b : list (nat * ref)).

(** [st'] differs from [st] at most in the decode state, the outbox and
    the call log. *)
Definition kept (st st' : pstate) : Prop :=
  self st' = set_decode_state (decode_state (self st')) (self st)
  ∧ heap st' = heap st.

(** The (slot, row) a result or a queue entry belongs to. *)
Definition targets (l : list (Z * nat * ref)) : list (nat * ref) :=
  (λ x, (x.1.2, x.2)) <$> l.

Definition first_token_entry (h : store) (x : Z * nat * ref) : entry :=
  FirstTokenEntry x.1.1 (id (h x.2)) x.1.2.

(** Nothing stands in the way of building the argument buffers of a
    batched call: no negative true length, and a total within the
    maximum prefill length. *)
Definition buildable (st : pstate) (b : list (nat * ref)) : Prop :=
  Forall (λ p, 0 <= true_length (heap st p.2)) b
  ∧ total_true_length (heap st) b <= max_prefill_length (self st).

(** The test of [prefill] that selects one single-request call per
    member rather than one batched call. *)
Definition prefills_singly (o : OfflineInference) (prefill_len : Z) (n : nat) : bool :=
  negb (enable_batch_prefill o)
  || bool_decide (prefill_len = max_prefill_length o)
  || bool_decide (prefill_len * Z.of_nat n < max_prefill_length o).

(** The compiled calls a successful [prefill] of [b] makes. *)
Definition compiled_calls (o : OfflineInference) (b : list (nat * ref))
    (prefill_len : Z) (cs : list call) : Prop :=
  if prefills_singly o prefill_len (length b)
  then ∃ fn, _cached_pref o !! prefill_len = Some fn
             ∧ cs = (λ p, CallPrefill fn p.1 p.2) <$> b
  else ∃ fn, _cached_pref_batch o !! (prefill_len, Z.of_nat (length b)) = Some fn
             ∧ cs = [CallPrefillBatch fn b].

(** [st'] is [st] after a successful [prefill_batch(b, prefill_len)]:
    the members of [b], and only they, were prefilled and had their
    first-token entries handed to the queue, in order. *)
Definition flushes (b : list (nat * ref)) (prefill_len : Z) (st st' : pstate) : Prop :=
  ∃ l cs, targets l = b ∧ kept st st'
    ∧ outbox st' = outbox st ++ (first_token_entry (heap st) <$> l)
    ∧ calls st' = calls st ++ cs
    ∧ compiled_calls (self st) b prefill_len cs.

End producer_notions.

(** Example requests: object [r] has identity ["a"], ["b"], ... and the
    padded and true lengths given. *)
Definition request (name : string) (padded true_len : Z) : InputData :=
  mkInputData name (replicate (Z.to_nat padded) 1) true_len.

Definition fresh_pstate (o : @OfflineInference counting_engine) (h : store)
    : @pstate counting_engine :=
  @mkPstate counting_engine o h [] [].

Section bucket_notions.
Context `{Engine}.
Implicit Types (st : pstate) (b : list (nat * ref)).

Definition with_buckets (d : dict Z (list (nat * ref))) (st : pstate) : pstate :=
  mkPstate (set_prefill_buckets d (self st)) (heap st) (outbox st) (calls st).

(** [st'] is [st] after the members [flushed] went through one
    successful [prefill_batch] call and the bucket for [padded_len] was
    overwritten with [keep]. *)
Definition flushed_leaving (flushed keep : list (nat * ref)) (padded_len : Z)
    (st st' : pstate) : Prop :=
  ∃ st1, flushes flushed padded_len st st1
         ∧ st' = with_buckets (dict_set padded_len keep (prefill_buckets (self st))) st1.

End bucket_notions.

Section serve_row_notions.
Context `{Engine}.
Implicit Types (st : pstate) (b : list (nat * ref)).

(** Lines 426-428: the flush of the bucket for half the length. *)
Definition flush_half (k : Z) : M unit :=
  half ← read_bucket k;
  if decide (length half ≠ 0%nat)
  then prefill_batch half k;; write_bucket k []
  else mret ().

(** Line 434: the request zero-extended by 64 tokens. *)
Definition zero_extended (x : InputData) : InputData :=
  mkInputData (id x) (tokens x ++ replicate 64 0) (true_length x).

(** The state in which lines 433-437 leave [st]: the request
    reclassified if its length is 64, and appended to its bucket. *)
Definition bucketed (slot : nat) (row : ref) (padded_len : Z) (st : pstate) : pstate :=
  let key := if decide (padded_len = 64) then 128 else padded_len in
  let d := prefill_buckets (self st) in
  mkPstate
    (set_prefill_buckets
       (dict_set key (dd_get key d ++ [(slot, row)]) (dd_touch key d)) (self st))
    (if decide (padded_len = 64)
     then store_set (heap st) row (zero_extended (heap st row)) else heap st)
    (outbox st) (calls st).

Definition bucket_key (padded_len : Z) : Z :=
  if decide (padded_len = 64) then 128 else padded_len.

Definition touched (k : Z) (st : pstate) : pstate :=
  with_buckets (dd_touch k (prefill_buckets (self st))) st.

End serve_row_notions.

Section immediate_prefill_notions.
Context `{Engine}.
Implicit Types (st : pstate).

(** A successful single-request prefill of one request, spelled out. *)
Definition prefilled_alone (slot : nat) (row : ref) (padded_len : Z)
    (st st' : pstate) : Prop :=
  ∃ fn first_token,
    _cached_pref (self st) !! padded_len = Some fn
    ∧ calls st' = calls st ++ [CallPrefill fn slot row]
    ∧ outbox st' = outbox st ++ [FirstTokenEntry first_token (id (heap st row)) slot]
    ∧ prefill_buckets (self st') = prefill_buckets (self st)
    ∧ heap st' = heap st.

End immediate_prefill_notions.

Section pending_notions.
Context {K V : Type} `{EqDecision K}.
Implicit Types (d : dict K (list V)) (k : K).

Definition pending_of (d : dict K (list V)) : list V := concat (dict_values d).

End pending_notions.

Section accounting_notions.
Context `{Engine}.
Implicit Types (st : pstate) (b : list (nat * ref)).

(** Everything of the object that serving only reads. *)
Definition config (o : OfflineInference) :=
  (enable_batch_prefill o, batch_size o, max_prefill_length o,
   max_decode_length o, dummy o, _cached_pref o, _cached_pref_batch o,
   _cached_generate o).

(** The (slot, request) pairs waiting in the buckets. *)
Definition pending (st : pstate) : list (nat * ref) :=
  pending_of (prefill_buckets (self st)).

(** Request [x'] is request [x] as serving may leave it: same identity
    and true length, and the tokens either as they were or, for a padded
    length of 64, followed by 64 zeros. *)
Definition evolved (x x' : InputData) : Prop :=
  id x' = id x ∧ true_length x' = true_length x
  ∧ (tokens x' = tokens x
     ∨ (padded_length x = 64 ∧ tokens x' = tokens x ++ replicate 64 0)).

Definition is_ok {A} (r : result A) : bool :=
  match r with Ok _ => true | Raise _ => false end.

(** The step from [st] to [st'] took in the pairs [extra] and only moved
    pairs from the buckets to prefill calls, each call's members getting
    their first-token entries queued in order; when [exact], no pair was
    lost. *)
Definition accounted (extra : list (nat * ref)) (exact : bool)
    (st st' : pstate) : Prop :=
  config (self st') = config (self st)
  ∧ (∀ r, evolved (heap st r) (heap st' r))
  ∧ (NoDup (dict_keys (prefill_buckets (self st)))
     → NoDup (dict_keys (prefill_buckets (self st'))))
  ∧ ∃ cs l, calls st' = calls st ++ cs ∧ targets l = prefilled cs
      ∧ outbox st' = outbox st ++ (first_token_entry (heap st) <$> l)
      ∧ prefilled cs ⊆+ pending st ++ extra
      ∧ (exact = true → pending st' ++ prefilled cs ≡ₚ pending st ++ extra).

End accounting_notions.

Section flush_notions.
Context `{Engine}.
Implicit Types (st : pstate) (b : list (nat * ref)).

(** The body of the end-of-input loop, and the loop over some keys. *)
Definition flush_key (padded_len : Z) : M unit :=
  bucket ← read_bucket padded_len;
  prefill_batch bucket padded_len.

(** [decode] touches neither the buckets nor the requests; it only
    runs the generate variant and queues step entries. *)
Definition is_step (e : entry) : Prop :=
  match e with StepEntry _ => True | FirstTokenEntry _ _ _ => False end.

End flush_notions.

Section sort_data_notions.
Variable shuffle : Z → list ref → list ref.
Variable h : store.

Definition has_length (k : Z) (r : ref) : Prop := padded_length (h r) = k.

Definition has_length_dec k r : Decision (has_length k r).
Proof. unfold has_length. apply _. Defined.

End sort_data_notions.

(** The (slot, identity) a first-token entry carries. *)
Definition entry_tags (es : list entry) : list (nat * string) :=
  es ≫= λ e, match e with
             | FirstTokenEntry _ row_id slot => [(slot, row_id)]
             | StepEntry _ => []
             end.

Definition tagged (h : store) (ps : list (nat * ref)) : list (nat * string) :=
  (λ p, (p.1, id (h p.2))) <$> ps.

Section run_notions.
Context `{Engine} {CB : Type}.
Variable emit_first_token : string → Z → CB → bool * CB.
Variable emit_token : string → Z → CB → bool * CB.
Implicit Types (st : @state _ CB).

Definition raised (pc : producer_pc) : bool :=
  match pc with PRaised _ => true | _ => false end.

(** The requests not yet taken from [data]. *)
Definition todo (pc : producer_pc) : list ref :=
  match pc with PLoop data => data | _ => [] end.

(** The pairs waiting in buckets; after a raise the buckets are dead. *)
Definition bucket_pairs st : list (nat * ref) :=
  if raised (ppc st) then [] else pending (prod st).

Definition first_held (pc : consumer_pc) : list (nat * string) :=
  match pc with CFirst _ row_id slot => [(slot, row_id)] | _ => [] end.

Definition slot_held (pc : consumer_pc) : list nat :=
  match pc with CAppend _ slot _ => [slot] | _ => [] end.

(** Every (slot, identity) between its acquisition and its release:
    waiting in a bucket, on its way through the queue, in the consumer's
    hands, or registered as occupied. *)
Definition in_flight st : list (nat * string) :=
  tagged (heap (prod st)) (bucket_pairs st)
  ++ entry_tags (outbox (prod st))
  ++ entry_tags (detokenize_backlog st)
  ++ first_held (cpc st)
  ++ slot_to_id st.

Definition all_slots st : list nat :=
  empty_slots st ++ (in_flight st).*1 ++ slot_held (cpc st).

Definition all_ids st : list string :=
  ((λ r, id (heap (prod st) r)) <$> todo (ppc st)) ++ (in_flight st).*2.

(** The buckets form a dictionary as long as the producer is running. *)
Definition wf_buckets st : Prop :=
  raised (ppc st) = false → NoDup (dict_keys (prefill_buckets (self (prod st)))).

(** What one step guarantees. *)
Definition step_ok st (l : label) st' : Prop :=
  all_slots st' ⊆+ all_slots st
  ∧ all_ids st' ⊆+ all_ids st
  ∧ wf_buckets st'
  ∧ (∀ r, evolved (heap (prod st) r) (heap (prod st') r))
  ∧ match l with
    | Acquire s => empty_slots st = empty_slots st' ++ [s]
    | Release s => empty_slots st' = empty_slots st ++ [s]
    | Tau => empty_slots st' = empty_slots st
    end.

End run_notions.

(** Callbacks that never ask for termination, and two requests of
    padded length 128 that carry the same identity. *)
Definition never_stop : string → Z → unit → bool * unit := λ _ _ c, (false, c).

Definition twin_run : @state counting_engine unit :=
  initial (warmup 1024 (fresh_object false 2 1024 1024))
          (λ _, request "a" 128 100) [0%nat; 1%nat] tt.

(** Two requests with distinct identities, served without batching and
    with both first tokens consumed. *)
Definition pair_run : @state counting_engine unit :=
  initial (warmup 1024 (fresh_object false 2 1024 1024))
          (λ r, request (if decide (r = 0%nat) then "a" else "b") 128 100)
          [0%nat; 1%nat] tt.

Definition pair_schedule : list thread :=
  [Producer; Producer; Producer; Producer; Consumer; Consumer;
   Consumer; Consumer; Consumer; Consumer].

Definition pair_reached : list label * @state counting_engine unit :=
  default ([], pair_run) (run_schedule never_stop never_stop pair_schedule pair_run).

(** A request of padded length 64 served with batching enabled. *)
Definition short_request_state : @pstate counting_engine :=
  fresh_pstate (warmup 1024 (fresh_object true 8 1024 1024))
    (λ _, request "a" 64 60).

(** A warmed-up object for maximum 1024 whose bucket for [key] holds
    the pairs (0, 0), ..., (n - 1, n - 1), over a store of requests. *)
Definition full_bucket_state (key : Z) (n : nat) (h : store) : @pstate counting_engine :=
  fresh_pstate
    (set_prefill_buckets [(key, (λ i, (i, i)) <$> seq 0 n)]
       (warmup 1024 (fresh_object true 16 1024 1024)))
    h.

(** Eight requests of padded length 128 and true length 100 wait in the
    128 bucket; request 8 has padded length 256. *)
Definition waiting_state : @pstate counting_engine :=
  full_bucket_state 128 8
    (λ r, if decide (r < 8)%nat then request "r" 128 100 else request "s" 256 250).

Section detokenize_notions.
Context `{Engine} {CB : Type}.
Variable emit_first_token : string → Z → CB → bool * CB.
Variable emit_token : string → Z → CB → bool * CB.
Implicit Types (st : @state _ CB).

(** Between two entries: at the loop head, or out of the loop. *)
Definition between_entries (pc : consumer_pc) : Prop :=
  match pc with CTop | CExited => True | _ => False end.

(** The slots a step entry frees: what the scan of line 372 collects. *)
Definition freed_by (result_tokens : ResultTokens) st : list nat :=
  (scan_slots emit_token (max_decode_length (self (prod st))) result_tokens
     (slot_to_id st) (cb st) []).2.

(** The rest of one pass through the loop body, in a run of both
    threads: from a state in which the consumer is inside the body, any
    interleaving of actions of the producer and the consumer up to the
    first state in which the consumer is between two entries again. *)
Inductive iteration : state → state → Prop :=
  | iteration_done st : between_entries (cpc st) → iteration st st
  | iteration_step t st l st1 st' :
      ¬ between_entries (cpc st) →
      thread_step emit_first_token emit_token t st = Some (l, st1) →
      iteration st1 st' → iteration st st'.

(** Where the consumer of [st] stands in the body it entered at [st0]
    with the step entry [result_tokens]: still to scan, or deleting the
    freed slots, [done] being those already deleted.  The producer may
    have put entries in the queue meanwhile. *)
Definition scanning (result_tokens : ResultTokens) (st0 st : state) : Prop :=
  max_decode_length (self (prod st)) = max_decode_length (self (prod st0))
  ∧ (∃ added, detokenize_backlog st = detokenize_backlog st0 ++ added)
  ∧ match cpc st with
    | CStep rt =>
        rt = result_tokens ∧ slot_to_id st = slot_to_id st0 ∧ cb st = cb st0
    | CRelease newly_empty todo =>
        newly_empty = freed_by result_tokens st0
        ∧ ∃ done, newly_empty = done ++ todo
            ∧ slot_to_id st = foldl (λ d s, dict_del s d) (slot_to_id st0) done
    | CAppend newly_empty slot todo =>
        newly_empty = freed_by result_tokens st0
        ∧ ∃ done, newly_empty = done ++ slot :: todo
            ∧ slot_to_id st
              = foldl (λ d s, dict_del s d) (slot_to_id st0) (done ++ [slot])
    | _ => False
    end.

End detokenize_notions.

(** The consumer about to get a step entry that ends the request in
    slot 1 (its output length 1024 has reached [max_decode_length]), with
    nothing else queued. *)
Definition last_step_state : @state counting_engine unit :=
  mkState (fresh_pstate (warmup 1024 (fresh_object false 2 1024 1024))
             (λ _, request "a" 128 100))
          PDrain true [StepEntry (λ _, (5, 1, 1024))] [0%nat] [(1%nat, "a")] tt CGet.

(** The same run right after the consumer has got that entry. *)
Definition scanning_state : @state counting_engine unit :=
  mkState (fresh_pstate (warmup 1024 (fresh_object false 2 1024 1024))
             (λ _, request "a" 128 100))
          PDrain true [] [0%nat] [(1%nat, "a")] tt (CStep (λ _, (5, 1, 1024))).

(** Where the consumer, left alone, ends that pass. *)
Definition scanning_end : @state counting_engine unit :=
  (default ([], scanning_state)
     (run_schedule never_stop never_stop [Consumer; Consumer; Consumer; Consumer]
        scanning_state)).2.

(** Where the same pass ends if the producer decodes and puts a first
    result before the consumer reaches its test. *)
Definition scanning_late_end : @state counting_engine unit :=
  (default ([], scanning_state)
     (run_schedule never_stop never_stop
        [Producer; Producer; Consumer; Consumer; Consumer; Consumer]
        scanning_state)).2.

(** * Notions used in the further properties *)

(** ** The argument buffers of a batched prefill *)

(** Lines 256-271 of [prefill], as functions of the bucket's requests
    (in bucket order) and the maximum prefill length. *)
Definition total_len (rows : list InputData) : Z :=
  foldl Z.add 0 (true_length <$> rows).

(** [sequence_indicator]: [idx * 2 + 1] over the tokens of request
    [idx], then zeros. *)
Definition packed_indicator (rows : list InputData) (maximum : Z) : list Z :=
  concat (imap (λ idx x, replicate (Z.to_nat (true_length x)) (Z.of_nat idx * 2 + 1))
               rows)
  ++ replicate (Z.to_nat (maximum - total_len rows)) 0.

(** [positions]: every request counted from 0, and so is the padding. *)
Definition packed_positions (rows : list InputData) (maximum : Z) : list Z :=
  concat ((λ x, np_arange (true_length x)) <$> rows)
  ++ np_arange (maximum - total_len rows).

(** [tokens]: the slices [row.tokens[: row.true_length]], then zeros. *)
Definition packed_tokens (rows : list InputData) (maximum : Z) : list Z :=
  concat ((λ x, take (Z.to_nat (true_length x)) (tokens x)) <$> rows)
  ++ replicate (Z.to_nat (maximum - total_len rows)) 0.

(** Where request [i] starts in the packed buffers. *)
Definition segment_start (rows : list InputData) (i : nat) : Z :=
  total_len (take i rows).

(** Two requests of padded length 512 and true length 500 over a
    warmed-up object for maximum 1024; and the same with true lengths of
    600, more than the padding allows. *)
Definition two_halves_state : @pstate counting_engine :=
  fresh_pstate (warmup 1024 (fresh_object true 16 1024 1024))
    (λ _, request "r" 512 500).

Definition overlong_state : @pstate counting_engine :=
  fresh_pstate (warmup 1024 (fresh_object true 16 1024 1024))
    (λ _, request "r" 512 600).

(** ** Generate steps *)

(** [n] calls of the compiled generate function in a row (the loop of
    lines 345-347): the decode state after them and their results, oldest
    first. *)
Fixpoint generate_steps `{Engine} (gen_fn : executable) (n : nat)
    (ds : DecodeState) : DecodeState * list ResultTokens :=
  match n with
  | O => (ds, [])
  | S n' =>
      let '(ds1, result_tokens) := run_generate gen_fn ds in
      let '(ds2, rest) := generate_steps gen_fn n' ds1 in
      (ds2, result_tokens :: rest)
  end.

(** ** What [callback] accumulates *)

(** A token sequence cut after its first end-of-sequence marker. *)
Fixpoint upto_eos (eos_id : Z) (l : list Z) : list Z :=
  match l with
  | [] => []
  | token :: l' =>
      if decide (token = eos_id) then [token] else token :: upto_eos eos_id l'
  end.

(** The tokens emitted for one identity, oldest first. *)
Definition emitted_for (id_ : string) (emissions : list (string * Z)) : list Z :=
  (filter (λ e, e.1 = id_) emissions).*2.

(** ** Order of service *)

(** [f] never decreases along [l]. *)
Definition nondecreasing {A} (f : A → Z) (l : list A) : Prop :=
  ∀ i j x y, (i < j)%nat → l !! i = Some x → l !! j = Some y → f x <= f y.

(** Requests 0 to 3 with padded lengths 256, 128, 128 and 64. *)
Definition mixed_store : store :=
  λ r, match r with
       | O => request "a" 256 200
       | 1%nat => request "b" 128 100
       | 2%nat => request "c" 128 100
       | _ => request "d" 64 60
       end.

(** ** The object around its caches *)

(** The fields of the object that [__init__] sets from the engine and
    its arguments, and the buckets. *)
Definition config_fields `{Engine} (o : OfflineInference) :=
  (enable_batch_prefill o, batch_size o, max_prefill_length o,
   max_decode_length o, dummy o, prefill_buckets o).

(** The caches are as [warmup(max_length, ...)] leaves them on an
    object that [__init__] has just built (both caches empty). *)
Definition warmed_up `{Engine} (max_length : Z) (o : OfflineInference) : Prop :=
  ∃ o0, _cached_pref o0 = ∅ ∧ _cached_pref_batch o0 = ∅
        ∧ _cached_pref o = _cached_pref (warmup max_length o0)
        ∧ _cached_pref_batch o = _cached_pref_batch (warmup max_length o0).

(** Sixteen requests of padded length 128 and true length 50 waiting in
    the 128 bucket of an object warmed up for maximum 1024. *)
Definition overgrown_state : @pstate counting_engine :=
  full_bucket_state 128 16 (λ _, request "r" 128 50).

(** ** The consumer's deletions *)

(** The slots the consumer is still to delete are distinct and
    occupied, and the consumer has not been killed. *)
Definition release_ok (occupied : list nat) (pc : consumer_pc) : Prop :=
  match pc with
  | CRelease _ todo | CAppend _ _ todo =>
      NoDup todo ∧ ∀ s, s ∈ todo → s ∈ occupied
  | CKilled _ => False
  | _ => True
  end.

Definition consumer_ok `{Engine} {CB : Type} (st : @state _ CB) : Prop :=
  NoDup (dict_keys (slot_to_id st))
  ∧ release_ok (dict_keys (slot_to_id st)) (cpc st).

(** ** Serving without batching *)

(** Call [c] is the single-request prefill of pair [p] with the variant
    cached for the padded length of its request. *)
Definition prefills_alone `{Engine} (st : pstate) (c : call) (p : nat * ref) : Prop :=
  ∃ fn, _cached_pref (self st) !! padded_length (heap st p.2) = Some fn
        ∧ c = CallPrefill fn p.1 p.2.

(** ** Runs in dummy mode *)

(** Where a dummy-mode run can stand: in the request loop with requests
    left, at its end with some bucket key created, or raised. *)
Definition dummy_bound `{Engine} {CB : Type} (st : @state _ CB) : Prop :=
  dummy (self (prod st)) = true
  ∧ match ppc st with
    | PLoop (_ :: _) => True
    | PLoop [] => dict_keys (prefill_buckets (self (prod st))) ≠ []
    | PRaised _ => True
    | _ => False
    end.

(** A dummy-mode object, and where its run over one request of padded
    length 128 stands after two actions of the producer. *)
Definition dummy_object : @OfflineInference counting_engine :=
  @mkOfflineInference counting_engine 0 true 2 1024 1024 true ∅ ∅ None [].

Definition dummy_run : @state counting_engine unit :=
  initial dummy_object (λ _, request "a" 128 100) [0%nat] tt.

Definition dummy_reached : list label * @state counting_engine unit :=
  default ([], dummy_run)
    (run_schedule never_stop never_stop [Producer; Producer] dummy_run).

(** ** A producer without slots *)

(** The consumer is at a point that a step entry leads through when no
    slot is occupied. *)
Definition idle_consumer (pc : consumer_pc) : Prop :=
  match pc with
  | CTop | CGet | CStep _ | CRelease [] [] => True
  | _ => False
  end.

(** No slot is free and none is occupied (so every slot is held by a
    request that waits in a bucket), no first token is on its way, and
    [decode] can run. *)
Definition starved `{Engine} {CB : Type} (st : @state _ CB) : Prop :=
  live st = true ∧ empty_slots st = [] ∧ slot_to_id st = []
  ∧ Forall is_step (outbox (prod st))
  ∧ Forall is_step (detokenize_backlog st)
  ∧ idle_consumer (cpc st)
  ∧ dummy (self (prod st)) = false
  ∧ is_Some (_cached_generate (self (prod st))).

(** One slot, batch prefill enabled, two requests of padded length 128:
    the state after the first request was put in its bucket, and a state
    some steps later. *)
Definition single_slot_run : @state counting_engine unit :=
  initial (warmup 1024 (fresh_object true 1 1024 1024))
          (λ _, request "a" 128 100) [0%nat; 1%nat] tt.

Definition single_slot_start : @state counting_engine unit :=
  (default ([], single_slot_run)
     (run_schedule never_stop never_stop [Producer] single_slot_run)).2.

Definition single_slot_later : list label * @state counting_engine unit :=
  default ([], single_slot_start)
    (run_schedule never_stop never_stop
       [Producer; Producer; Consumer; Consumer; Consumer; Consumer; Producer]
       single_slot_start).

(** * Properties *)

(** ** Warm-up *)

Section warmup_facts.
Context `{Engine}.

Lemma compiled_lengths_interesting max_length l :
  l ∈ compiled_lengths max_length interesting_buckets
  ↔ l ∈ interesting_buckets ∧ l <= max_length.
Proof.
  unfold interesting_buckets. cbn [compiled_lengths].
  repeat case_decide; rewrite ?elem_of_cons, ?elem_of_nil; lia.
Qed.

Lemma compile_batch_variants_cons max_length l p ps o :
  compile_batch_variants max_length l (p :: ps) o
  = compile_batch_variants max_length l ps
      (set_cached_pref_batch
         (<[(l, p) := PrefillInsertBatch max_length l p]> (_cached_pref_batch o)) o).
Proof. reflexivity. Qed.

Lemma compile_batch_variants_pref max_length l ps o :
  _cached_pref (compile_batch_variants max_length l ps o) = _cached_pref o.
Proof.
  revert o. induction ps as [|p ps IH]; intros o; [done|].
  rewrite compile_batch_variants_cons. by rewrite IH.
Qed.

Lemma compile_batch_variants_batch max_length l ps o l' n' :
  is_Some (_cached_pref_batch (compile_batch_variants max_length l ps o) !! (l', n'))
  ↔ is_Some (_cached_pref_batch o !! (l', n')) ∨ (l' = l ∧ n' ∈ ps).
Proof.
  revert o. induction ps as [|p ps IH]; intros o.
  - cbn. rewrite elem_of_nil. tauto.
  - rewrite compile_batch_variants_cons, IH. cbn. rewrite elem_of_cons.
    destruct (decide ((l, p) = (l', n'))) as [[= <- <-]|Hne].
    + rewrite lookup_insert_eq. split; [intros _|intros _; left; eauto].
      right. auto.
    + rewrite lookup_insert_ne by done. split; [tauto|].
      intros [?|[-> [->|?]]]; tauto.
Qed.

Lemma compile_variants_pref max_length ls o l :
  is_Some (_cached_pref (compile_variants max_length ls o) !! l)
  ↔ is_Some (_cached_pref o !! l) ∨ l ∈ compiled_lengths max_length ls.
Proof.
  revert o. induction ls as [|a ls IH]; intros o; cbn.
  - rewrite elem_of_nil. tauto.
  - case_decide; [rewrite elem_of_nil; tauto|].
    rewrite elem_of_cons.
    assert (is_Some (<[a:=PrefillInsert a]> (_cached_pref o) !! l)
            ↔ is_Some (_cached_pref o !! l) ∨ l = a) as Hins.
    { destruct (decide (a = l)) as [<-|].
      - rewrite lookup_insert_eq. split; eauto.
      - rewrite lookup_insert_ne by done. split; [tauto|]. intros [?|?]; [done|congruence]. }
    case_decide; rewrite IH; [|rewrite compile_batch_variants_pref]; cbn;
      rewrite Hins; tauto.
Qed.

Lemma compile_variants_batch max_length ls o l n :
  is_Some (_cached_pref_batch (compile_variants max_length ls o) !! (l, n))
  ↔ is_Some (_cached_pref_batch o !! (l, n))
    ∨ (l ∈ compiled_lengths max_length ls ∧ l ≠ 64 ∧ l ≠ 1024
       ∧ max_length `div` l <= n < max_length `div` (l `div` 2)).
Proof.
  revert o. induction ls as [|a ls IH]; intros o; cbn.
  - rewrite elem_of_nil. tauto.
  - case_decide; [rewrite elem_of_nil; tauto|].
    rewrite elem_of_cons. case_decide; rewrite IH.
    + cbn. split; [tauto|]. intros [?|[[->|?] ?]]; [tauto|lia|tauto].
    + rewrite compile_batch_variants_batch. cbn. unfold range.
      rewrite elem_of_seqZ. split.
      * intros [[?|[-> ?]]|?]; [tauto| |tauto]. right. split; [tauto|]. lia.
      * intros [?|[[->|?] ?]]; [tauto| |tauto]. left. right. split; [done|lia].
Qed.

(** Every key of either cache after [warmup], exactly. *)
Lemma warmup_pref_keys max_length o l :
  is_Some (_cached_pref (warmup max_length o) !! l)
  ↔ is_Some (_cached_pref o !! l)
    ∨ (l ∈ interesting_buckets ∧ l <= max_length).
Proof.
  unfold warmup. rewrite compile_variants_pref, compiled_lengths_interesting. done.
Qed.

Lemma warmup_batch_keys max_length o l n :
  is_Some (_cached_pref_batch (warmup max_length o) !! (l, n))
  ↔ is_Some (_cached_pref_batch o !! (l, n))
    ∨ (l ∈ interesting_buckets ∧ l <= max_length ∧ l ≠ 64 ∧ l ≠ 1024
       ∧ max_length `div` l <= n < max_length `div` (l `div` 2)).
Proof.
  unfold warmup. rewrite compile_variants_batch, compiled_lengths_interesting.
  cbn. tauto.
Qed.
End warmup_facts.

(** C3, as stated, fails: after [warmup(1024, ...)] on a fresh object the
    batched cache is not the set of feasible pairs with
    [length * request-count <= 1024].  The key (128, 9) is built although
    128 * 9 = 1152 exceeds 1024 (and (256, 2), feasible, is not built). *)
Lemma C3_counterexample :
  ¬ (∀ l n,
       is_Some (_cached_pref_batch (warmup 1024 (fresh_object true 2 1024 1024)) !! (l, n))
       ↔ spec_batch_variant 1024 l n).
Proof.
  intros Hall. destruct (Hall 128 9) as [Hbuilt _].
  assert (spec_batch_variant 1024 128 9) as (_ & _ & _ & _ & _ & Hle).
  { apply Hbuilt. vm_compute. eauto. }
  lia.
Qed.

(** C3 (amended): after [warmup(max_length, ...)] the single-request cache
    holds, besides what it held before, exactly the interesting lengths
    64, 128, ..., 4096 that do not exceed [max_length]; and for every length
    other than 1024 and [max_length], the batched cache gains exactly the keys
    [(length, n)] with [length] an interesting length up to [max_length],
    [length ≠ 64] and [max_length // length <= n < max_length // (length // 2)]
    (so no key for length 64); with [max_length = 1024] no key of length 1024
    is added either. *)
Theorem C3_warmup_variants `{Engine} (max_length : Z) (o : OfflineInference) :
  (∀ l, is_Some (_cached_pref (warmup max_length o) !! l)
        ↔ is_Some (_cached_pref o !! l)
          ∨ (l ∈ interesting_buckets ∧ l <= max_length))
  ∧ (∀ l n, l ≠ 1024 → l ≠ max_length →
        is_Some (_cached_pref_batch (warmup max_length o) !! (l, n))
        ↔ is_Some (_cached_pref_batch o !! (l, n))
          ∨ (l ∈ interesting_buckets ∧ l <= max_length ∧ l ≠ 64
             ∧ max_length `div` l <= n < max_length `div` (l `div` 2)))
  ∧ (max_length = 1024 → ∀ n,
        is_Some (_cached_pref_batch (warmup max_length o) !! (1024, n))
        ↔ is_Some (_cached_pref_batch o !! (1024, n))).
Proof.
  split; [intros l; apply warmup_pref_keys|]. split.
  - intros l n Hl _. rewrite warmup_batch_keys. tauto.
  - intros _ n. rewrite warmup_batch_keys. tauto.
Qed.

Lemma C3_warmup_variants_witness :
  is_Some (_cached_pref_batch (warmup 1024 (fresh_object true 2 1024 1024)) !! (128, 8))
  ∧ is_Some (_cached_pref_batch (warmup 1024 (fresh_object true 2 1024 1024)) !! (256, 7))
  ∧ ¬ is_Some (_cached_pref_batch (warmup 1024 (fresh_object true 2 1024 1024)) !! (1024, 1)).
Proof.
  pose proof (@C3_warmup_variants counting_engine 1024 (fresh_object true 2 1024 1024))
    as (_ & Hb & Hmax).
  split; [|split].
  - apply (Hb 128 8); [lia|lia|]. right.
    split; [unfold interesting_buckets; rewrite !elem_of_cons; auto 10|].
    vm_compute. intuition congruence.
  - apply (Hb 256 7); [lia|lia|]. right.
    split; [unfold interesting_buckets; rewrite !elem_of_cons; auto 10|].
    vm_compute. intuition congruence.
  - rewrite (Hmax eq_refl 1). cbn. rewrite lookup_empty. by intros [? ?].
Defined.

(** ** Dictionaries: lookup after update *)

Section dict_facts.
Context {K V : Type} `{EqDecision K}.
Implicit Types (d : dict K V) (k : K) (v : V).

Lemma dict_lookup_set_eq k v d : dict_lookup k (dict_set k v d) = Some v.
Proof.
  induction d as [|[k' v'] d IH]; cbn; [by rewrite decide_True|].
  destruct (decide (k = k')); cbn; [by rewrite decide_True|by rewrite decide_False].
Qed.

Lemma dict_lookup_set_ne k k' v d :
  k ≠ k' → dict_lookup k' (dict_set k v d) = dict_lookup k' d.
Proof.
  intros Hne. induction d as [|[k0 v0] d IH]; cbn.
  - by rewrite decide_False.
  - destruct (decide (k = k0)) as [->|]; cbn.
    + by rewrite !decide_False.
    + by rewrite IH.
Qed.

Lemma dict_lookup_app_None k d d' :
  dict_lookup k d = None → dict_lookup k (d ++ d') = dict_lookup k d'.
Proof.
  induction d as [|[k0 v0] d IH]; cbn; [done|]. by case_decide.
Qed.

Lemma dict_lookup_app_Some k v d d' :
  dict_lookup k d = Some v → dict_lookup k (d ++ d') = Some v.
Proof.
  induction d as [|[k0 v0] d IH]; cbn; [done|]. by case_decide.
Qed.

Lemma dict_lookup_None k d : dict_lookup k d = None ↔ k ∉ dict_keys d.
Proof.
  unfold dict_keys. induction d as [|[k0 v0] d IH]; cbn.
  - rewrite elem_of_nil. tauto.
  - rewrite not_elem_of_cons. case_decide; [|tauto]. split; [done|tauto].
Qed.

Lemma dict_set_fresh k v d : k ∉ dict_keys d → dict_set k v d = d ++ [(k, v)].
Proof.
  unfold dict_keys. induction d as [|[k0 v0] d IH]; cbn; [done|].
  rewrite not_elem_of_cons. intros [? ?]. rewrite decide_False by done.
  by rewrite IH.
Qed.

Lemma dict_set_same k v d : dict_lookup k d = Some v → dict_set k v d = d.
Proof.
  induction d as [|[k0 v0] d IH]; cbn; [done|].
  case_decide; [by intros [= ->]; subst|]. intros ?. by rewrite IH.
Qed.

Lemma dict_keys_set_present k v d :
  k ∈ dict_keys d → dict_keys (dict_set k v d) = dict_keys d.
Proof.
  unfold dict_keys. induction d as [|[k0 v0] d IH]; cbn.
  - by rewrite elem_of_nil.
  - rewrite elem_of_cons. case_decide; [by subst|].
    intros [?|?]; [done|]. cbn. by rewrite IH.
Qed.
End dict_facts.

Section defaultdict_facts.
Context {K V : Type} `{EqDecision K}.
Implicit Types (d : dict K (list V)) (k : K).

Lemma dd_get_touch k k' d : dd_get k' (dd_touch k d) = dd_get k' d.
Proof.
  unfold dd_get, dd_touch. destruct (dict_lookup k d) eqn:Hk; [done|].
  destruct (dict_lookup k' d) eqn:Hk'.
  - by erewrite dict_lookup_app_Some.
  - rewrite dict_lookup_app_None by done. cbn. by case_decide.
Qed.

Lemma dd_get_set_eq k l d : dd_get k (dict_set k l d) = l.
Proof. unfold dd_get. by rewrite dict_lookup_set_eq. Qed.

Lemma dd_get_set_ne k k' l d : k ≠ k' → dd_get k' (dict_set k l d) = dd_get k' d.
Proof. intros. unfold dd_get. by rewrite dict_lookup_set_ne. Qed.

Lemma dd_touch_present k d : is_Some (dict_lookup k d) → dd_touch k d = d.
Proof. intros [l Hl]. unfold dd_touch. by rewrite Hl. Qed.

Lemma dd_get_nonempty k d : dd_get k d ≠ [] → dict_lookup k d = Some (dd_get k d).
Proof. unfold dd_get. by destruct (dict_lookup k d). Qed.
End defaultdict_facts.

(** ** The end-of-sequence marker in [res] *)

Section callback_facts.
Variable eos_id : Z.

Lemma eos_only_last_nil : eos_only_last eos_id [].
Proof. intros pre x Hs. by destruct pre. Qed.

Lemma eos_only_last_snoc s token :
  eos_only_last eos_id s → s = [] ∨ last s ≠ Some eos_id →
  eos_only_last eos_id (s ++ [token]).
Proof.
  intros Hs Hlast pre x [-> ->]%app_inj_tail.
  destruct (decide (pre = [])) as [->|Hne]; [apply not_elem_of_nil|].
  destruct Hlast as [->|Hlast]; [done|].
  destruct (exists_last Hne) as (pre' & y & ->).
  rewrite last_snoc in Hlast. rewrite not_elem_of_app, not_elem_of_cons.
  split; [by eapply Hs|]. split; [congruence|apply not_elem_of_nil].
Qed.

Lemma eos_only_last_count s :
  eos_only_last eos_id s → (length (filter (λ t, t = eos_id) s) <= 1)%nat.
Proof.
  intros Hs. destruct (decide (s = [])) as [->|Hne]; [cbn; lia|].
  destruct (exists_last Hne) as (pre & y & ->).
  rewrite filter_app, length_app.
  assert (filter (λ t, t = eos_id) pre = []) as ->.
  { assert (eos_id ∉ pre) as Hpre by (by eapply Hs). clear Hs Hne.
    induction pre as [|t pre IH]; [done|].
    apply not_elem_of_cons in Hpre as [? ?].
    rewrite filter_cons_False by congruence. auto. }
  cbn. case_decide; cbn; lia.
Qed.

Lemma eos_only_last_final s :
  eos_only_last eos_id s → eos_id ∈ s → last s = Some eos_id.
Proof.
  intros Hs Hin. destruct (decide (s = [])) as [->|Hne]; [by apply elem_of_nil in Hin|].
  destruct (exists_last Hne) as (pre & y & ->).
  rewrite last_snoc. apply elem_of_app in Hin as [Hin|Hin].
  - by eapply Hs in Hin.
  - apply list_elem_of_singleton in Hin. by subst.
Qed.

Lemma callback_eos_only_last id_ token res :
  (∀ i, eos_only_last eos_id (dd_get i res)) →
  ∀ i, eos_only_last eos_id (dd_get i (callback eos_id id_ token res).2).
Proof.
  intros Hres i. unfold callback. cbn [snd]. case_decide as Hc.
  - destruct (decide (id_ = i)) as [<-|Hne].
    + rewrite dd_get_set_eq, dd_get_touch.
      rewrite dd_get_touch in Hc. by apply eos_only_last_snoc.
    + rewrite dd_get_set_ne, dd_get_touch by done. apply Hres.
  - rewrite dd_get_touch. apply Hres.
Qed.

Lemma run_callbacks_eos_only_last emissions i :
  eos_only_last eos_id (dd_get i (run_callbacks eos_id emissions [])).
Proof.
  revert i. unfold run_callbacks.
  induction emissions as [|[id_ token] emissions IH] using rev_ind; intros i.
  - apply eos_only_last_nil.
  - rewrite foldl_snoc. by apply callback_eos_only_last.
Qed.

Lemma callback_after_eos id_ token res :
  last (dd_get id_ res) = Some eos_id →
  callback eos_id id_ token res = (bool_decide (token = eos_id), res).
Proof.
  intros Hlast. unfold callback. f_equal.
  assert (dd_get id_ res ≠ []) as Hne by (intros Heq; by rewrite Heq in Hlast).
  rewrite dd_touch_present by (rewrite (dd_get_nonempty _ _ Hne); eauto).
  rewrite decide_False; [done|]. intros [?|?]; done.
Qed.
End callback_facts.

(** C6: in the mapping [res] that [batch_inference] returns, whatever
    emissions the pipeline made, the sequence of every identity holds the
    end-of-sequence marker at most once and, if at all, as its last element;
    and once the marker is last, one more [callback] for that identity, with
    the marker or any other token, leaves [res] as it is. *)
Theorem C6_single_trailing_eos (eos_id : Z) (emissions : list (string * Z))
    (id_ : string) :
  let res := run_callbacks eos_id emissions [] in
  (length (filter (λ t, t = eos_id) (dd_get id_ res)) <= 1)%nat
  ∧ (eos_id ∈ dd_get id_ res → last (dd_get id_ res) = Some eos_id)
  ∧ (last (dd_get id_ res) = Some eos_id →
     ∀ token, (callback eos_id id_ token res).2 = res
              ∧ run_callbacks eos_id (emissions ++ [(id_, token)]) [] = res).
Proof.
  intros res. pose proof (run_callbacks_eos_only_last eos_id emissions id_) as Hinv.
  split; [by apply eos_only_last_count|]. split; [by apply eos_only_last_final|].
  intros Hlast token. unfold run_callbacks. rewrite foldl_snoc. cbn [fst snd].
  fold (run_callbacks eos_id emissions []). fold res.
  by rewrite (callback_after_eos eos_id id_ token res Hlast).
Qed.

Lemma C6_single_trailing_eos_witness :
  run_callbacks 2 [("a", 5); ("a", 2); ("a", 2); ("a", 9)] []
  = run_callbacks 2 [("a", 5); ("a", 2); ("a", 2)] []
  ∧ dd_get "a" (run_callbacks 2 [("a", 5); ("a", 2); ("a", 2)] []) = [5; 2].
Proof.
  split; [|reflexivity].
  apply (C6_single_trailing_eos 2 [("a", 5); ("a", 2); ("a", 2)] "a"). reflexivity.
Defined.

(** ** The producer's code, function by function *)

Section producer_facts.
Context `{Engine}.
Implicit Types (st : pstate) (o : OfflineInference) (b : list (nat * ref)).

Lemma run_bind {A B} (m : M A) (f : A → M B) st :
  (m ≫= f) st = match m st with
                | (Ok a, st') => f a st'
                | (Raise e, st') => (Raise e, st')
                end.
Proof. reflexivity. Qed.

Lemma run_fmap {A B} (f : A → B) (m : M A) st :
  (f <$> m) st = match m st with
                 | (Ok a, st') => (Ok (f a), st')
                 | (Raise e, st') => (Raise e, st')
                 end.
Proof. reflexivity. Qed.

Ltac mrun :=
  repeat first
    [ rewrite run_bind | rewrite run_fmap
    | progress cbn [get_self get_row get_heap put_self put_row backlog_put
                    log_call raise mret M_ret] ].

Lemma kept_refl st : kept st st.
Proof. split; [by destruct (self st)|done]. Qed.

Lemma kept_trans st1 st2 st3 : kept st1 st2 → kept st2 st3 → kept st1 st3.
Proof.
  intros [Ho1 Hh1] [Ho2 Hh2]. split; [|congruence].
  rewrite Ho2, Ho1. reflexivity.
Qed.

Lemma prefill_each_run fn b st :
  ∃ l st', prefill_each fn b st = (Ok l, st') ∧ targets l = b ∧ kept st st'
    ∧ outbox st' = outbox st
    ∧ calls st' = calls st ++ ((λ p, CallPrefill fn p.1 p.2) <$> b).
Proof.
  revert st. induction b as [|[slot row] b IH]; intros st.
  - exists [], st. cbn. rewrite app_nil_r. eauto using kept_refl.
  - unfold prefill_each. cbn [for_each]. mrun.
    match goal with |- context [run_prefill_insert ?a ?b ?c ?d ?e] =>
      destruct (run_prefill_insert a b c d e) as [first_token ds] eqn:Hrun end.
    mrun.
    match goal with |- context [for_each b ?body ?st1] =>
      destruct (IH st1) as (l & st' & Hl & Ht & Hk & Ho & Hc) end.
    unfold prefill_each in Hl. rewrite Hl.
    exists ((first_token, slot, row) :: l), st'.
    split; [reflexivity|]. split; [unfold targets in *; cbn; by rewrite Ht|]. split.
    + eapply kept_trans; [|exact Hk]. split; reflexivity.
    + split; [done|]. rewrite Hc. cbn. by rewrite <-app_assoc.
Qed.

Lemma for_each_get_row b st :
  for_each b (λ '(slot, row), get_row row) st = (Ok ((λ p, heap st p.2) <$> b), st).
Proof.
  induction b as [|[slot row] b IH]; [done|].
  cbn [for_each]. mrun. by rewrite IH.
Qed.

Lemma np_full_run n v st :
  np_full n v st = (Raise (ValueError "negative dimensions are not allowed"), st) ∧ n < 0
  ∨ np_full n v st = (Ok (replicate (Z.to_nat n) v), st) ∧ 0 <= n.
Proof. unfold np_full. case_decide; [left|right]; (split; [done|lia]). Qed.

Lemma for_each_np_full (rows : list (nat * InputData)) (f : nat → Z) st :
  (∃ e, for_each rows (λ '(idx, x), np_full (true_length x) (f idx)) st = (Raise e, st))
  ∨ (∃ l, for_each rows (λ '(idx, x), np_full (true_length x) (f idx)) st = (Ok l, st)).
Proof.
  induction rows as [|[idx x] rows IH]; [right; by eexists|].
  cbn [for_each]. rewrite run_bind.
  destruct (np_full_run (true_length x) (f idx) st) as [[-> _]|[-> _]];
    [left; by eexists|].
  rewrite run_bind. destruct IH as [[e ->]|[l ->]]; [left|right]; by eexists.
Qed.

Lemma for_each_np_full_ok (rows : list (nat * InputData)) (f : nat → Z) st :
  Forall (λ p, 0 <= true_length p.2) rows →
  ∃ l, for_each rows (λ '(idx, x), np_full (true_length x) (f idx)) st = (Ok l, st).
Proof.
  induction 1 as [|[idx x] rows Hx _ IH]; [by eexists|].
  cbn [for_each]. rewrite run_bind.
  destruct (np_full_run (true_length x) (f idx) st) as [[_ ?]|[-> _]];
    [cbn in Hx; lia|].
  rewrite run_bind. destruct IH as [l ->]. by eexists.
Qed.

Lemma Forall_imap_snd {A} (P : A → Prop) (g : nat → nat) (l : list A) :
  Forall P l → Forall (λ p, P p.2) (imap (λ idx x, (g idx, x)) l).
Proof.
  intros Hl. revert g. induction Hl as [|x l Hx _ IH]; intros g; cbn;
    constructor; [done|]. apply (IH (g ∘ S)).
Qed.

Lemma targets_imap (f : nat → Z) b :
  targets (imap (λ idx p, (f idx, p.1, p.2)) b) = b.
Proof.
  unfold targets. revert f. induction b as [|[slot row] b IH]; intros f; [done|].
  rewrite imap_cons. cbn. f_equal. apply (IH (f ∘ S)).
Qed.

Lemma total_true_length_rows (h : store) b :
  foldl Z.add 0 (true_length <$> ((λ p, h p.2) <$> b)) = total_true_length h b.
Proof. unfold total_true_length. by rewrite <-list_fmap_compose. Qed.

(** The batched branch either raises before touching anything, or makes
    exactly one compiled call, with the variant cached under
    [(prefill_len, len(prefill_bucket))]. *)
Lemma prefill_concat_run b prefill_len st :
  (∃ e, prefill_concat b prefill_len st = (Raise e, st))
  ∨ (∃ fn l st',
       _cached_pref_batch (self st) !! (prefill_len, Z.of_nat (length b)) = Some fn
       ∧ prefill_concat b prefill_len st = (Ok l, st') ∧ targets l = b
       ∧ kept st st' ∧ outbox st' = outbox st
       ∧ calls st' = calls st ++ [CallPrefillBatch fn b]).
Proof.
  unfold prefill_concat. rewrite run_bind. cbn [get_self].
  rewrite run_bind, for_each_get_row, run_bind.
  match goal with |- context [for_each ?rows (λ '(idx, x), np_full _ (@?f idx)) st] =>
    destruct (for_each_np_full rows (λ idx, Z.of_nat idx * 2 + 1) st) as [[e He]|[l He]]
  end; rewrite He; [left; by eexists|].
  rewrite run_bind.
  match goal with |- context [np_full ?n 0 st] =>
    destruct (np_full_run n 0 st) as [[-> _]|[-> _]] end; [left; by eexists|].
  destruct (_cached_pref_batch (self st) !! _) as [fn|] eqn:Hfn; [|left; by eexists].
  right. destruct (run_prefill_insert_batch fn _ _ _ _ _ _ _) as [first_tokens ds].
  eexists fn, _, _. split; [done|]. split; [reflexivity|].
  split; [apply targets_imap|]. cbn. split; [|done]. split; reflexivity.
Qed.

Lemma prefill_concat_missing b prefill_len st :
  buildable st b →
  _cached_pref_batch (self st) !! (prefill_len, Z.of_nat (length b)) = None →
  prefill_concat b prefill_len st
  = (Raise (AssertionError "prefill batch not found"), st).
Proof.
  intros [Hnonneg Htotal] Hmiss.
  unfold prefill_concat. rewrite run_bind. cbn [get_self].
  rewrite run_bind, for_each_get_row, run_bind.
  match goal with |- context [for_each (imap _ ?rows) (λ '(idx, x), np_full _ (@?f idx)) st] =>
    destruct (for_each_np_full_ok (imap (λ idx x, ((λ idx : nat, idx) idx, x)) rows)
                (λ idx, Z.of_nat idx * 2 + 1) st) as [l He]
  end.
  { apply (Forall_imap_snd (λ x, 0 <= true_length x) (λ idx, idx)).
    by apply Forall_fmap. }
  rewrite He, run_bind, total_true_length_rows.
  match goal with |- context [np_full ?n 0 st] =>
    destruct (np_full_run n 0 st) as [[_ ?]|[-> _]] end; [lia|].
  by rewrite Hmiss.
Qed.

Lemma prefilled_singles fn b :
  prefilled ((λ p, CallPrefill fn p.1 p.2) <$> b) = b.
Proof.
  unfold prefilled. induction b as [|[slot row] b IH]; [done|].
  cbn. f_equal. exact IH.
Qed.

Lemma compiled_calls_prefilled o b prefill_len cs :
  compiled_calls o b prefill_len cs → prefilled cs = b.
Proof.
  unfold compiled_calls. destruct (prefills_singly _ _ _); intros (fn & _ & ->).
  - apply prefilled_singles.
  - cbn. apply app_nil_r.
Qed.

Lemma prefilled_app cs1 cs2 : prefilled (cs1 ++ cs2) = prefilled cs1 ++ prefilled cs2.
Proof. unfold prefilled. apply bind_app. Qed.

Lemma prefill_run b prefill_len st :
  dummy (self st) = false →
  (∃ e, prefill b prefill_len st = (Raise e, st))
  ∨ (∃ l cs st', prefill b prefill_len st = (Ok (RetList l), st')
       ∧ targets l = b ∧ kept st st' ∧ outbox st' = outbox st
       ∧ calls st' = calls st ++ cs
       ∧ compiled_calls (self st) b prefill_len cs).
Proof.
  intros Hdummy. unfold prefill, compiled_calls. mrun. rewrite Hdummy.
  fold (prefills_singly (self st) prefill_len (length b)).
  destruct (prefills_singly _ _ _).
  - destruct (_cached_pref (self st) !! prefill_len) as [fn|] eqn:Hfn;
      [|left; by eexists].
    right. mrun.
    destruct (prefill_each_run fn b st) as (l & st' & -> & Ht & Hk & Ho & Hc).
    eexists l, _, st'. eauto 10.
  - mrun. destruct (prefill_concat_run b prefill_len st)
      as [[e ->]|(fn & l & st' & Hfn & -> & Ht & Hk & Ho & Hc)];
      [left; by eexists|].
    right. eexists l, _, st'. eauto 10.
Qed.

Lemma for_each_put (l : list (Z * nat * ref)) st :
  for_each l (λ '(_first_token, _slot, _row),
    x ← get_row _row;
    backlog_put (FirstTokenEntry _first_token (id x) _slot)) st
  = (Ok (const () <$> l),
     mkPstate (self st) (heap st)
              (outbox st ++ (first_token_entry (heap st) <$> l)) (calls st)).
Proof.
  revert st. induction l as [|[[tok slot] row] l IH]; intros st.
  - cbn. rewrite app_nil_r. by destruct st.
  - cbn [for_each]. mrun. rewrite IH. cbn. by rewrite <-app_assoc.
Qed.

Lemma prefill_batch_run b padded_len st :
  (∃ e, prefill_batch b padded_len st = (Raise e, st))
  ∨ (∃ st', prefill_batch b padded_len st = (Ok (), st')
            ∧ flushes b padded_len st st').
Proof.
  unfold prefill_batch. mrun.
  destruct (dummy (self st)) eqn:Hdummy.
  { left. unfold prefill. mrun. rewrite Hdummy. by eexists. }
  destruct (prefill_run b padded_len st Hdummy)
    as [[e ->]|(l & cs & st' & -> & Ht & Hk & Ho & Hc & Hcs)]; [left; by eexists|].
  right. mrun. rewrite for_each_put. eexists. split; [reflexivity|].
  exists l, cs. cbn. destruct Hk as [Hk1 Hk2]. rewrite Ho, Hk2.
  repeat split; done.
Qed.

Lemma prefill_one_run slot row padded_len st :
  (∃ e, prefill_one slot row padded_len st = (Raise e, st))
  ∨ (∃ st', prefill_one slot row padded_len st = (Ok (), st')
            ∧ flushes [(slot, row)] padded_len st st').
Proof.
  unfold prefill_one. mrun.
  destruct (dummy (self st)) eqn:Hdummy.
  { left. unfold prefill. mrun. rewrite Hdummy. by eexists. }
  destruct (prefill_run [(slot, row)] padded_len st Hdummy)
    as [[e ->]|(l & cs & st' & -> & Ht & Hk & Ho & Hc & Hcs)]; [left; by eexists|].
  right. destruct l as [|[[tok slot'] row'] [|??]]; try done.
  injection Ht as -> ->. mrun. eexists. split; [reflexivity|].
  exists [(tok, slot, row)], cs. cbn. destruct Hk as [Hk1 Hk2]. rewrite Ho, Hk2.
  repeat split; done.
Qed.

Lemma prefill_missing_single b prefill_len st :
  dummy (self st) = false →
  prefills_singly (self st) prefill_len (length b) = true →
  _cached_pref (self st) !! prefill_len = None →
  prefill b prefill_len st = (Raise (AssertionError "prefill fn not found"), st).
Proof.
  intros Hdummy Hsingle Hmiss. unfold prefill. mrun. rewrite Hdummy.
  fold (prefills_singly (self st) prefill_len (length b)).
  by rewrite Hsingle, Hmiss.
Qed.

Lemma prefill_missing_batch b prefill_len st :
  dummy (self st) = false →
  prefills_singly (self st) prefill_len (length b) = false →
  buildable st b →
  _cached_pref_batch (self st) !! (prefill_len, Z.of_nat (length b)) = None →
  prefill b prefill_len st = (Raise (AssertionError "prefill batch not found"), st).
Proof.
  intros Hdummy Hsingle Hb Hmiss. unfold prefill. mrun. rewrite Hdummy.
  fold (prefills_singly (self st) prefill_len (length b)).
  rewrite Hsingle. mrun. by rewrite prefill_concat_missing.
Qed.

Lemma prefill_batch_raise b padded_len st e :
  prefill b padded_len st = (Raise e, st) →
  prefill_batch b padded_len st = (Raise e, st).
Proof. intros Hp. unfold prefill_batch. mrun. by rewrite Hp. Qed.

Lemma prefill_one_raise slot row padded_len st e :
  prefill [(slot, row)] padded_len st = (Raise e, st) →
  prefill_one slot row padded_len st = (Raise e, st).
Proof. intros Hp. unfold prefill_one. mrun. by rewrite Hp. Qed.
End producer_facts.

Ltac mrun :=
  repeat first
    [ rewrite run_bind | rewrite run_fmap
    | progress cbn [get_self get_row get_heap put_self put_row backlog_put
                    log_call raise mret M_ret] ].

(** C8: outside dummy mode, a prefill whose variant is missing raises an
    assertion error on the spot, both in [prefill] and at its call sites
    [prefill_batch] and the direct single-request prefill: when the
    single-request branch is taken and [_cached_pref] has no entry for the
    padded length, and when the batched branch is taken (its argument
    buffers being buildable) and [_cached_pref_batch] has no entry for
    [(length, num_prompts)].  The state is exactly what it was: no variant is
    added to either cache, no compiled function is run, the decode state is
    untouched and nothing is queued. *)
Theorem C8_missing_variant_raises `{Engine} (prefill_bucket : list (nat * ref))
    (prefill_len : Z) (st : pstate) :
  dummy (self st) = false →
  (prefills_singly (self st) prefill_len (length prefill_bucket) = true →
   _cached_pref (self st) !! prefill_len = None →
   prefill prefill_bucket prefill_len st
   = (Raise (AssertionError "prefill fn not found"), st)
   ∧ prefill_batch prefill_bucket prefill_len st
     = (Raise (AssertionError "prefill fn not found"), st)
   ∧ ∀ slot row, prefill_bucket = [(slot, row)] →
       prefill_one slot row prefill_len st
       = (Raise (AssertionError "prefill fn not found"), st))
  ∧ (prefills_singly (self st) prefill_len (length prefill_bucket) = false →
     buildable st prefill_bucket →
     _cached_pref_batch (self st) !! (prefill_len, Z.of_nat (length prefill_bucket)) = None →
     prefill prefill_bucket prefill_len st
     = (Raise (AssertionError "prefill batch not found"), st)
     ∧ prefill_batch prefill_bucket prefill_len st
       = (Raise (AssertionError "prefill batch not found"), st)).
Proof.
  intros Hdummy. split.
  - intros Hsingle Hmiss.
    pose proof (prefill_missing_single _ _ _ Hdummy Hsingle Hmiss) as Hp.
    split; [done|]. split; [by apply prefill_batch_raise|].
    intros slot row ->. by apply prefill_one_raise.
  - intros Hsingle Hb Hmiss.
    pose proof (prefill_missing_batch _ _ _ Hdummy Hsingle Hb Hmiss) as Hp.
    split; [done|]. by apply prefill_batch_raise.
Qed.

Lemma C8_missing_variant_raises_witness :
  (let st := fresh_pstate (fresh_object false 2 1024 1024) (λ _, request "a" 128 100) in
   @prefill counting_engine [(0%nat, 0%nat)] 128 st
   = (Raise (AssertionError "prefill fn not found"), st))
  ∧ (let st := fresh_pstate (warmup 2048 (fresh_object true 2 2048 1024))
                 (λ _, request "a" 1024 1000) in
     @prefill_batch counting_engine [(0%nat, 0%nat); (1%nat, 1%nat)] 1024 st
     = (Raise (AssertionError "prefill batch not found"), st)).
Proof.
  split.
  - intros st.
    apply (@C8_missing_variant_raises counting_engine [(0%nat, 0%nat)] 128 st);
      reflexivity.
  - intros st.
    apply (@C8_missing_variant_raises counting_engine
             [(0%nat, 0%nat); (1%nat, 1%nat)] 1024 st).
    + reflexivity.
    + reflexivity.
    + split; [repeat constructor; cbn; lia|vm_compute; congruence].
    + vm_compute. reflexivity.
Defined.

(** ** Buckets *)

Section bucket_facts.
Context `{Engine}.
Implicit Types (st : pstate) (b : list (nat * ref)).

Lemma read_bucket_run k st :
  read_bucket k st
  = (Ok (dd_get k (prefill_buckets (self st))),
     with_buckets (dd_touch k (prefill_buckets (self st))) st).
Proof. reflexivity. Qed.

Lemma write_bucket_run k v st :
  write_bucket k v st
  = (Ok (), with_buckets (dict_set k v (prefill_buckets (self st))) st).
Proof. reflexivity. Qed.

Lemma buckets_with_buckets d st : prefill_buckets (self (with_buckets d st)) = d.
Proof. reflexivity. Qed.

Lemma with_buckets_same st : with_buckets (prefill_buckets (self st)) st = st.
Proof. destruct st as [[] ? ? ?]. reflexivity. Qed.

Lemma with_buckets_touch_nonempty k st :
  dd_get k (prefill_buckets (self st)) ≠ [] →
  with_buckets (dd_touch k (prefill_buckets (self st))) st = st.
Proof.
  intros Hne. rewrite dd_touch_present; [apply with_buckets_same|].
  rewrite (dd_get_nonempty _ _ Hne). eauto.
Qed.

Lemma kept_buckets st st' :
  kept st st' → prefill_buckets (self st') = prefill_buckets (self st).
Proof. intros [-> _]. reflexivity. Qed.

Lemma kept_max st st' :
  kept st st' → max_prefill_length (self st') = max_prefill_length (self st).
Proof. intros [-> _]. reflexivity. Qed.

Lemma flushes_batched b padded_len st st' :
  flushes b padded_len st st' →
  prefills_singly (self st) padded_len (length b) = false →
  ∃ fn, _cached_pref_batch (self st) !! (padded_len, Z.of_nat (length b)) = Some fn
        ∧ calls st' = calls st ++ [CallPrefillBatch fn b].
Proof.
  intros (l & cs & _ & _ & _ & Hc & Hcs) Hs. unfold compiled_calls in Hcs.
  rewrite Hs in Hcs. destruct Hcs as (fn & Hfn & ->). eauto.
Qed.

Lemma flushes_singly b padded_len st st' :
  flushes b padded_len st st' →
  prefills_singly (self st) padded_len (length b) = true →
  ∃ fn, _cached_pref (self st) !! padded_len = Some fn
        ∧ calls st' = calls st ++ ((λ p, CallPrefill fn p.1 p.2) <$> b).
Proof.
  intros (l & cs & _ & _ & _ & Hc & Hcs) Hs. unfold compiled_calls in Hcs.
  rewrite Hs in Hcs. destruct Hcs as (fn & Hfn & ->). eauto.
Qed.

(** What [flush_if_full] does, by cases, whenever it returns. *)
Lemma flush_if_full_run padded_len st r st' :
  let bucket := dd_get padded_len (prefill_buckets (self st)) in
  let maximum := max_prefill_length (self st) in
  let total := total_true_length (heap st) bucket in
  let st0 := with_buckets (dd_touch padded_len (prefill_buckets (self st))) st in
  flush_if_full padded_len st = (r, st') →
  if decide (Z.of_nat (length bucket) * padded_len >= maximum)
  then
    if decide (maximum - padded_len `div` 2 < total ∧ total <= maximum)
    then (r = Ok () ∧ flushed_leaving bucket [] padded_len st0 st')
         ∨ ((∃ e, r = Raise e) ∧ st' = st0)
    else if decide (total > maximum)
    then match last bucket with
         | Some current =>
             (r = Ok ()
              ∧ flushed_leaving (removelast bucket) [current] padded_len st0 st')
             ∨ ((∃ e, r = Raise e) ∧ st' = st0)
         | None => (∃ e, r = Raise e) ∧ st' = st0
         end
    else r = Ok () ∧ st' = st0
  else r = Ok () ∧ st' = st0.
Proof.
  intros bucket maximum total st0. unfold flush_if_full.
  rewrite run_bind, read_bucket_run. fold bucket st0. mrun.
  replace (max_prefill_length (self st0)) with maximum by reflexivity.
  replace (heap st0) with (heap st) by reflexivity. fold total.
  destruct (decide (_ * _ >= _)); [|by intros [= <- <-]]. mrun.
  destruct (decide (_ ∧ _)).
  { mrun. destruct (prefill_batch_run bucket padded_len st0)
      as [[e ->]|(st1 & -> & Hf)].
    - intros [= <- <-]. right. eauto.
    - rewrite write_bucket_run. intros [= <- <-]. left. split; [done|].
      exists st1. split; [done|].
      destruct Hf as (_ & _ & _ & Hk & _). by rewrite (kept_buckets _ _ Hk). }
  destruct (decide (_ > _)); [|by intros [= <- <-]].
  destruct (last bucket) as [current|]; [|intros [= <- <-]; eauto].
  mrun. destruct (prefill_batch_run (removelast bucket) padded_len st0)
    as [[e ->]|(st1 & -> & Hf)].
  - intros [= <- <-]. right. eauto.
  - rewrite write_bucket_run. intros [= <- <-]. left. split; [done|].
    exists st1. split; [done|].
    destruct Hf as (_ & _ & _ & Hk & _). by rewrite (kept_buckets _ _ Hk).
Qed.
End bucket_facts.

(** The three outcomes of the check that follows an append (lines
    440-462), for a non-empty bucket that has reached the maximum. *)
Lemma full_bucket_outcomes `{Engine} (padded_len : Z) (st st' : pstate) :
  let bucket := dd_get padded_len (prefill_buckets (self st)) in
  let maximum := max_prefill_length (self st) in
  let total := total_true_length (heap st) bucket in
  0 <= padded_len →
  bucket ≠ [] →
  Z.of_nat (length bucket) * padded_len >= maximum →
  flush_if_full padded_len st = (Ok (), st') →
  (maximum - padded_len `div` 2 < total ∧ total <= maximum →
     flushed_leaving bucket [] padded_len st st'
     ∧ dd_get padded_len (prefill_buckets (self st')) = []
     ∧ (enable_batch_prefill (self st) = true → padded_len ≠ maximum →
        ∃ fn, calls st' = calls st ++ [CallPrefillBatch fn bucket]))
  ∧ (total > maximum →
       ∃ current, last bucket = Some current
         ∧ flushed_leaving (removelast bucket) [current] padded_len st st'
         ∧ dd_get padded_len (prefill_buckets (self st')) = [current])
  ∧ (total <= maximum - padded_len `div` 2 → st' = st).
Proof.
  cbv zeta. intros Hlen Hne Hfull Hrun.
  assert (0 <= padded_len `div` 2) by (by apply Z.div_pos).
  pose proof (flush_if_full_run padded_len st _ _ Hrun) as Hcases.
  cbv zeta in Hcases. rewrite (with_buckets_touch_nonempty _ _ Hne) in Hcases.
  rewrite decide_True in Hcases by done.
  split; [|split].
  - intros Hin. rewrite decide_True in Hcases by done.
    destruct Hcases as [[_ Hf]|[[e [=]] _]]. split; [done|].
    destruct Hf as (st1 & Hf & ->). split; [cbn; apply dd_get_set_eq|].
    intros Hen Hmax. cbn.
    destruct (flushes_batched _ _ _ _ Hf) as (fn & _ & Hc); [|by exists fn].
    unfold prefills_singly.
    rewrite Hen. cbn. rewrite !bool_decide_eq_false_2; [done|lia|done].
  - intros Hover. rewrite decide_False in Hcases by lia.
    rewrite decide_True in Hcases by done.
    destruct (last _) as [current|]; [|by destruct Hcases as [[e [=]] _]].
    destruct Hcases as [[_ Hf]|[[e [=]] _]]. exists current. split; [done|].
    split; [done|]. destruct Hf as (st1 & Hf & ->). cbn. apply dd_get_set_eq.
  - intros Hgap. rewrite decide_False in Hcases by lia.
    rewrite decide_False in Hcases by lia. by destruct Hcases.
Qed.

(** ** One row of the producer loop, stage by stage *)

Section serve_row_facts.
Context `{Engine}.
Implicit Types (st : pstate) (b : list (nat * ref)).

Lemma buckets_bucketed slot row padded_len st :
  prefill_buckets (self (bucketed slot row padded_len st))
  = dict_set (bucket_key padded_len)
      (dd_get (bucket_key padded_len) (prefill_buckets (self st)) ++ [(slot, row)])
      (dd_touch (bucket_key padded_len) (prefill_buckets (self st))).
Proof. reflexivity. Qed.

Lemma serve_row_unfold slot row st :
  let padded_len := padded_length (heap st row) in
  serve_row slot row st
  = if enable_batch_prefill (self st)
    then match flush_half (padded_len `div` 2) st with
         | (Ok _, st1) =>
             if decide (padded_len = max_prefill_length (self st))
             then prefill_one slot row padded_len st1
             else flush_if_full (bucket_key padded_len)
                    (bucketed slot row padded_len st1)
         | (Raise e, st1) => (Raise e, st1)
         end
    else prefill_one slot row padded_len st.
Proof.
  intros padded_len. unfold serve_row. mrun. fold padded_len.
  destruct (enable_batch_prefill (self st)); [|reflexivity]. cbn [negb].
  rewrite run_bind. unfold flush_half. rewrite !run_bind, !read_bucket_run.
  destruct (decide (length _ ≠ 0%nat)).
  - rewrite !run_bind.
    destruct (prefill_batch _ _ _) as [[[]|e] st1]; [|reflexivity].
    rewrite !write_bucket_run. destruct (decide (padded_len = _)); [reflexivity|].
    unfold bucket_key, bucketed. mrun.
    destruct (decide (padded_len = 64)); mrun; rewrite read_bucket_run; mrun;
      rewrite write_bucket_run; reflexivity.
  - mrun. destruct (decide (padded_len = _)); [reflexivity|].
    unfold bucket_key, bucketed. mrun.
    destruct (decide (padded_len = 64)); mrun; rewrite read_bucket_run; mrun;
      rewrite write_bucket_run; reflexivity.
Qed.

Lemma flush_half_run k st r st' :
  let half := dd_get k (prefill_buckets (self st)) in
  flush_half k st = (r, st') →
  (half = [] ∧ r = Ok () ∧ st' = touched k st)
  ∨ (half ≠ [] ∧ r = Ok () ∧ flushed_leaving half [] k (touched k st) st')
  ∨ (half ≠ [] ∧ (∃ e, r = Raise e) ∧ st' = touched k st).
Proof.
  intros half. unfold flush_half. rewrite run_bind, read_bucket_run.
  fold half (touched k st). destruct (decide (length half ≠ 0%nat)) as [Hne|Hnil].
  - assert (half ≠ []) by (by destruct half).
    rewrite run_bind.
    destruct (prefill_batch_run half k (touched k st)) as [[e ->]|(st1 & -> & Hf)].
    + intros [= <- <-]. right. right. eauto.
    + rewrite write_bucket_run. intros [= <- <-]. right. left.
      split; [done|]. split; [done|]. exists st1. split; [done|].
      destruct Hf as (_ & _ & _ & Hk & _). by rewrite (kept_buckets _ _ Hk).
  - intros [= <- <-]. left. destruct half; [done|]. cbn in Hnil. lia.
Qed.
End serve_row_facts.

Section immediate_prefill_facts.
Context `{Engine}.
Implicit Types (st : pstate).

Lemma flushes_one slot row padded_len st st' :
  flushes [(slot, row)] padded_len st st' →
  prefills_singly (self st) padded_len 1 = true →
  prefilled_alone slot row padded_len st st'.
Proof.
  intros Hf Hs. destruct (flushes_singly _ _ _ _ Hf Hs) as (fn & Hfn & Hc).
  destruct Hf as (l & cs & Ht & Hk & Ho & _ & _).
  destruct l as [|[[tok slot'] row'] [|??]]; try done. injection Ht as -> ->.
  exists fn, tok. split; [done|]. split; [done|]. split; [done|].
  split; [by apply kept_buckets|by destruct Hk].
Qed.

Lemma prefill_one_ok slot row padded_len st st' :
  prefill_one slot row padded_len st = (Ok (), st') →
  flushes [(slot, row)] padded_len st st'.
Proof.
  intros Hrun. destruct (prefill_one_run slot row padded_len st)
    as [[e He]|(st1 & Hst1 & Hf)]; [congruence|].
  rewrite Hrun in Hst1. by injection Hst1 as ->.
Qed.

Lemma prefill_batch_ok b padded_len st st' :
  prefill_batch b padded_len st = (Ok (), st') → flushes b padded_len st st'.
Proof.
  intros Hrun. destruct (prefill_batch_run b padded_len st)
    as [[e He]|(st1 & Hst1 & Hf)]; [congruence|].
  rewrite Hrun in Hst1. by injection Hst1 as ->.
Qed.

Lemma flush_half_config k st r st' :
  flush_half k st = (r, st') →
  _cached_pref (self st') = _cached_pref (self st)
  ∧ max_prefill_length (self st') = max_prefill_length (self st)
  ∧ enable_batch_prefill (self st') = enable_batch_prefill (self st)
  ∧ heap st' = heap st.
Proof.
  intros Hrun. destruct (flush_half_run k st r st' Hrun)
    as [(_ & _ & ->)|[(_ & _ & st1 & Hf & ->)|(_ & _ & ->)]]; try done.
  destruct Hf as (l & cs & _ & [Hs Hh] & _). cbn. rewrite Hs, Hh. done.
Qed.
End immediate_prefill_facts.

(** C4, as stated, fails: with batching enabled and maximum 1024, a
    request of padded length 256 arriving at an empty 256 bucket has
    [L * bucket-size] below the maximum (0 before the append, 256 after it),
    yet it is not prefilled: no compiled call is made, nothing is queued,
    and the request waits in the bucket. *)
Lemma C4_counterexample :
  let st := fresh_pstate (warmup 1024 (fresh_object true 8 1024 1024))
              (λ _, request "r" 256 250) in
  let padded_len := padded_length (heap st 0%nat) in
  let bucket := dd_get padded_len (prefill_buckets (self st)) in
  padded_len * Z.of_nat (length bucket) < max_prefill_length (self st)
  ∧ padded_len * Z.of_nat (length (bucket ++ [(0%nat, 0%nat)])) < max_prefill_length (self st)
  ∧ (@serve_row counting_engine 0%nat 0%nat st).1 = Ok ()
  ∧ calls (@serve_row counting_engine 0%nat 0%nat st).2 = []
  ∧ outbox (@serve_row counting_engine 0%nat 0%nat st).2 = []
  ∧ dd_get 256 (prefill_buckets (self (@serve_row counting_engine 0%nat 0%nat st).2))
    = [(0%nat, 0%nat)].
Proof. vm_compute. repeat split; reflexivity. Qed.

(** C4 (amended): when [serve_row] returns for a request of padded
    length L, (1) if batched prefill is disabled the request was prefilled
    on its own with the length-L single-request variant, its first-token
    entry queued, and no bucket touched; (2) if batching is enabled and L is
    the maximum prefill length, the same happened right after the flush of
    the L // 2 bucket, and the request entered no bucket; (3) if batching
    is enabled and L is below the maximum, the request was appended to the
    bucket of its (possibly reclassified) length, whatever L times the
    bucket size is, and only the full-bucket check followed; (4) the test
    [L * len(bucket) < maximum] belongs to the prefill of a flushed bucket,
    where it makes every member go through the single-request variant. *)
Theorem C4_immediate_prefill `{Engine} (slot : nat) (row : ref) (st st' : pstate) :
  let padded_len := padded_length (heap st row) in
  let maximum := max_prefill_length (self st) in
  serve_row slot row st = (Ok (), st') →
  (enable_batch_prefill (self st) = false →
     prefilled_alone slot row padded_len st st')
  ∧ (enable_batch_prefill (self st) = true → padded_len = maximum →
     ∃ st1, flush_half (padded_len `div` 2) st = (Ok (), st1)
            ∧ prefilled_alone slot row padded_len st1 st'
            ∧ ∀ k, (slot, row) ∈ dd_get k (prefill_buckets (self st')) →
                   (slot, row) ∈ dd_get k (prefill_buckets (self st)))
  ∧ (enable_batch_prefill (self st) = true → padded_len ≠ maximum →
     ∃ st1, flush_half (padded_len `div` 2) st = (Ok (), st1)
            ∧ (slot, row) ∈ dd_get (bucket_key padded_len)
                (prefill_buckets (self (bucketed slot row padded_len st1)))
            ∧ flush_if_full (bucket_key padded_len)
                (bucketed slot row padded_len st1) = (Ok (), st'))
  ∧ (∀ b k stA stB,
       prefill_batch b k stA = (Ok (), stB) →
       k * Z.of_nat (length b) < max_prefill_length (self stA) →
       ∃ fn, _cached_pref (self stA) !! k = Some fn
             ∧ calls stB = calls stA ++ ((λ p, CallPrefill fn p.1 p.2) <$> b)).
Proof.
  cbv zeta. intros Hrun. rewrite serve_row_unfold in Hrun. cbv zeta in Hrun.
  split; [|split; [|split]].
  - intros Hen. rewrite Hen in Hrun. apply flushes_one.
    + by apply prefill_one_ok.
    + unfold prefills_singly. by rewrite Hen.
  - intros Hen Hmax. rewrite Hen in Hrun.
    destruct (flush_half _ st) as [[[]|e] st1] eqn:Hhalf; [|done].
    rewrite decide_True in Hrun by done. exists st1. split; [done|].
    destruct (flush_half_config _ _ _ _ Hhalf) as (Hc & Hm & He & Hh).
    assert (prefilled_alone slot row (padded_length (heap st row)) st1 st') as Hone.
    { apply flushes_one; [by apply prefill_one_ok|].
      unfold prefills_singly. rewrite Hm, Hmax, bool_decide_eq_true_2 by done.
      by rewrite orb_true_r. }
    split; [done|]. intros k. destruct Hone as (fn & tok & _ & _ & _ & -> & _).
    destruct (flush_half_run _ _ _ _ Hhalf)
      as [(_ & _ & ->)|[(_ & _ & st2 & Hf & ->)|(_ & [e' [=]] & _)]].
    + unfold touched. rewrite buckets_with_buckets. by rewrite dd_get_touch.
    + unfold touched. rewrite !buckets_with_buckets.
      destruct (decide (padded_length (heap st row) `div` 2 = k)) as [<-|Hne].
      * rewrite dd_get_set_eq. by intros ?%elem_of_nil.
      * rewrite dd_get_set_ne, dd_get_touch by done. done.
  - intros Hen Hmax. rewrite Hen in Hrun.
    destruct (flush_half _ st) as [[[]|e] st1] eqn:Hhalf; [|done].
    destruct (flush_half_config _ _ _ _ Hhalf) as (Hc & Hm & He & Hh).
    rewrite decide_False in Hrun by done. exists st1. split; [done|].
    split; [|done]. rewrite buckets_bucketed, dd_get_set_eq. apply elem_of_app. right. apply list_elem_of_singleton. done.
  - intros b k stA stB Hb Hlt.
    apply (flushes_singly b k stA stB); [by apply prefill_batch_ok|].
    unfold prefills_singly. rewrite (bool_decide_eq_true_2 (_ < _)) by done.
    by rewrite orb_true_r.
Qed.

Lemma C4_immediate_prefill_witness :
  let st := fresh_pstate (warmup 1024 (fresh_object false 8 1024 1024))
              (λ _, request "r" 256 250) in
  prefilled_alone 0%nat 0%nat 256 st (@serve_row counting_engine 0%nat 0%nat st).2.
Proof.
  intros st.
  apply (@C4_immediate_prefill counting_engine 0%nat 0%nat st
           (@serve_row counting_engine 0%nat 0%nat st).2).
  - vm_compute. reflexivity.
  - reflexivity.
Defined.

(** ** Accounting: where every acquired (slot, request) pair is *)

Lemma NoDup_submseteq_inv {A} (l k : list A) : l ⊆+ k → NoDup k → NoDup l.
Proof.
  intros [k' Hk]%submseteq_Permutation Hnd. rewrite Hk in Hnd.
  by apply NoDup_app in Hnd as [? _].
Qed.

Lemma last_removelast {A} (l : list A) x : last l = Some x → l = removelast l ++ [x].
Proof. intros [l' ->]%last_Some. by rewrite removelast_last. Qed.

Section dict_more.
Context {K V : Type} `{EqDecision K}.
Implicit Types (d : dict K (list V)) (k : K).

Lemma pending_of_touch k d : pending_of (dd_touch k d) = pending_of d.
Proof.
  unfold pending_of, dd_touch, dict_values. destruct (dict_lookup k d); [done|].
  rewrite fmap_app, concat_app. cbn. by rewrite app_nil_r.
Qed.

Lemma pending_of_set k v d :
  pending_of (dict_set k v d) ++ dd_get k d ≡ₚ v ++ pending_of d.
Proof.
  unfold pending_of, dict_values, dd_get.
  induction d as [|[k' v'] d IH]; cbn.
  - by rewrite !app_nil_r.
  - destruct (decide (k = k')) as [->|]; cbn.
    + rewrite <-!app_assoc. f_equiv. apply Permutation_app_comm.
    + rewrite <-app_assoc, IH. by rewrite !app_assoc, (Permutation_app_comm v' v).
Qed.

Lemma dict_keys_touch k d :
  NoDup (dict_keys d) → NoDup (dict_keys (dd_touch k d)).
Proof.
  unfold dd_touch. destruct (dict_lookup k d) eqn:Hk; [done|].
  apply dict_lookup_None in Hk. unfold dict_keys in *. rewrite fmap_app. cbn.
  intros Hnd. apply NoDup_app. split; [done|]. split; [|apply NoDup_singleton].
  intros x Hx ->%list_elem_of_singleton. done.
Qed.

Lemma dict_keys_set {W} k (v : W) (d : dict K W) :
  NoDup (dict_keys d) → NoDup (dict_keys (dict_set k v d)).
Proof.
  intros Hnd. destruct (decide (k ∈ dict_keys d)) as [Hin|Hout].
  - by rewrite dict_keys_set_present.
  - rewrite dict_set_fresh by done. unfold dict_keys in *. rewrite fmap_app. cbn.
    apply NoDup_app. split; [done|]. split; [|apply NoDup_singleton].
    intros x Hx ->%list_elem_of_singleton. done.
Qed.

(** With no key twice, reading every key once yields every value once. *)
Lemma pending_of_keys d :
  NoDup (dict_keys d) → concat ((λ k, dd_get k d) <$> dict_keys d) = pending_of d.
Proof.
  unfold pending_of, dict_values, dict_keys, dd_get.
  induction d as [|[k v] d IH]; [done|]. cbn.
  intros [Hk Hnd]%NoDup_cons. rewrite decide_True by done. cbn. f_equal.
  rewrite <-IH by done. f_equal. apply list_fmap_ext. intros i k' Hk'.
  rewrite decide_False; [done|]. intros ->. apply Hk.
  by eapply list_elem_of_lookup_2.
Qed.
End dict_more.

Section accounting.
Context `{Engine}.
Implicit Types (st : pstate) (b : list (nat * ref)).

Lemma evolved_refl x : evolved x x.
Proof. unfold evolved. tauto. Qed.

Lemma evolved_trans x y z : evolved x y → evolved y z → evolved x z.
Proof.
  intros (Hi1 & Ht1 & Hk1) (Hi2 & Ht2 & Hk2).
  split; [congruence|]. split; [congruence|].
  destruct Hk2 as [Hk2|[Hlen Hk2]].
  - rewrite Hk2. done.
  - destruct Hk1 as [Hk1|[Hlen1 Hk1]].
    + right. unfold padded_length in *. rewrite Hk1 in Hlen, Hk2. done.
    + exfalso. unfold padded_length in *. rewrite Hk1, length_app, length_replicate in Hlen.
      lia.
Qed.

Lemma first_token_entry_evolved (h h' : store) (l : list (Z * nat * ref)) :
  (∀ r, evolved (h r) (h' r)) →
  first_token_entry h' <$> l = first_token_entry h <$> l.
Proof.
  intros Hev. apply list_fmap_ext. intros _ [[tok slot] row] _.
  unfold first_token_entry. cbn. by destruct (Hev row) as (-> & _).
Qed.

Lemma accounted_refl st : accounted [] true st st.
Proof.
  split; [done|]. split; [intros; apply evolved_refl|]. split; [done|].
  exists [], []. rewrite !app_nil_r. cbn. repeat split; try done.
  apply submseteq_nil_l.
Qed.

Lemma accounted_raise extra st : accounted extra false st st.
Proof.
  split; [done|]. split; [intros; apply evolved_refl|]. split; [done|].
  exists [], []. rewrite !app_nil_r. cbn. repeat split; try done.
  apply submseteq_nil_l.
Qed.

Lemma accounted_weaken extra exact st st' :
  accounted extra exact st st' → accounted extra false st st'.
Proof.
  intros (Hc & Hev & Hnd & cs & l & ? & ? & ? & ? & _).
  split; [done|]. split; [done|]. split; [done|]. exists cs, l. done.
Qed.

Lemma accounted_lost extra st st' :
  accounted [] false st st' → accounted extra false st st'.
Proof.
  intros (Hc & Hev & Hnd & cs & l & ? & ? & ? & Hsub & _).
  split; [done|]. split; [done|]. split; [done|]. exists cs, l.
  repeat split; try done. rewrite app_nil_r in Hsub. by apply submseteq_inserts_r.
Qed.

Lemma accounted_trans e1 e2 exact st1 st2 st3 :
  accounted e1 true st1 st2 → accounted e2 exact st2 st3 →
  accounted (e1 ++ e2) exact st1 st3.
Proof.
  intros (Hc1 & Hev1 & Hnd1 & cs1 & l1 & Hcs1 & Ht1 & Ho1 & Hsub1 & Hex1)
         (Hc2 & Hev2 & Hnd2 & cs2 & l2 & Hcs2 & Ht2 & Ho2 & Hsub2 & Hex2).
  specialize (Hex1 eq_refl).
  split; [congruence|]. split; [intros r; by eapply evolved_trans|].
  split; [auto|].
  exists (cs1 ++ cs2), (l1 ++ l2). rewrite Hcs2, Hcs1, Ho2, Ho1.
  rewrite (first_token_entry_evolved _ _ l2 Hev1), fmap_app, !app_assoc.
  split; [done|]. split; [unfold targets in *; by rewrite fmap_app, prefilled_app, Ht1, Ht2|].
  split; [done|]. rewrite prefilled_app.
  assert (prefilled cs1 ++ prefilled cs2 ⊆+ (pending st1 ++ e1) ++ e2) as Hsub.
  { rewrite <-Hex1, (Permutation_app_comm (pending st2)), <-app_assoc.
    by apply submseteq_skips_l. }
  split; [done|]. intros Hexact. specialize (Hex2 Hexact).
  rewrite (Permutation_app_comm (prefilled cs1)), app_assoc, Hex2.
  rewrite <-Hex1. rewrite <-!app_assoc. f_equiv. apply Permutation_app_comm.
Qed.

Lemma accounted_touch k st : accounted [] true st (touched k st).
Proof.
  split; [done|]. split; [intros; apply evolved_refl|].
  split; [apply dict_keys_touch|].
  exists [], []. split; [symmetry; apply app_nil_r|]. split; [done|].
  split; [symmetry; apply app_nil_r|]. split; [apply submseteq_nil_l|].
  intros _. unfold pending, touched. rewrite buckets_with_buckets.
  by rewrite pending_of_touch.
Qed.

Lemma compiled_calls_targets l cs b o k :
  targets l = b → compiled_calls o b k cs → targets l = prefilled cs.
Proof. intros <- Hc. by rewrite (compiled_calls_prefilled _ _ _ _ Hc). Qed.

Lemma kept_config st st' : kept st st' → config (self st') = config (self st).
Proof. intros [-> _]. reflexivity. Qed.

Lemma accounted_flushes b k st st' : flushes b k st st' → accounted b true st st'.
Proof.
  intros (l & cs & Ht & Hk & Ho & Hc & Hcs).
  pose proof (compiled_calls_prefilled _ _ _ _ Hcs) as Hp.
  split; [by apply kept_config|].
  split; [intros r; destruct Hk as [_ ->]; apply evolved_refl|].
  split; [by rewrite (kept_buckets _ _ Hk)|].
  exists cs, l. rewrite Hp. split; [done|]. split; [done|]. split; [done|].
  split; [apply submseteq_inserts_l; done|]. intros _.
  unfold pending. by rewrite (kept_buckets _ _ Hk).
Qed.

Lemma accounted_flushed_leaving flushed keep k st st' :
  dd_get k (prefill_buckets (self st)) ≡ₚ flushed ++ keep →
  flushed_leaving flushed keep k st st' → accounted [] true st st'.
Proof.
  intros Hold (st1 & (l & cs & Ht & Hk & Ho & Hc & Hcs) & ->).
  pose proof (compiled_calls_prefilled _ _ _ _ Hcs) as Hp.
  pose proof (pending_of_set k keep (prefill_buckets (self st))) as Hset.
  rewrite Hold in Hset.
  assert (pending_of (dict_set k keep (prefill_buckets (self st))) ++ flushed
          ≡ₚ pending st) as Hperm.
  { apply (Permutation_app_inv_r keep). rewrite <-app_assoc, Hset.
    apply Permutation_app_comm. }
  split; [cbn; by apply kept_config|].
  split; [intros r; cbn; destruct Hk as [_ ->]; apply evolved_refl|].
  split; [intros ?; by apply dict_keys_set|].
  exists cs, l. rewrite Hp, app_nil_r. cbn. split; [done|]. split; [done|].
  split; [done|]. split.
  - rewrite <-Hperm. apply submseteq_inserts_l. done.
  - intros _. done.
Qed.

Lemma accounted_bucketed slot row padded_len st :
  padded_len = padded_length (heap st row) →
  accounted [(slot, row)] true st (bucketed slot row padded_len st).
Proof.
  intros Hpadded. split; [done|]. split.
  { intros r. unfold bucketed. cbn. case_decide as Hlen; [|apply evolved_refl].
    unfold store_set. case_decide as Hr; [|apply evolved_refl]. subst r.
    split; [done|]. split; [done|]. right. split; [congruence|done]. }
  split; [intros ?; rewrite buckets_bucketed; by apply dict_keys_set, dict_keys_touch|].
  exists [], []. rewrite !app_nil_r. cbn [prefilled fmap list_fmap mbind list_bind targets].
  repeat split; try done; [apply submseteq_nil_l|]. intros _.
  unfold pending. rewrite buckets_bucketed.
  pose proof (pending_of_set (bucket_key padded_len)
    (dd_get (bucket_key padded_len) (prefill_buckets (self st)) ++ [(slot, row)])
    (dd_touch (bucket_key padded_len) (prefill_buckets (self st)))) as Hset.
  rewrite dd_get_touch, pending_of_touch in Hset.
  apply (Permutation_app_inv_r (dd_get (bucket_key padded_len) (prefill_buckets (self st)))).
  rewrite Hset. solve_Permutation.
Qed.
End accounting.

Section accounting_of_code.
Context `{Engine}.
Implicit Types (st : pstate) (b : list (nat * ref)).

Lemma prefill_one_accounted slot row padded_len st r st' :
  prefill_one slot row padded_len st = (r, st') →
  accounted [(slot, row)] (is_ok r) st st'.
Proof.
  intros Hrun. destruct (prefill_one_run slot row padded_len st)
    as [[e He]|(st1 & Hst1 & Hf)]; rewrite Hrun in *.
  - injection He as -> ->. apply accounted_raise.
  - injection Hst1 as -> ->. by eapply accounted_flushes.
Qed.

Lemma flush_half_accounted k st r st' :
  flush_half k st = (r, st') → accounted [] (is_ok r) st st'.
Proof.
  intros Hrun. destruct (flush_half_run k st r st' Hrun)
    as [(_ & -> & ->)|[(_ & -> & Hf)|(_ & [e ->] & ->)]].
  - apply accounted_touch.
  - apply (accounted_trans [] [] true st (touched k st) st');
      [apply accounted_touch|].
    eapply accounted_flushed_leaving; [|exact Hf].
    unfold touched. rewrite buckets_with_buckets, dd_get_touch, app_nil_r. done.
  - eapply accounted_weaken, accounted_touch.
Qed.

Lemma flush_if_full_accounted k st r st' :
  flush_if_full k st = (r, st') → accounted [] (is_ok r) st st'.
Proof.
  intros Hrun. pose proof (flush_if_full_run k st r st' Hrun) as Hcases.
  cbv zeta in Hcases. fold (touched k st) in Hcases.
  assert (∀ flushed keep,
    dd_get k (prefill_buckets (self st)) ≡ₚ flushed ++ keep →
    flushed_leaving flushed keep k (touched k st) st' →
    accounted [] true st st') as Hleave.
  { intros flushed keep Hperm Hf.
    apply (accounted_trans [] [] true st (touched k st) st');
      [apply accounted_touch|].
    eapply accounted_flushed_leaving; [|exact Hf].
    unfold touched. by rewrite buckets_with_buckets, dd_get_touch. }
  assert (∀ e : exn, accounted [] false st (touched k st)) as Hraise.
  { intros _. eapply accounted_weaken, accounted_touch. }
  destruct (decide (_ >= _)); [|destruct Hcases as [-> ->]; apply accounted_touch].
  destruct (decide (_ ∧ _)).
  { destruct Hcases as [[-> Hf]|[[e ->] ->]]; [|by apply Hraise].
    eapply Hleave; [|exact Hf]. by rewrite app_nil_r. }
  destruct (decide (_ > _)); [|destruct Hcases as [-> ->]; apply accounted_touch].
  destruct (last _) as [current|] eqn:Hlast.
  - destruct Hcases as [[-> Hf]|[[e ->] ->]]; [|by apply Hraise].
    eapply Hleave; [|exact Hf]. by rewrite <-(last_removelast _ _ Hlast).
  - destruct Hcases as [[e ->] ->]. by apply Hraise.
Qed.

Lemma serve_row_accounted slot row st r st' :
  serve_row slot row st = (r, st') →
  accounted [(slot, row)] (is_ok r) st st'.
Proof.
  rewrite serve_row_unfold. cbv zeta.
  destruct (enable_batch_prefill (self st)); [|apply prefill_one_accounted].
  destruct (flush_half _ st) as [[[]|e] st1] eqn:Hhalf.
  - pose proof (flush_half_accounted _ _ _ _ Hhalf) as Hacc1. cbn in Hacc1.
    destruct (flush_half_config _ _ _ _ Hhalf) as (_ & _ & _ & Hheap).
    case_decide.
    + intros Hone%prefill_one_accounted.
      apply (accounted_trans [] [(slot, row)] _ st st1 st'); done.
    + intros Hfull%flush_if_full_accounted.
      apply (accounted_trans [] [(slot, row)] _ st st1 st'); [done|].
      rewrite <-(app_nil_r [(slot, row)]).
      eapply accounted_trans; [|exact Hfull].
      apply accounted_bucketed. by rewrite Hheap.
  - intros [= <- <-]. apply accounted_lost, (flush_half_accounted _ _ _ _ Hhalf).
Qed.

Lemma flush_keys_run ks st r st' :
  for_each ks flush_key st = (r, st') →
  ∃ ks' cs l,
    ks' `prefix_of` ks ∧ (is_ok r = true → ks' = ks)
    ∧ config (self st') = config (self st) ∧ heap st' = heap st
    ∧ (∀ k, dd_get k (prefill_buckets (self st')) = dd_get k (prefill_buckets (self st)))
    ∧ pending st' = pending st
    ∧ (NoDup (dict_keys (prefill_buckets (self st)))
       → NoDup (dict_keys (prefill_buckets (self st'))))
    ∧ calls st' = calls st ++ cs ∧ targets l = prefilled cs
    ∧ outbox st' = outbox st ++ (first_token_entry (heap st) <$> l)
    ∧ prefilled cs = concat ((λ k, dd_get k (prefill_buckets (self st))) <$> ks').
Proof.
  revert st r st'. induction ks as [|k ks IH]; intros st r st'.
  - intros [= <- <-]. exists [], [], []. rewrite !app_nil_r. done.
  - cbn [for_each]. rewrite run_bind. unfold flush_key at 1.
    rewrite run_bind, read_bucket_run. fold (touched k st).
    destruct (prefill_batch_run (dd_get k (prefill_buckets (self st))) k (touched k st))
      as [[e ->]|(st1 & -> & Hf)].
    + intros [= <- <-]. exists [], [], []. rewrite !app_nil_r.
      split; [apply prefix_nil|]. split; [done|]. split; [done|]. split; [done|].
      split; [intros k'; unfold touched; by rewrite buckets_with_buckets, dd_get_touch|].
      split; [unfold pending, touched; by rewrite buckets_with_buckets, pending_of_touch|].
      split; [apply dict_keys_touch|]. done.
    + rewrite run_bind.
      destruct (for_each ks flush_key st1) as [[ys|e] st2] eqn:Hrest; intros [= <- <-];
        destruct (IH _ _ _ Hrest)
          as (ks' & cs2 & l2 & Hpre & Hall & Hc & Hh & Hget & Hpend & Hnd & Hcs & Ht & Ho & Hp);
        destruct Hf as (l1 & cs1 & Ht1 & Hk & Ho1 & Hcs1 & Hcc);
        pose proof (compiled_calls_prefilled _ _ _ _ Hcc) as Hp1;
        pose proof (kept_buckets _ _ Hk) as Hb; destruct (Hk) as [_ Hh1];
        unfold touched in Hb, Hh1; rewrite buckets_with_buckets in Hb; cbn in Hh1;
        exists (k :: ks'), (cs1 ++ cs2), (l1 ++ l2);
        (split; [by apply prefix_cons|]);
        (split; [intros Hok; f_equal; by apply Hall|]);
        (split; [rewrite Hc; exact (kept_config _ _ Hk)|]);
        (split; [congruence|]);
        (split; [intros k'; by rewrite Hget, Hb, dd_get_touch|]);
        (split; [rewrite Hpend; unfold pending; by rewrite Hb, pending_of_touch|]);
        (split; [intros ?; apply Hnd; rewrite Hb; by apply dict_keys_touch|]);
        (split; [rewrite Hcs, Hcs1; cbn; by rewrite app_assoc|]);
        (split; [unfold targets in *; by rewrite fmap_app, prefilled_app, Ht, Ht1, Hp1|]);
        (split; [rewrite Ho, Ho1, Hh1, fmap_app, app_assoc; reflexivity|]);
        rewrite prefilled_app, Hp1, Hp; cbn; f_equal; f_equal;
        apply list_fmap_ext; intros ? k' _; by rewrite Hb, dd_get_touch.
Qed.

Lemma concat_prefix_submseteq {A B} (f : A → list B) (ks' ks : list A) :
  ks' `prefix_of` ks → concat (f <$> ks') ⊆+ concat (f <$> ks).
Proof.
  intros [rest ->]. rewrite fmap_app, concat_app. by apply submseteq_inserts_r.
Qed.

Lemma flush_leftovers_accounted st r st' :
  NoDup (dict_keys (prefill_buckets (self st))) →
  flush_leftovers st = (r, st') →
  accounted [] (is_ok r) st st'
  ∧ (is_ok r = true → prefill_buckets (self st') = []).
Proof.
  intros Hnd. unfold flush_leftovers. rewrite run_bind. cbn [get_self].
  rewrite run_bind. fold flush_key.
  change (for_each (dict_keys (prefill_buckets (self st))) _ st)
    with (for_each (dict_keys (prefill_buckets (self st))) flush_key st).
  destruct (for_each _ flush_key st) as [[ys|e] st1] eqn:Hloop;
    destruct (flush_keys_run _ _ _ _ Hloop)
      as (ks' & cs & l & Hpre & Hall & Hc & Hh & Hget & Hpend & Hnd' & Hcs & Ht & Ho & Hp).
  - mrun. intros [= <- <-]. split; [|done]. specialize (Hall eq_refl). subst ks'.
    rewrite (pending_of_keys _ Hnd) in Hp.
    split; [exact Hc|]. split; [intros r; cbn; rewrite Hh; apply evolved_refl|].
    split; [intros _; constructor|]. exists cs, l. cbn.
    split; [done|]. split; [done|]. split; [done|]. rewrite Hp, app_nil_r.
    split; [done|]. intros _. done.
  - intros [= <- <-]. split; [|done].
    split; [exact Hc|]. split; [intros r; rewrite Hh; apply evolved_refl|].
    split; [done|]. exists cs, l.
    split; [done|]. split; [done|]. split; [done|]. rewrite Hp, app_nil_r.
    split; [|done]. unfold pending. rewrite <-(pending_of_keys _ Hnd).
    by apply concat_prefix_submseteq.
Qed.

Lemma for_each_generate gen_fn (n : list nat) st :
  ∃ rs st', for_each n (λ _,
      o ← get_self;
      let '(ds, result_tokens) := run_generate gen_fn (decode_state o) in
      put_self (set_decode_state ds o);;
      log_call (CallGenerate gen_fn);;
      mret result_tokens) st = (Ok rs, st')
    ∧ kept st st' ∧ outbox st' = outbox st
    ∧ ∃ cs, calls st' = calls st ++ cs ∧ prefilled cs = [].
Proof.
  revert st. induction n as [|i n IH]; intros st.
  - exists [], st. split; [done|]. split; [apply kept_refl|]. split; [done|].
    exists []. by rewrite app_nil_r.
  - cbn [for_each]. mrun.
    destruct (run_generate gen_fn (decode_state (self st))) as [ds rt]. mrun.
    match goal with |- context [for_each n ?body ?st1] =>
      destruct (IH st1) as (rs & st' & -> & Hk & Ho & cs & Hcs & Hp) end.
    exists (rt :: rs), st'. split; [done|]. split.
    { eapply kept_trans; [|exact Hk]. split; reflexivity. }
    split; [done|]. exists (CallGenerate gen_fn :: cs). rewrite Hcs. cbn.
    split; [by rewrite <-app_assoc|done].
Qed.

Lemma for_each_put_steps (rs : list ResultTokens) st :
  for_each rs (λ result_tokens, backlog_put (StepEntry result_tokens)) st
  = (Ok (const () <$> rs),
     mkPstate (self st) (heap st) (outbox st ++ (StepEntry <$> rs)) (calls st)).
Proof.
  revert st. induction rs as [|rt rs IH]; intros st.
  - cbn. rewrite app_nil_r. by destruct st.
  - cbn [for_each]. mrun. rewrite IH. cbn. by rewrite <-app_assoc.
Qed.

Lemma decode_run st r st' :
  decode st = (r, st') →
  kept st st'
  ∧ (∃ cs, calls st' = calls st ++ cs ∧ prefilled cs = [])
  ∧ ∃ es, outbox st' = outbox st ++ es ∧ Forall is_step es.
Proof.
  unfold decode. mrun. destruct (dummy (self st)).
  { intros [= <- <-]. split; [apply kept_refl|].
    split; exists []; by rewrite app_nil_r. }
  destruct (_cached_generate (self st)) as [gen_fn|].
  - mrun. destruct (for_each_generate gen_fn (seq 0 10) st)
      as (rs & st1 & -> & Hk & Ho & cs & Hcs & Hp).
    mrun. rewrite for_each_put_steps. intros [= <- <-].
    split; [exact Hk|]. split; [by exists cs|].
    exists (StepEntry <$> rs). cbn. rewrite Ho. split; [done|].
    apply Forall_fmap, Forall_forall. done.
  - intros [= <- <-]. split; [apply kept_refl|].
    split; exists []; by rewrite app_nil_r.
Qed.
End accounting_of_code.

(** ** The whole producer loop, sequentially *)

Section serve_all_facts.
Context `{Engine}.
Implicit Types (st : pstate) (work : list (nat * ref)).

Lemma accounted_lost_more e e' st st' :
  accounted e false st st' → accounted (e ++ e') false st st'.
Proof.
  intros (Hc & Hev & Hnd & cs & l & ? & ? & ? & Hsub & _).
  split; [done|]. split; [done|]. split; [done|]. exists cs, l.
  repeat split; try done. rewrite app_assoc. by apply submseteq_inserts_r.
Qed.

Lemma serve_rows_accounted work st r st' :
  serve_rows work st = (r, st') → accounted work (is_ok r) st st'.
Proof.
  revert st. induction work as [|[slot row] work IH]; intros st.
  - intros [= <- <-]. apply accounted_refl.
  - cbn [serve_rows]. rewrite run_bind.
    destruct (serve_row slot row st) as [[[]|e] st1] eqn:Hrow.
    + intros Hrest%IH. apply serve_row_accounted in Hrow.
      by apply (accounted_trans [(slot, row)] work _ st st1 st').
    + intros [= <- <-]. apply serve_row_accounted in Hrow.
      by apply (accounted_lost_more [(slot, row)] work).
Qed.

Lemma serve_all_accounted work st r st' :
  NoDup (dict_keys (prefill_buckets (self st))) →
  serve_all work st = (r, st') →
  accounted work (is_ok r) st st'
  ∧ (is_ok r = true → prefill_buckets (self st') = []).
Proof.
  intros Hnd. unfold serve_all. rewrite run_bind.
  destruct (serve_rows work st) as [[[]|e] st1] eqn:Hrows.
  - apply serve_rows_accounted in Hrows. intros Hflush.
    destruct (flush_leftovers_accounted st1 r st') as [Hacc Hempty]; [|done|].
    { by apply Hrows. }
    split; [|done]. rewrite <-(app_nil_r work).
    by apply (accounted_trans work [] _ st st1 st').
  - intros [= <- <-]. split; [|done]. by apply serve_rows_accounted in Hrows.
Qed.

(** Whenever the producer loop runs to its end from empty buckets, the
    (slot, request) pairs that went through compiled prefill calls are
    exactly the pairs it was given, each once. *)
Lemma serve_all_prefills_each_once work st st' :
  prefill_buckets (self st) = [] →
  serve_all work st = (Ok (), st') →
  ∃ cs, calls st' = calls st ++ cs ∧ prefilled cs ≡ₚ work.
Proof.
  intros Hempty Hrun.
  destruct (serve_all_accounted work st (Ok ()) st') as [Hacc Hempty']; [|done|].
  { rewrite Hempty. constructor. }
  destruct Hacc as (_ & _ & _ & cs & l & Hcs & _ & _ & _ & Hexact).
  exists cs. split; [done|]. specialize (Hexact eq_refl).
  unfold pending in Hexact. by rewrite Hempty, Hempty' in Hexact.
Qed.
End serve_all_facts.

(** ** Regrouping in [batch_inference] *)

Section sort_data_facts.
Variable shuffle : Z → list ref → list ref.
Hypothesis shuffle_permutes : ∀ k l, shuffle k l ≡ₚ l.
Variable h : store.

Local Existing Instance has_length_dec.

Lemma dd_get_append (k k' : Z) (x : ref) (d : dict Z (list ref)) :
  dd_get k' (dd_append k x d)
  = if decide (k = k') then dd_get k d ++ [x] else dd_get k' d.
Proof.
  unfold dd_append. case_decide as Hk.
  - subst. by rewrite dd_get_set_eq.
  - by rewrite dd_get_set_ne, dd_get_touch.
Qed.

Lemma group_get (data : list ref) (d : dict Z (list ref)) (k : Z) :
  dd_get k (foldl (λ d row, dd_append (padded_length (h row)) row d) d data)
  = dd_get k d ++ filter (has_length h k) data.
Proof.
  revert d. induction data as [|r data IH]; intros d; cbn [foldl].
  - by rewrite app_nil_r.
  - rewrite IH, dd_get_append.
    destruct (decide (padded_length (h r) = k)) as [Hk|Hk].
    + rewrite (filter_cons_True (has_length h k)) by exact Hk.
      rewrite Hk. by rewrite <-app_assoc.
    + by rewrite (filter_cons_False (has_length h k)) by exact Hk.
Qed.

(** The list handed to [batch_inference_with_callback]. *)
Lemma sort_data_groups (data : list ref) :
  sort_data shuffle h data
  = shuffle 128 (filter (has_length h 128) data ++ filter (has_length h 64) data)
    ++ shuffle 256 (filter (has_length h 256) data)
    ++ shuffle 512 (filter (has_length h 512) data)
    ++ shuffle 1024 (filter (has_length h 1024) data).
Proof.
  unfold sort_data. cbn [foldl snd].
  repeat first
    [ rewrite dd_get_set_eq | rewrite dd_get_set_ne by done
    | rewrite dd_get_touch | rewrite group_get ].
  cbn [dd_get dict_lookup default app]. by rewrite <-!app_assoc.
Qed.

Lemma filter_lengths (data : list ref) :
  (filter (has_length h 128) data ++ filter (has_length h 64) data)
  ++ filter (has_length h 256) data ++ filter (has_length h 512) data
  ++ filter (has_length h 1024) data
  ≡ₚ filter (λ r, padded_length (h r) ∈ [64; 128; 256; 512; 1024]) data.
Proof.
  induction data as [|r data IH]; [done|].
  destruct (decide (padded_length (h r) ∈ [64; 128; 256; 512; 1024])) as [Hin|Hout].
  - rewrite (filter_cons_True (λ r, padded_length (h r) ∈ [64; 128; 256; 512; 1024]) r data Hin), <-IH.
    rewrite !elem_of_cons, elem_of_nil in Hin. unfold has_length.
    destruct Hin as [Hl|[Hl|[Hl|[Hl|[Hl|[]]]]]];
      repeat first
        [ rewrite (filter_cons_True (λ r, padded_length (h r) = _)) by lia
        | rewrite (filter_cons_False (λ r, padded_length (h r) = _)) by lia ];
      solve_Permutation.
  - rewrite (filter_cons_False (λ r, padded_length (h r) ∈ [64; 128; 256; 512; 1024]) r data Hout), <-IH.
    rewrite !elem_of_cons, elem_of_nil in Hout. unfold has_length.
    by rewrite !(filter_cons_False (λ r, padded_length (h r) = _))
      by (intros ?; apply Hout; tauto).
Qed.

(** Up to order, [batch_inference] serves the requests whose padded
    length is one of 64, 128, 256, 512, 1024, and no others. *)
Lemma sort_data_served (data : list ref) :
  sort_data shuffle h data
  ≡ₚ filter (λ r, padded_length (h r) ∈ [64; 128; 256; 512; 1024]) data.
Proof.
  rewrite sort_data_groups, <-filter_lengths, !shuffle_permutes.
  by rewrite <-!app_assoc.
Qed.
End sort_data_facts.

(** C1 fails on the code.  [batch_inference] hands on only the requests
    whose padded length is 64, 128, 256, 512 or 1024: a submitted request of
    any other padded length (2048, say, which [warmup] compiles a variant
    for) is in no group that is served, so whatever the shuffle and
    whatever slots are handed out, no compiled prefill call is ever made
    for it. *)
Theorem C1_unsupported_length_dropped `{Engine}
    (shuffle : Z → list ref → list ref) (h : store) (data : list ref) (r : ref) :
  (∀ k l, shuffle k l ≡ₚ l) →
  r ∈ data →
  padded_length (h r) ∉ [64; 128; 256; 512; 1024] →
  (r ∉ sort_data shuffle h data)
  ∧ ∀ (slots : list nat) (st : pstate) res st',
      prefill_buckets (self st) = [] →
      serve_all (zip slots (sort_data shuffle h data)) st = (res, st') →
      ∃ cs, calls st' = calls st ++ cs ∧ ∀ slot, (slot, r) ∉ prefilled cs.
Proof.
  intros Hshuffle Hin Hlen.
  assert (r ∉ sort_data shuffle h data) as Hout.
  { rewrite (sort_data_served shuffle Hshuffle h data).
    intros [? _]%list_elem_of_filter. done. }
  split; [done|]. intros slots st res st' Hempty Hrun.
  destruct (serve_all_accounted (zip slots (sort_data shuffle h data)) st res st')
    as [Hacc _]; [|done|].
  { rewrite Hempty. constructor. }
  destruct Hacc as (_ & _ & _ & cs & l & Hcs & _ & _ & Hsub & _).
  exists cs. split; [done|]. intros slot Hslot. apply Hout.
  unfold pending in Hsub. rewrite Hempty in Hsub. cbn in Hsub.
  eapply elem_of_submseteq in Hslot; [|exact Hsub].
  apply elem_of_zip_r in Hslot. done.
Qed.

Lemma C1_unsupported_length_dropped_witness :
  0%nat ∉ sort_data (λ _ l, l) (λ _, request "a" 2048 2000) [0%nat].
Proof.
  refine (proj1 (@C1_unsupported_length_dropped counting_engine (λ _ l, l)
                   (λ _, request "a" 2048 2000) [0%nat] 0%nat _ _ _)).
  - done.
  - apply list_elem_of_singleton. reflexivity.
  - intros Hlen. apply list_elem_of_In in Hlen. vm_compute in Hlen.
    intuition discriminate.
Defined.

(** With batching enabled, a request of padded length 64 makes the loop
    read the bucket for length 32, which creates that key; the end-of-input
    flush then asks for a length-32 variant that [warmup] never builds, and
    raises before the 128 bucket holding the request is flushed. *)
Lemma length_64_never_prefilled :
  let st := fresh_pstate (warmup 1024 (fresh_object true 8 1024 1024))
              (λ _, request "a" 64 60) in
  (@serve_all counting_engine [(0%nat, 0%nat)] st).1
  = Raise (AssertionError "prefill fn not found")
  ∧ calls (@serve_all counting_engine [(0%nat, 0%nat)] st).2 = []
  ∧ dict_keys (prefill_buckets (self (@serve_all counting_engine [(0%nat, 0%nat)] st).2))
    = [32; 128].
Proof. vm_compute. repeat split; reflexivity. Qed.

(** ** The run: what every step does to slots and identities *)

Section tag_facts.
Context `{Engine}.

Lemma entry_tags_app es1 es2 : entry_tags (es1 ++ es2) = entry_tags es1 ++ entry_tags es2.
Proof. apply bind_app. Qed.

Lemma entry_tags_first_tokens (h : store) (l : list (Z * nat * ref)) :
  entry_tags (first_token_entry h <$> l) = tagged h (targets l).
Proof.
  unfold entry_tags, tagged, targets.
  induction l as [|[[tok slot] row] l IH]; [done|]. cbn. f_equal. exact IH.
Qed.

Lemma entry_tags_steps es : Forall is_step es → entry_tags es = [].
Proof.
  unfold entry_tags. induction 1 as [|[] es He _ IH]; [done|done|]. cbn. exact IH.
Qed.

Lemma tagged_evolved (h h' : store) ps :
  (∀ r, evolved (h r) (h' r)) → tagged h' ps = tagged h ps.
Proof.
  intros Hev. apply list_fmap_ext. intros _ [slot row] _. cbn.
  by destruct (Hev row) as (-> & _).
Qed.

Lemma tagged_app h ps1 ps2 : tagged h (ps1 ++ ps2) = tagged h ps1 ++ tagged h ps2.
Proof. apply fmap_app. Qed.

(** What an accounted step does to the tags in the buckets and the outbox. *)
Lemma accounted_tags extra exact (p p' : pstate) :
  accounted extra exact p p' →
  entry_tags (outbox p')
  ⊆+ tagged (heap p) (pending p) ++ entry_tags (outbox p) ++ tagged (heap p) extra
  ∧ (exact = true →
     tagged (heap p') (pending p') ++ entry_tags (outbox p')
     ≡ₚ tagged (heap p) (pending p) ++ entry_tags (outbox p) ++ tagged (heap p) extra).
Proof.
  intros (_ & Hev & _ & cs & l & _ & Ht & Ho & Hsub & Hexact).
  rewrite Ho, entry_tags_app, entry_tags_first_tokens, Ht. split.
  - assert (tagged (heap p) (prefilled cs)
            ⊆+ tagged (heap p) (pending p ++ extra)) as Hsub'
      by (unfold tagged; by rewrite Hsub).
    rewrite tagged_app in Hsub'.
    etrans; [apply submseteq_skips_l, Hsub'|]. solve_submseteq.
  - intros Hex. specialize (Hexact Hex).
    rewrite (tagged_evolved _ _ _ Hev).
    assert (tagged (heap p) (pending p' ++ prefilled cs)
            ≡ₚ tagged (heap p) (pending p ++ extra)) as Hperm
      by (unfold tagged; by rewrite Hexact).
    rewrite !tagged_app in Hperm.
    rewrite (Permutation_app_comm (entry_tags (outbox p))), app_assoc, Hperm.
    solve_Permutation.
Qed.
End tag_facts.

Section run_facts.
Context `{Engine} {CB : Type}.
Variable emit_first_token : string → Z → CB → bool * CB.
Variable emit_token : string → Z → CB → bool * CB.
Implicit Types (st : @state _ CB).

Ltac unfold_state :=
  unfold all_slots, all_ids, in_flight, bucket_pairs, wf_buckets;
  cbn [prod ppc live detokenize_backlog empty_slots slot_to_id cb cpc
       heap outbox self calls raised todo first_held slot_held].

Lemma move_submseteq {A} (E' E T' T X R : list A) :
  T' ⊆+ T ++ X → E' ++ X ⊆+ E → E' ++ T' ++ R ⊆+ E ++ T ++ R.
Proof.
  intros HT HE.
  etrans; [apply submseteq_skips_l, submseteq_skips_r, HT|].
  etrans; [|apply submseteq_skips_r, HE]. solve_submseteq.
Qed.

(** A step of the producer's own code: it may take in the tags [X]
    (a slot from the free list with the identity of a request from
    [data]) and otherwise only moves tags from buckets to the outbox. *)
Lemma producer_move st p' pc' E' (X : list (nat * string)) :
  (∀ r, evolved (heap (prod st) r) (heap p' r)) →
  tagged (heap p') (if raised pc' then [] else pending p') ++ entry_tags (outbox p')
  ⊆+ (tagged (heap (prod st)) (bucket_pairs st) ++ entry_tags (outbox (prod st))) ++ X →
  E' ++ X.*1 ⊆+ empty_slots st →
  ((λ r, id (heap (prod st) r)) <$> todo pc') ++ X.*2
  ⊆+ (λ r, id (heap (prod st) r)) <$> todo (ppc st) →
  let st' := mkState p' pc' (live st) (detokenize_backlog st) E'
               (slot_to_id st) (cb st) (cpc st) in
  all_slots st' ⊆+ all_slots st ∧ all_ids st' ⊆+ all_ids st.
Proof.
  intros Hev Htags Hempty Htodo st'. subst st'. unfold all_slots, all_ids, in_flight.
  cbn [prod ppc live detokenize_backlog empty_slots slot_to_id cb cpc].
  change (bucket_pairs (mkState p' pc' _ _ _ _ _ _))
    with (if raised pc' then [] else pending p').
  set (T' := tagged (heap p') _ ++ entry_tags (outbox p')) in *.
  set (T := tagged (heap (prod st)) _ ++ entry_tags (outbox (prod st))) in *.
  set (R := entry_tags (detokenize_backlog st) ++ first_held (cpc st) ++ slot_to_id st).
  assert ((λ r, id (heap p' r)) <$> todo pc' = (λ r, id (heap (prod st) r)) <$> todo pc')
    as ->.
  { apply list_fmap_ext. intros _ r _. by destruct (Hev r) as (-> & _). }
  rewrite !(app_assoc _ _ R). fold T' T. rewrite !fmap_app, <-!app_assoc.
  split.
  - apply (move_submseteq _ _ _ _ (X.*1)); [|done].
    rewrite <-fmap_app. by apply fmap_submseteq.
  - apply (move_submseteq _ _ _ _ (X.*2)); [|done].
    rewrite <-fmap_app. by apply fmap_submseteq.
Qed.

Lemma tagged_fst h ps : (tagged h ps).*1 = ps.*1.
Proof. unfold tagged. rewrite <-list_fmap_compose. done. Qed.

Lemma tagged_snd h ps : (tagged h ps).*2 = (λ p, id (h p.2)) <$> ps.
Proof. unfold tagged. rewrite <-list_fmap_compose. done. Qed.

(** A piece of accounted producer code, run as one step. *)
Lemma producer_run_accounted st m next l (extra : list (nat * ref)) E' :
  wf_buckets st → raised (ppc st) = false → raised next = false →
  (∀ r p, m (prod st) = (r, p) → accounted extra (is_ok r) (prod st) p) →
  E' ++ extra.*1 ⊆+ empty_slots st →
  ((λ r, id (heap (prod st) r)) <$> todo next)
    ++ ((λ p, id (heap (prod st) p.2)) <$> extra)
  ⊆+ (λ r, id (heap (prod st) r)) <$> todo (ppc st) →
  let st' := (producer_run m next l (with_empty_slots E' st)).2 in
  all_slots st' ⊆+ all_slots st ∧ all_ids st' ⊆+ all_ids st ∧ wf_buckets st'
  ∧ (∀ r, evolved (heap (prod st) r) (heap (prod st') r))
  ∧ empty_slots st' = E'.
Proof.
  intros Hwf Hrun Hnext Hm Hempty Htodo. unfold producer_run.
  cbn [prod with_empty_slots live detokenize_backlog empty_slots slot_to_id cb cpc].
  destruct (m (prod st)) as [r p]. specialize (Hm _ _ eq_refl).
  destruct r as [[]|e];
    cbn [snd is_ok] in *; pose proof (accounted_tags _ _ _ _ Hm) as [Hsub Hexact];
    destruct (Hm) as (_ & Hev & Hnd & _).
  - apply (and_assoc _ _ _).
    split; [|split; [|split]]; [|by intros _; apply Hnd, Hwf|done|done].
    apply (producer_move st p next E' (tagged (heap (prod st)) extra)); [done| | |].
    + rewrite Hnext. unfold bucket_pairs. rewrite Hrun.
      rewrite (Hexact eq_refl). by rewrite <-app_assoc.
    + by rewrite tagged_fst.
    + by rewrite tagged_snd.
  - apply (and_assoc _ _ _). split; [|split; [|split]]; [|done|done|done].
    apply (producer_move st p (PRaised e) E' (tagged (heap (prod st)) extra)); [done| | |].
    + cbn [raised]. unfold bucket_pairs. rewrite Hrun. cbn [tagged fmap list_fmap app].
      by rewrite <-app_assoc.
    + by rewrite tagged_fst.
    + rewrite tagged_snd. cbn [todo fmap list_fmap app].
      etrans; [|exact Htodo]. apply submseteq_inserts_l. done.
Qed.

(** A [decode] call, run as one step. *)
Lemma producer_run_decode st next :
  wf_buckets st → raised (ppc st) = false → raised next = false →
  todo next = todo (ppc st) →
  let st' := (producer_run decode next Tau st).2 in
  all_slots st' ⊆+ all_slots st ∧ all_ids st' ⊆+ all_ids st ∧ wf_buckets st'
  ∧ (∀ r, evolved (heap (prod st) r) (heap (prod st') r))
  ∧ empty_slots st' = empty_slots st.
Proof.
  intros Hwf Hrun Hnext Htodo. unfold producer_run.
  destruct (decode (prod st)) as [r p] eqn:Hd.
  destruct (decode_run _ _ _ Hd) as (Hk & _ & es & Ho & Hes).
  pose proof (kept_buckets _ _ Hk) as Hb. destruct (Hk) as [_ Hh].
  assert (∀ r0, evolved (heap (prod st) r0) (heap p r0)) as Hev
    by (intros r0; rewrite Hh; apply evolved_refl).
  assert (entry_tags (outbox p) = entry_tags (outbox (prod st))) as Htags.
  { by rewrite Ho, entry_tags_app, (entry_tags_steps _ Hes), app_nil_r. }
  assert (∀ pc', todo pc' = todo next ∨ todo pc' = [] →
    let st' := mkState p pc' (live st) (detokenize_backlog st) (empty_slots st)
                 (slot_to_id st) (cb st) (cpc st) in
    all_slots st' ⊆+ all_slots st ∧ all_ids st' ⊆+ all_ids st) as Hmove.
  { intros pc' Hpc'. apply (producer_move st p pc' (empty_slots st) []); [done| | |].
    - rewrite Htags, app_nil_r, Hh. unfold bucket_pairs, pending. rewrite Hrun, Hb.
      destruct (raised pc'); [apply submseteq_inserts_l|]; done.
    - by rewrite app_nil_r.
    - rewrite app_nil_r, <-Htodo. destruct Hpc' as [->| ->]; [done|apply submseteq_nil_l]. }
  destruct r as [[]|e]; cbn [snd].
  - apply (and_assoc _ _ _). split; [apply Hmove; by left|].
    split; [|done]. intros _. cbn. rewrite Hb. by apply Hwf.
  - apply (and_assoc _ _ _). split; [apply Hmove; by right|]. done.
Qed.

Lemma with_empty_slots_same st : with_empty_slots (empty_slots st) st = st.
Proof. by destruct st. Qed.

Lemma producer_run_label m next l st : (producer_run m next l st).1 = l.
Proof. unfold producer_run. by destruct (m (prod st)) as [[] ?]. Qed.

Lemma producer_step_ok st l st' :
  wf_buckets st → producer_step st = Some (l, st') → step_ok st l st'.
Proof.
  intros Hwf. unfold producer_step.
  destruct (outbox (prod st)) as [|e rest] eqn:Hout.
  - destruct (ppc st) as [[|row rest]| | | |] eqn:Hpc; try done.
    + (* the end-of-input flush *)
      intros [= Hrun]. rewrite (surjective_pairing (producer_run _ _ _ _)) in Hrun.
      injection Hrun as <- <-. rewrite producer_run_label.
      assert (raised (ppc st) = false) as Hnr by (by rewrite Hpc).
      pose proof (producer_run_accounted st flush_leftovers PDrain Tau []
                    (empty_slots st) Hwf Hnr eq_refl) as Hstep.
      rewrite with_empty_slots_same in Hstep.
      destruct Hstep as (Hs & Hi & Hw & Hev & He).
      * intros r p Hp. by apply (flush_leftovers_accounted _ _ _ (Hwf Hnr) Hp).
      * by rewrite app_nil_r.
      * rewrite Hpc. apply submseteq_nil_l.
      * done.
    + destruct (last (empty_slots st)) as [slot|] eqn:Hlast.
      * (* one request served *)
        intros [= Hrun]. rewrite (surjective_pairing (producer_run _ _ _ _)) in Hrun.
        injection Hrun as <- <-. rewrite producer_run_label.
        assert (raised (ppc st) = false) as Hnr by (by rewrite Hpc).
        destruct (producer_run_accounted st (serve_row slot row) (PLoop rest)
                    (Acquire slot) [(slot, row)] (removelast (empty_slots st))
                    Hwf Hnr eq_refl)
          as (Hs & Hi & Hw & Hev & He).
        -- intros r p Hp. by apply serve_row_accounted.
        -- cbn. by rewrite <-(last_removelast _ _ Hlast).
        -- rewrite Hpc. cbn. apply Permutation_submseteq. symmetry.
           apply Permutation_cons_append.
        -- unfold step_ok. do 4 (split; [done|]). rewrite He.
           by apply last_removelast.
      * (* no free slot: decode *)
        intros [= Hrun]. rewrite (surjective_pairing (producer_run _ _ _ _)) in Hrun.
        injection Hrun as <- <-. rewrite producer_run_label.
        assert (raised (ppc st) = false) as Hnr by (by rewrite Hpc).
        destruct (producer_run_decode st (PLoop (row :: rest)) Hwf Hnr eq_refl)
          as (Hs & Hi & Hw & Hev & He); [by rewrite Hpc|]. done.
    + (* the final decode loop *)
      destruct (slot_to_id st) as [|occupied others] eqn:Hocc.
      * intros [= <- <-]. unfold step_ok. unfold_state. rewrite Hpc, Hocc. cbn [raised todo].
        split; [done|]. split; [done|]. split; [intros _; apply Hwf; by rewrite Hpc|].
        split; [intros r; apply evolved_refl|done].
      * intros [= Hrun]. rewrite (surjective_pairing (producer_run _ _ _ _)) in Hrun.
        injection Hrun as <- <-. rewrite producer_run_label.
        assert (raised (ppc st) = false) as Hnr by (by rewrite Hpc).
        destruct (producer_run_decode st PDrain Hwf Hnr eq_refl)
          as (Hs & Hi & Hw & Hev & He); [by rewrite Hpc|]. done.
    + (* join *)
      destruct (cpc st) eqn:Hcpc; try done.
      intros [= <- <-]. unfold step_ok. unfold_state. rewrite Hpc, Hcpc. cbn [raised todo].
      split; [done|]. split; [done|]. split; [intros _; apply Hwf; by rewrite Hpc|].
      split; [intros r; apply evolved_refl|done].
  - (* a pending put goes through *)
    case_decide; [|done]. intros [= <- <-]. unfold step_ok. unfold_state.
    rewrite Hout.
    change (e :: rest) with ([e] ++ rest).
    rewrite !entry_tags_app. unfold pending. cbn [self].
    split.
    { apply Permutation_submseteq. apply Permutation_app; [done|].
      apply Permutation_app; [|done]. apply fmap_Permutation. solve_Permutation. }
    split.
    { apply Permutation_submseteq. apply Permutation_app; [done|].
      apply fmap_Permutation. solve_Permutation. }
    split; [done|]. split; [intros r; apply evolved_refl|done].
Qed.

Lemma dict_del_present {K V} `{EqDecision K} (k : K) (v : V) (d : dict K V) :
  dict_lookup k d = Some v → d ≡ₚ (k, v) :: dict_del k d.
Proof.
  induction d as [|[k' v'] d IH]; cbn; [done|].
  case_decide as Hk; [by intros [= ->]; subst|].
  intros Hd. rewrite (IH Hd) at 1. apply Permutation_swap.
Qed.

(** The consumer only changes where it stands, holding nothing before
    or after. *)
Lemma consumer_at_ok st pc :
  wf_buckets st →
  first_held (cpc st) = [] → slot_held (cpc st) = [] →
  first_held pc = [] → slot_held pc = [] →
  step_ok st Tau (consumer_at pc st).
Proof.
  intros Hwf Hf Hs Hf' Hs'. unfold step_ok, consumer_at. unfold_state.
  rewrite Hf, Hs, Hf', Hs'.
  split; [done|]. split; [done|]. split; [done|].
  split; [intros r; apply evolved_refl|done].
Qed.

Lemma consumer_step_ok st l st' :
  NoDup (all_slots st) → wf_buckets st →
  consumer_step emit_first_token emit_token st = Some (l, st') → step_ok st l st'.
Proof.
  intros Hnd Hwf. unfold consumer_step.
  destruct (cpc st) as [| |first_token row_id slot|result_tokens
                        |newly_empty [|slot rest]|newly_empty slot rest| |] eqn:Hpc;
    try done.
  - (* the test of [self.live] *)
    intros [= <- <-]. apply consumer_at_ok; try done; try (by rewrite Hpc).
    all: by destruct (live st).
  - (* the get *)
    destruct (detokenize_backlog st) as [|e rest] eqn:Hq; [done|].
    intros [= <- <-]. unfold step_ok. unfold_state. rewrite Hpc, Hq.
    change (e :: rest) with ([e] ++ rest). rewrite entry_tags_app.
    assert (first_held match e with
                       | FirstTokenEntry first_token row_id _slot =>
                           CFirst first_token row_id _slot
                       | StepEntry result_tokens => CStep result_tokens
                       end = entry_tags [e]) as -> by (by destruct e).
    assert (slot_held match e with
                      | FirstTokenEntry first_token row_id _slot =>
                          CFirst first_token row_id _slot
                      | StepEntry result_tokens => CStep result_tokens
                      end = []) as -> by (by destruct e).
    cbn [first_held slot_held].
    split.
    { apply Permutation_submseteq. apply Permutation_app; [done|].
      apply Permutation_app; [|done]. apply fmap_Permutation. solve_Permutation. }
    split.
    { apply Permutation_submseteq. apply Permutation_app; [done|].
      apply fmap_Permutation. solve_Permutation. }
    split; [done|]. split; [intros r; apply evolved_refl|done].
  - (* a first token: release the slot, or register it as occupied *)
    destruct (emit_first_token row_id first_token (cb st)) as [[] c].
    + intros [= <- <-]. unfold step_ok. unfold_state. rewrite Hpc.
      cbn [first_held slot_held].
      split.
      { rewrite !fmap_app, !app_nil_r. cbn [fmap list_fmap fst]. solve_submseteq. }
      split.
      { rewrite !fmap_app. cbn [fmap list_fmap snd]. solve_submseteq. }
      split; [done|]. split; [intros r; apply evolved_refl|done].
    + assert (slot ∉ dict_keys (slot_to_id st)) as Hfresh.
      { unfold all_slots, in_flight in Hnd. rewrite Hpc in Hnd. cbn [first_held] in Hnd.
        rewrite !fmap_app in Hnd. cbn [fmap list_fmap fst] in Hnd.
        apply NoDup_app in Hnd as (_ & _ & Hnd).
        apply NoDup_app in Hnd as (Hnd & _ & _).
        apply NoDup_app in Hnd as (_ & _ & Hnd).
        apply NoDup_app in Hnd as (_ & _ & Hnd).
        apply NoDup_app in Hnd as (_ & _ & Hnd).
        by apply NoDup_cons in Hnd as [? _]. }
      intros [= <- <-]. unfold step_ok. unfold_state. rewrite Hpc.
      cbn [first_held slot_held]. rewrite (dict_set_fresh _ _ _ Hfresh).
      split.
      { apply Permutation_submseteq. apply Permutation_app; [done|].
        apply Permutation_app; [|done]. apply fmap_Permutation. solve_Permutation. }
      split.
      { apply Permutation_submseteq. apply Permutation_app; [done|].
        apply fmap_Permutation. solve_Permutation. }
      split; [done|]. split; [intros r; apply evolved_refl|done].
  - (* a step entry scanned *)
    destruct (scan_slots _ _ _ _ _ _) as [c newly_empty].
    intros [= <- <-]. unfold step_ok. unfold_state. rewrite Hpc.
    cbn [first_held slot_held].
    split; [done|]. split; [done|]. split; [done|].
    split; [intros r; apply evolved_refl|done].
  - (* the test that leaves the loop *)
    intros [= <- <-]. apply consumer_at_ok; try done; try (by rewrite Hpc).
    all: by destruct (drained _ _ _).
  - (* [del slot_to_id[slot]] *)
    destruct (dict_lookup slot (slot_to_id st)) as [v|] eqn:Hv.
    + intros [= <- <-]. unfold step_ok. unfold_state. rewrite Hpc.
      cbn [first_held slot_held]. rewrite (dict_del_present _ _ _ Hv) at 2 4.
      split.
      { rewrite !fmap_app, !app_nil_r. cbn [fmap list_fmap fst]. solve_submseteq. }
      split.
      { rewrite !fmap_app. cbn [fmap list_fmap snd]. solve_submseteq. }
      split; [done|]. split; [intros r; apply evolved_refl|done].
    + intros [= <- <-]. unfold step_ok, consumer_at. unfold_state. rewrite Hpc.
      cbn [first_held slot_held].
      split; [done|]. split; [done|]. split; [done|].
      split; [intros r; apply evolved_refl|done].
  - (* [empty_slots.append(slot)] *)
    intros [= <- <-]. unfold step_ok. unfold_state. rewrite Hpc.
    cbn [first_held slot_held].
    split; [rewrite !app_nil_r; solve_submseteq|].
    split; [done|]. split; [done|]. split; [intros r; apply evolved_refl|done].
Qed.

Lemma thread_step_ok t st l st' :
  NoDup (all_slots st) → wf_buckets st →
  thread_step emit_first_token emit_token t st = Some (l, st') → step_ok st l st'.
Proof.
  intros Hnd Hwf. unfold thread_step. destruct (alive st); [|done].
  destruct t; [by apply producer_step_ok|by apply consumer_step_ok].
Qed.

Lemma held_after_snoc tr l :
  held_after (tr ++ [l])
  = match l with
    | Acquire s => s :: held_after tr
    | Release s => filter (.≠ s) (held_after tr)
    | Tau => held_after tr
    end.
Proof. unfold held_after. by rewrite foldl_snoc. Qed.

(** What holds along every execution from a state where it holds. *)
Lemma execution_invariant st0 tr st :
  execution emit_first_token emit_token st0 tr st →
  NoDup (all_slots st0) → wf_buckets st0 →
  NoDup (all_slots st) ∧ wf_buckets st
  ∧ all_ids st ⊆+ all_ids st0
  ∧ (∀ r, evolved (heap (prod st0) r) (heap (prod st) r))
  ∧ ((∀ s, s ∈ empty_slots st0 → s ∉ held_after []) →
     ∀ s, s ∈ empty_slots st → s ∉ held_after tr).
Proof.
  intros Hexec Hnd0 Hwf0.
  induction Hexec as [st|st tr st' l st'' Hexec IH Hstep].
  - split; [done|]. split; [done|]. split; [done|].
    split; [intros r; apply evolved_refl|done].
  - destruct (IH Hnd0 Hwf0) as (Hnd & Hwf & Hids & Hev & Hheld).
    destruct Hstep as [t st' l st'' Hstep].
    destruct (thread_step_ok _ _ _ _ Hnd Hwf Hstep) as (Hs & Hi & Hw & Hev' & Hl).
    split; [by eapply NoDup_submseteq_inv|]. split; [done|].
    split; [by etrans|]. split; [intros r; by eapply evolved_trans|].
    intros Hinit s Hs''. specialize (Hheld Hinit). rewrite held_after_snoc.
    assert (NoDup (empty_slots st')) as Hnde.
    { unfold all_slots in Hnd. by apply NoDup_app in Hnd as [? _]. }
    destruct l as [s0|s0|].
    + rewrite Hl in Hnde. apply NoDup_app in Hnde as (_ & Hdisj & _).
      apply not_elem_of_cons. split.
      * intros ->. eapply Hdisj; [exact Hs''|]. by apply list_elem_of_singleton.
      * apply Hheld. rewrite Hl. apply elem_of_app. by left.
    + rewrite Hl in Hs''. apply elem_of_app in Hs'' as [Hs''|Hs''].
      * intros [_ Hin]%list_elem_of_filter. by eapply Hheld.
      * apply list_elem_of_singleton in Hs'' as ->. by intros [? _]%list_elem_of_filter.
    + rewrite Hl in Hs''. by apply Hheld.
Qed.

Lemma execution_prefix st0 tr1 l tr2 st :
  execution emit_first_token emit_token st0 (tr1 ++ l :: tr2) st →
  ∃ st1 st2, execution emit_first_token emit_token st0 tr1 st1
             ∧ step emit_first_token emit_token st1 l st2.
Proof.
  revert st. induction tr2 as [|l' tr2 IH] using rev_ind; intros st Hexec.
  - remember (tr1 ++ [l]) as tr eqn:Htr.
    destruct Hexec as [|st0 tr st1 l0 st2 Hexec' Hstep]; [by destruct tr1|].
    apply app_inj_tail in Htr as [-> ->]. eauto.
  - remember (tr1 ++ l :: tr2 ++ [l']) as tr eqn:Htr.
    destruct Hexec as [|st0 tr st1 l0 st2 Hexec' Hstep]; [by destruct tr1|].
    rewrite app_comm_cons, app_assoc in Htr. apply app_inj_tail in Htr as [-> ->].
    by eapply IH.
Qed.

Lemma NoDup_keys_functional {K V} (d : list (K * V)) k v1 v2 :
  NoDup d.*1 → (k, v1) ∈ d → (k, v2) ∈ d → v1 = v2.
Proof.
  induction d as [|[k' v'] d IH]; cbn; [by intros _ ?%elem_of_nil|].
  intros [Hk Hnd]%NoDup_cons [[= -> ->]|H1]%elem_of_cons [[= ?]|H2]%elem_of_cons;
    try done.
  - exfalso. apply Hk. by apply (list_elem_of_fmap_2 fst _ (k', v2)).
  - subst. exfalso. apply Hk. by apply (list_elem_of_fmap_2 fst _ (k', v1)).
  - by apply IH.
Qed.

Lemma NoDup_values_injective {K V} (d : list (K * V)) k1 k2 v :
  NoDup d.*2 → (k1, v) ∈ d → (k2, v) ∈ d → k1 = k2.
Proof.
  induction d as [|[k' v'] d IH]; cbn; [by intros _ ?%elem_of_nil|].
  intros [Hv Hnd]%NoDup_cons [[= -> ->]|H1]%elem_of_cons [[= ?]|H2]%elem_of_cons;
    try done.
  - exfalso. apply Hv. by apply (list_elem_of_fmap_2 snd _ (k2, v')).
  - subst. exfalso. apply Hv. by apply (list_elem_of_fmap_2 snd _ (k1, v')).
  - by apply IH.
Qed.

Lemma execution_cons st l st' tr st'' :
  step emit_first_token emit_token st l st' →
  execution emit_first_token emit_token st' tr st'' →
  execution emit_first_token emit_token st (l :: tr) st''.
Proof.
  intros Hstep Hexec. induction Hexec as [st'|st' tr st1 l' st2 Hexec IH Hstep'].
  - apply (execution_snoc _ _ st [] st); [constructor|done].
  - rewrite app_comm_cons. eapply execution_snoc; [by apply IH|done].
Qed.

Lemma run_schedule_execution sched st tr st' :
  run_schedule emit_first_token emit_token sched st = Some (tr, st') →
  execution emit_first_token emit_token st tr st'.
Proof.
  revert st tr. induction sched as [|t sched IH]; intros st tr; cbn.
  - intros [= <- <-]. constructor.
  - destruct (thread_step _ _ t st) as [[l st1]|] eqn:Hstep; [|done].
    destruct (run_schedule _ _ sched st1) as [[tr' st2]|] eqn:Hrest; [|done].
    intros [= <- <-]. eapply execution_cons; [by econstructor|by apply IH].
Qed.

Lemma initial_slots o h data (cb0 : CB) :
  prefill_buckets o = [] → NoDup (all_slots (initial o h data cb0)).
Proof.
  intros Hb. unfold initial. unfold_state. unfold pending. cbn [self]. rewrite Hb.
  cbn. rewrite app_nil_r. apply NoDup_seq.
Qed.

Lemma initial_ids o h data (cb0 : CB) :
  prefill_buckets o = [] →
  all_ids (initial o h data cb0) = (λ r, id (h r)) <$> data.
Proof.
  intros Hb. unfold initial. unfold_state. unfold pending. cbn [self]. rewrite Hb.
  cbn. by rewrite app_nil_r.
Qed.
End run_facts.

(** C5, as stated, fails: nothing makes identities unique.  With two
    submitted requests that carry the same identity, both prefilled and both
    first tokens consumed, that one identity occupies slot 1 and slot 0. *)
Lemma C5_counterexample :
  ∃ tr st,
    execution never_stop never_stop twin_run tr st
    ∧ (1%nat, "a") ∈ slot_to_id st ∧ (0%nat, "a") ∈ slot_to_id st.
Proof.
  pose (sched := [Producer; Producer; Producer; Producer; Consumer; Consumer;
                  Consumer; Consumer; Consumer; Consumer]).
  destruct (run_schedule never_stop never_stop sched twin_run) as [[tr st]|] eqn:Hrun;
    [|by vm_compute in Hrun].
  exists tr, st. split; [by eapply run_schedule_execution|].
  vm_compute in Hrun. injection Hrun as _ <-. cbn [slot_to_id].
  split; [apply list_elem_of_here|apply list_elem_of_further, list_elem_of_here].
Qed.

(** C5 (amended): take a call of [batch_inference_with_callback] that
    starts with empty buckets and an empty queue, on requests with pairwise
    distinct identities.  At every state that any interleaving of the
    producer and the [detokenize] thread can reach: a slot is registered for
    at most one identity; an identity is registered in at most one slot; no
    slot is both in the free-slot list and in the occupancy map; and no
    [empty_slots.pop()] returns a slot that an earlier pop returned and that
    has not been appended back since. *)
Theorem C5_slot_exclusivity `{Engine} {CB : Type}
    (emit_first_token emit_token : string → Z → CB → bool * CB)
    (o : OfflineInference) (h : store) (data : list ref) (cb0 : CB)
    (tr : list label) (st : state) :
  prefill_buckets o = [] →
  NoDup ((λ r, id (h r)) <$> data) →
  execution emit_first_token emit_token (initial o h data cb0) tr st →
  (∀ slot id1 id2,
     (slot, id1) ∈ slot_to_id st → (slot, id2) ∈ slot_to_id st → id1 = id2)
  ∧ NoDup (dict_keys (slot_to_id st))
  ∧ (∀ slot1 slot2 id_,
       (slot1, id_) ∈ slot_to_id st → (slot2, id_) ∈ slot_to_id st → slot1 = slot2)
  ∧ (∀ slot, slot ∈ empty_slots st → slot ∉ dict_keys (slot_to_id st))
  ∧ (∀ tr1 slot tr2, tr = tr1 ++ Acquire slot :: tr2 → slot ∉ held_after tr1).
Proof.
  intros Hb Hids Hexec.
  pose proof (initial_slots o h data cb0 Hb) as Hnd0.
  assert (wf_buckets (initial o h data cb0)) as Hwf0.
  { intros _. cbn. rewrite Hb. constructor. }
  destruct (execution_invariant _ _ _ _ _ Hexec Hnd0 Hwf0) as (Hnd & _ & Hsub & _ & _).
  assert (NoDup (dict_keys (slot_to_id st))) as Hkeys.
  { unfold all_slots, in_flight in Hnd. rewrite !fmap_app in Hnd.
    apply NoDup_app in Hnd as (_ & _ & Hnd). apply NoDup_app in Hnd as (Hnd & _ & _).
    do 4 apply NoDup_app in Hnd as (_ & _ & Hnd). done. }
  assert (NoDup (dict_values (slot_to_id st))) as Hvalues.
  { rewrite <-(initial_ids o h data cb0 Hb) in Hids.
    apply (NoDup_submseteq_inv _ _ Hsub) in Hids as Hnd'.
    unfold all_ids, in_flight in Hnd'. rewrite !fmap_app in Hnd'.
    do 5 apply NoDup_app in Hnd' as (_ & _ & Hnd'). done. }
  split; [intros ???; by apply NoDup_keys_functional|]. split; [done|].
  split; [intros ???; by apply NoDup_values_injective|]. split.
  - intros slot Hfree Hocc. unfold all_slots, in_flight in Hnd.
    apply NoDup_app in Hnd as (_ & Hdisj & _). apply (Hdisj slot Hfree).
    rewrite !fmap_app, !elem_of_app. auto 10.
  - intros tr1 slot tr2 ->.
    destruct (execution_prefix _ _ _ _ _ _ _ Hexec) as (st1 & st2 & Hexec1 & Hstep).
    destruct (execution_invariant _ _ _ _ _ Hexec1 Hnd0 Hwf0)
      as (Hnd1 & Hwf1 & _ & _ & Hheld).
    inversion Hstep as [t ? ? ? Hts]; subst.
    destruct (thread_step_ok _ _ _ _ _ _ Hnd1 Hwf1 Hts) as (_ & _ & _ & _ & Hl).
    apply Hheld; [intros ? _; apply not_elem_of_nil|].
    rewrite Hl. apply elem_of_app. right. by apply list_elem_of_singleton.
Qed.

Lemma pair_reached_execution :
  execution never_stop never_stop pair_run pair_reached.1 pair_reached.2.
Proof. apply run_schedule_execution with pair_schedule. vm_compute. reflexivity. Qed.

Lemma C5_slot_exclusivity_witness :
  NoDup (dict_keys (slot_to_id pair_reached.2))
  ∧ dict_values (slot_to_id pair_reached.2) = ["a"; "b"]
  ∧ pair_reached.1 = [Acquire 1; Tau; Acquire 0; Tau; Tau; Tau; Tau; Tau; Tau; Tau].
Proof.
  split; [|split; vm_compute; reflexivity].
  refine (proj1 (proj2 (@C5_slot_exclusivity counting_engine unit never_stop never_stop
    (warmup 1024 (fresh_object false 2 1024 1024))
    (λ r, request (if decide (r = 0%nat) then "a" else "b") 128 100)
    [0%nat; 1%nat] tt pair_reached.1 pair_reached.2 _ _ _))).
  - reflexivity.
  - apply (bool_decide_unpack _). vm_compute. reflexivity.
  - exact pair_reached_execution.
Defined.

Section request_frame.
Context `{Engine}.

Lemma evolved_same_length x x' :
  evolved x x' → padded_length x ≠ 64 → x' = x.
Proof.
  intros (Hi & Ht & Hk) Hlen. destruct Hk as [Hk|[Hlen' _]]; [|by destruct Hlen].
  destruct x, x'. cbn in *. by subst.
Qed.

Lemma flush_if_full_heap k (p : pstate) res p' :
  flush_if_full k p = (res, p') → heap p' = heap p.
Proof.
  intros Hrun. pose proof (flush_if_full_run k p res p' Hrun) as Hcases.
  cbv zeta in Hcases.
  assert (∀ flushed keep st0,
    heap st0 = heap p → flushed_leaving flushed keep k st0 p' → heap p' = heap p) as Hl.
  { intros flushed keep st0 Hh (st1 & (l & cs & _ & [_ Hh1] & _) & ->). cbn. congruence. }
  destruct (decide (_ >= _)); [|by destruct Hcases as [_ ->]].
  destruct (decide (_ ∧ _)).
  { destruct Hcases as [[_ Hf]|[_ ->]]; [|done]. exact (Hl _ _ (with_buckets _ p) eq_refl Hf). }
  destruct (decide (_ > _)); [|by destruct Hcases as [_ ->]].
  destruct (last _).
  - destruct Hcases as [[_ Hf]|[_ ->]]; [|done]. exact (Hl _ _ (with_buckets _ p) eq_refl Hf).
  - by destruct Hcases as [_ ->].
Qed.

(** A request of padded length 64 that reaches the bucketing stage. *)
Lemma serve_row_extends slot row (p p1 : pstate) res p' :
  serve_row slot row p = (res, p') →
  enable_batch_prefill (self p) = true →
  padded_length (heap p row) = 64 →
  max_prefill_length (self p) ≠ 64 →
  flush_half 32 p = (Ok (), p1) →
  heap p' row = zero_extended (heap p row)
  ∧ padded_length (heap p' row) = 128
  ∧ (slot, row) ∈ dd_get 128 (prefill_buckets (self (bucketed slot row 64 p1)))
  ∧ flush_if_full 128 (bucketed slot row 64 p1) = (res, p').
Proof.
  intros Hrun Hen Hlen Hmax Hhalf. rewrite serve_row_unfold in Hrun.
  cbv zeta in Hrun. rewrite Hen, Hlen in Hrun.
  change (64 `div` 2) with 32 in Hrun. rewrite Hhalf in Hrun.
  rewrite decide_False in Hrun by (intros Heq; by rewrite <-Heq in Hmax).
  change (bucket_key 64) with 128 in Hrun.
  destruct (flush_half_config _ _ _ _ Hhalf) as (_ & _ & _ & Hh1).
  rewrite (flush_if_full_heap _ _ _ _ Hrun).
  assert (heap (bucketed slot row 64 p1) row = zero_extended (heap p row)) as Hext.
  { unfold bucketed. cbn [heap]. rewrite decide_True by done.
    unfold store_set. rewrite decide_True by done. by rewrite Hh1. }
  split; [done|]. split.
  - rewrite Hext. unfold padded_length, zero_extended in *. cbn [tokens].
    rewrite length_app, length_replicate. lia.
  - split; [|done]. rewrite buckets_bucketed. change (bucket_key 64) with 128.
    rewrite dd_get_set_eq. apply elem_of_app. right. by apply list_elem_of_singleton.
Qed.
End request_frame.

(** C9: along every execution of a call that starts with empty buckets,
    every request object keeps its identity and its true length, and its
    token sequence is either what was submitted or, for a request of padded
    length 64, what was submitted followed by 64 zeros; a request of any
    other padded length is left exactly as submitted.  And the exception
    does occur: whenever [serve_row] gets a request of padded length 64 to
    the bucketing stage (batching enabled, 64 not the maximum, the flush of
    the 32 bucket returned), it leaves the request zero-extended to length
    128, with its pair appended to the bucket for 128 before the
    full-bucket check. *)
Theorem C9_requests_unchanged `{Engine} {CB : Type}
    (emit_first_token emit_token : string → Z → CB → bool * CB)
    (o : OfflineInference) (h : store) (data : list ref) (cb0 : CB)
    (tr : list label) (st : state) :
  prefill_buckets o = [] →
  execution emit_first_token emit_token (initial o h data cb0) tr st →
  (∀ r, id (heap (prod st) r) = id (h r)
        ∧ true_length (heap (prod st) r) = true_length (h r)
        ∧ (tokens (heap (prod st) r) = tokens (h r)
           ∨ (padded_length (h r) = 64
              ∧ tokens (heap (prod st) r) = tokens (h r) ++ replicate 64 0))
        ∧ (padded_length (h r) ≠ 64 → heap (prod st) r = h r))
  ∧ (∀ slot row (p p1 : pstate) res p',
       serve_row slot row p = (res, p') →
       enable_batch_prefill (self p) = true →
       padded_length (heap p row) = 64 →
       max_prefill_length (self p) ≠ 64 →
       flush_half 32 p = (Ok (), p1) →
       heap p' row = zero_extended (heap p row)
       ∧ padded_length (heap p' row) = 128
       ∧ (slot, row) ∈ dd_get 128 (prefill_buckets (self (bucketed slot row 64 p1)))
       ∧ flush_if_full 128 (bucketed slot row 64 p1) = (res, p')).
Proof.
  intros Hb Hexec. split; [|apply serve_row_extends].
  pose proof (initial_slots o h data cb0 Hb) as Hnd0.
  assert (wf_buckets (initial o h data cb0)) as Hwf0.
  { intros _. cbn. rewrite Hb. constructor. }
  destruct (execution_invariant _ _ _ _ _ Hexec Hnd0 Hwf0) as (_ & _ & _ & Hev & _).
  intros r. specialize (Hev r). cbn [initial prod heap] in Hev.
  destruct (Hev) as (Hi & Ht & Hk). split; [done|]. split; [done|]. split; [done|].
  by apply evolved_same_length.
Qed.

Lemma C9_requests_unchanged_witness :
  (∀ r, heap (prod pair_reached.2) r
        = request (if decide (r = 0%nat) then "a" else "b") 128 100)
  ∧ tokens (heap (@serve_row counting_engine 0%nat 0%nat short_request_state).2 0%nat)
    = replicate 64 1 ++ replicate 64 0.
Proof.
  pose proof (@C9_requests_unchanged counting_engine unit never_stop never_stop
    (warmup 1024 (fresh_object false 2 1024 1024))
    (λ r, request (if decide (r = 0%nat) then "a" else "b") 128 100)
    [0%nat; 1%nat] tt pair_reached.1 pair_reached.2 eq_refl pair_reached_execution)
    as [Hframe Hextend].
  split.
  - intros r. apply Hframe. vm_compute. discriminate.
  - destruct (Hextend 0%nat 0%nat short_request_state
                (@flush_half counting_engine 32 short_request_state).2
                (@serve_row counting_engine 0%nat 0%nat short_request_state).1
                (@serve_row counting_engine 0%nat 0%nat short_request_state).2)
      as (Hheap & _).
    + vm_compute. reflexivity.
    + reflexivity.
    + vm_compute. reflexivity.
    + vm_compute. discriminate.
    + vm_compute. reflexivity.
    + rewrite Hheap. reflexivity.
Defined.

(** ** Buckets other than the one a request goes to *)

Section other_buckets.
Context `{Engine}.
Implicit Types (p : pstate).

Lemma flushed_leaving_other flushed keep k p p' L :
  flushed_leaving flushed keep k p p' → k ≠ L →
  dd_get L (prefill_buckets (self p')) = dd_get L (prefill_buckets (self p)).
Proof.
  intros (st1 & _ & ->) Hne. rewrite buckets_with_buckets. by rewrite dd_get_set_ne.
Qed.

Lemma touched_other k p L :
  dd_get L (prefill_buckets (self (touched k p))) = dd_get L (prefill_buckets (self p)).
Proof. unfold touched. by rewrite buckets_with_buckets, dd_get_touch. Qed.

Lemma prefill_one_buckets slot row padded_len p res p' :
  prefill_one slot row padded_len p = (res, p') →
  prefill_buckets (self p') = prefill_buckets (self p).
Proof.
  intros Hrun. destruct (prefill_one_run slot row padded_len p)
    as [[e He]|(st1 & Hst1 & Hf)]; rewrite Hrun in *.
  - by injection He as _ ->.
  - injection Hst1 as _ ->. destruct Hf as (_ & _ & _ & Hk & _). by apply kept_buckets.
Qed.

Lemma flush_half_other k p res p' L :
  flush_half k p = (res, p') → k ≠ L →
  dd_get L (prefill_buckets (self p')) = dd_get L (prefill_buckets (self p)).
Proof.
  intros Hrun Hne. destruct (flush_half_run k p res p' Hrun)
    as [(_ & _ & ->)|[(_ & _ & Hf)|(_ & _ & ->)]].
  - apply touched_other.
  - rewrite (flushed_leaving_other _ _ _ _ _ _ Hf Hne). apply touched_other.
  - apply touched_other.
Qed.

Lemma flush_if_full_other k p res p' L :
  flush_if_full k p = (res, p') → k ≠ L →
  dd_get L (prefill_buckets (self p')) = dd_get L (prefill_buckets (self p)).
Proof.
  intros Hrun Hne. pose proof (flush_if_full_run k p res p' Hrun) as Hcases.
  cbv zeta in Hcases. fold (touched k p) in Hcases.
  destruct (decide (_ >= _)); [|destruct Hcases as [_ ->]; apply touched_other].
  destruct (decide (_ ∧ _)).
  { destruct Hcases as [[_ Hf]|[_ ->]]; [|apply touched_other].
    rewrite (flushed_leaving_other _ _ _ _ _ _ Hf Hne). apply touched_other. }
  destruct (decide (_ > _)); [|destruct Hcases as [_ ->]; apply touched_other].
  destruct (last _).
  - destruct Hcases as [[_ Hf]|[_ ->]]; [|apply touched_other].
    rewrite (flushed_leaving_other _ _ _ _ _ _ Hf Hne). apply touched_other.
  - destruct Hcases as [_ ->]. apply touched_other.
Qed.

(** Serving a request leaves alone every bucket but the one for half its
    padded length and the one it is appended to. *)
Lemma serve_row_other_bucket slot row p res p' L :
  serve_row slot row p = (res, p') →
  padded_length (heap p row) `div` 2 ≠ L →
  bucket_key (padded_length (heap p row)) ≠ L →
  dd_get L (prefill_buckets (self p')) = dd_get L (prefill_buckets (self p)).
Proof.
  rewrite serve_row_unfold. cbv zeta. intros Hrun Hhalf Hkey.
  destruct (enable_batch_prefill (self p));
    [|by rewrite (prefill_one_buckets _ _ _ _ _ _ Hrun)].
  destruct (flush_half _ p) as [[[]|e] p1] eqn:Hh.
  - rewrite <-(flush_half_other _ _ _ _ L Hh Hhalf).
    destruct (decide (_ = _)).
    + by rewrite (prefill_one_buckets _ _ _ _ _ _ Hrun).
    + rewrite (flush_if_full_other _ _ _ _ L Hrun Hkey).
      rewrite buckets_bucketed. by rewrite dd_get_set_ne, dd_get_touch.
  - injection Hrun as _ <-. by apply (flush_half_other _ _ _ _ L Hh).
Qed.

Lemma decode_buckets p res p' :
  decode p = (res, p') → prefill_buckets (self p') = prefill_buckets (self p).
Proof. intros Hrun. destruct (decode_run _ _ _ Hrun) as (Hk & _). by apply kept_buckets. Qed.
End other_buckets.

(** C2, as stated, fails in its last clause.  The 128 bucket of
    [waiting_state] is full (8 * 128 = 1024) with a total true length of 800,
    at most 1024 − 64, so the check leaves it as it is.  A later request of
    padded length 256, not of the same length, then flushes it, since the
    loop flushes the bucket for half the padded length first: the bucket
    does not wait for a request of its own length or the end of input. *)
Lemma C2_counterexample :
  let st := waiting_state in
  let bucket := dd_get 128 (prefill_buckets (self st)) in
  Z.of_nat (length bucket) * 128 >= max_prefill_length (self st)
  ∧ total_true_length (heap st) bucket <= max_prefill_length (self st) - 128 `div` 2
  ∧ (@flush_if_full counting_engine 128 st).1 = Ok ()
  ∧ dd_get 128 (prefill_buckets (self (@flush_if_full counting_engine 128 st).2)) = bucket
  ∧ padded_length (heap st 8%nat) = 256
  ∧ (@serve_row counting_engine 8%nat 8%nat st).1 = Ok ()
  ∧ dd_get 128 (prefill_buckets (self (@serve_row counting_engine 8%nat 8%nat st).2)) = []
  ∧ calls (@serve_row counting_engine 8%nat 8%nat st).2
    = [CallPrefillBatch (PrefillInsertBatch 1024 128 8) bucket].
Proof. vm_compute. repeat split; congruence. Qed.

(** C2 (amended): take a bucket of padded length L that an append has
    just brought to [len(bucket) * L >= max_prefill_length], and let T be
    the sum of its members' true lengths.  Whenever the check made at that
    point returns: if [max − L // 2 < T <= max], the whole bucket went
    through one [prefill_batch] call (a single batched compiled call when L
    is below the maximum) and the bucket is then empty; if [T > max], every
    member but the last went through one [prefill_batch] call and the bucket
    is then just the last member; if [T <= max − L // 2], nothing happened
    at all.  Afterwards the bucket stays as it is through every decode call
    and through every request served that is neither appended to this
    bucket nor of a padded length whose half is L. *)
Theorem C2_full_bucket_outcomes `{Engine} (padded_len : Z) (st st' : pstate) :
  let bucket := dd_get padded_len (prefill_buckets (self st)) in
  let maximum := max_prefill_length (self st) in
  let total := total_true_length (heap st) bucket in
  0 <= padded_len →
  bucket ≠ [] →
  Z.of_nat (length bucket) * padded_len >= maximum →
  flush_if_full padded_len st = (Ok (), st') →
  (maximum - padded_len `div` 2 < total ∧ total <= maximum →
     flushed_leaving bucket [] padded_len st st'
     ∧ dd_get padded_len (prefill_buckets (self st')) = []
     ∧ (enable_batch_prefill (self st) = true → padded_len ≠ maximum →
        ∃ fn, calls st' = calls st ++ [CallPrefillBatch fn bucket]))
  ∧ (total > maximum →
       ∃ current, last bucket = Some current
         ∧ flushed_leaving (removelast bucket) [current] padded_len st st'
         ∧ dd_get padded_len (prefill_buckets (self st')) = [current])
  ∧ (total <= maximum - padded_len `div` 2 → st' = st)
  ∧ (∀ slot row (p : pstate) res p',
       serve_row slot row p = (res, p') →
       padded_length (heap p row) `div` 2 ≠ padded_len →
       bucket_key (padded_length (heap p row)) ≠ padded_len →
       dd_get padded_len (prefill_buckets (self p'))
       = dd_get padded_len (prefill_buckets (self p)))
  ∧ (∀ (p : pstate) res p',
       decode p = (res, p') →
       prefill_buckets (self p') = prefill_buckets (self p)).
Proof.
  cbv zeta. intros Hlen Hne Hfull Hrun.
  destruct (full_bucket_outcomes padded_len st st' Hlen Hne Hfull Hrun) as (Ha & Hb & Hc).
  split; [done|]. split; [done|]. split; [done|].
  split; [intros slot row p res p'; apply serve_row_other_bucket|apply decode_buckets].
Qed.

Lemma C2_full_bucket_outcomes_witness :
  (let st := full_bucket_state 256 4 (λ _, request "r" 256 250) in
   flushed_leaving [(0, 0); (1, 1); (2, 2); (3, 3)]%nat [] 256 st
     (@flush_if_full counting_engine 256 st).2)
  ∧ (let st := full_bucket_state 256 5 (λ _, request "r" 256 250) in
     dd_get 256 (prefill_buckets (self (@flush_if_full counting_engine 256 st).2))
     = [(4, 4)]%nat)
  ∧ (let st := full_bucket_state 256 4 (λ _, request "r" 256 200) in
     (@flush_if_full counting_engine 256 st).2 = st).
Proof.
  split; [|split]; intros st.
  - destruct (@C2_full_bucket_outcomes counting_engine 256 st
                (@flush_if_full counting_engine 256 st).2) as (Ha & _ & _).
    + lia.
    + discriminate.
    + vm_compute. congruence.
    + vm_compute. reflexivity.
    + apply Ha. vm_compute. split; congruence.
  - destruct (@C2_full_bucket_outcomes counting_engine 256 st
                (@flush_if_full counting_engine 256 st).2) as (_ & Hb & _).
    + lia.
    + discriminate.
    + vm_compute. congruence.
    + vm_compute. reflexivity.
    + destruct Hb as (current & Hlast & _ & Hkeep); [vm_compute; reflexivity|].
      injection Hlast as <-. exact Hkeep.
  - destruct (@C2_full_bucket_outcomes counting_engine 256 st
                (@flush_if_full counting_engine 256 st).2) as (_ & _ & Hc & _).
    + lia.
    + discriminate.
    + vm_compute. congruence.
    + vm_compute. reflexivity.
    + apply Hc. vm_compute. congruence.
Defined.

(** ** The consumer, one queue entry at a time *)

Section detokenize_facts.
Context `{Engine} {CB : Type}.
Variable emit_first_token : string → Z → CB → bool * CB.
Variable emit_token : string → Z → CB → bool * CB.
Implicit Types (st : @state _ CB).

Lemma finish_entry_done fuel st :
  between_entries (cpc st) →
  finish_entry emit_first_token emit_token fuel st = st.
Proof. destruct fuel; [done|]. cbn. by destruct (cpc st). Qed.

Lemma finish_entry_more fuel extra st :
  between_entries (cpc (finish_entry emit_first_token emit_token fuel st)) →
  finish_entry emit_first_token emit_token (fuel + extra) st
  = finish_entry emit_first_token emit_token fuel st.
Proof.
  revert st. induction fuel as [|fuel IH]; intros st Hdone.
  - cbn [finish_entry Nat.add] in *. by apply finish_entry_done.
  - cbn [finish_entry Nat.add] in *. destruct (cpc st); try done;
      destruct (consumer_step _ _ st) as [[l st']|]; try done; by apply IH.
Qed.

Lemma scan_slots_freed mdl (rt : ResultTokens) (items : list (nat * string))
    (c : CB) (ne : list nat) :
  ∃ freed, (scan_slots emit_token mdl rt items c ne).2 = ne ++ freed
           ∧ freed `sublist_of` items.*1.
Proof.
  revert c ne. induction items as [|[slot id_] items IH]; intros c ne; cbn.
  - exists []. by rewrite app_nil_r.
  - destruct (rt slot) as [[token is_valid] len].
    destruct (if decide (is_valid ≠ 0) then emit_token id_ token c else (false, c))
      as [should_finish c'].
    destruct (should_finish || bool_decide (len >= mdl)).
    + destruct (IH c' (ne ++ [slot])) as (freed & -> & Hsub).
      exists (slot :: freed). rewrite <-app_assoc. split; [done|]. by constructor.
    + destruct (IH c' ne) as (freed & -> & Hsub).
      exists freed. split; [done|]. by constructor.
Qed.

Lemma dict_keys_del_other {V} (k k' : nat) (d : dict nat V) :
  k' ≠ k → k' ∈ dict_keys d → k' ∈ dict_keys (dict_del k d).
Proof.
  unfold dict_keys. intros Hne. induction d as [|[k0 v0] d IH]; cbn; [done|].
  case_decide as Hk.
  - subst. intros [?|?]%elem_of_cons; done.
  - cbn. rewrite !elem_of_cons. intros [?|?]; [by left|right; auto].
Qed.

Lemma finish_entry_step fuel st l st1 :
  ¬ between_entries (cpc st) → cpc st ≠ CGet →
  consumer_step emit_first_token emit_token st = Some (l, st1) →
  finish_entry emit_first_token emit_token (S fuel) st
  = finish_entry emit_first_token emit_token fuel st1.
Proof.
  intros Hpc Hget Hstep. cbn [finish_entry]. rewrite Hstep.
  destruct (cpc st) eqn:Hc; try done; cbn in Hpc; try tauto.
  unfold consumer_step in Hstep. by rewrite Hc in Hstep.
Qed.

(** The release loop of lines 382-385, with its closing test. *)
Lemma release_loop newly_empty todo st :
  cpc st = CRelease newly_empty todo →
  NoDup todo →
  (∀ s, s ∈ todo → s ∈ dict_keys (slot_to_id st)) →
  ∃ st', finish_entry emit_first_token emit_token (2 * length todo + 1)%nat st = st'
    ∧ cpc st' = (if drained newly_empty (detokenize_backlog st) (slot_to_id st')
                 then CExited else CTop)
    ∧ slot_to_id st' = foldl (λ d s, dict_del s d) (slot_to_id st) todo
    ∧ detokenize_backlog st' = detokenize_backlog st
    ∧ empty_slots st' = empty_slots st ++ todo.
Proof.
  revert st. induction todo as [|s todo IH]; intros st Hpc Hnd Hin.
  - eexists. split; [reflexivity|]. cbn [length Nat.mul Nat.add].
    erewrite finish_entry_step; [| | |unfold consumer_step; rewrite Hpc; reflexivity];
      [|rewrite Hpc; by intros []|by rewrite Hpc].
    cbn. rewrite app_nil_r. by destruct (drained _ _ _).
  - replace (2 * length (s :: todo) + 1)%nat
      with (S (S (2 * length todo + 1))) by (cbn; lia).
    destruct (dict_lookup s (slot_to_id st)) as [v|] eqn:Hv.
    2: { apply dict_lookup_None in Hv. exfalso. apply Hv, Hin, list_elem_of_here. }
    apply NoDup_cons in Hnd as [Hs Hnd].
    erewrite finish_entry_step;
      [| | |unfold consumer_step; rewrite Hpc, Hv; reflexivity];
      [|rewrite Hpc; by intros []|by rewrite Hpc].
    erewrite finish_entry_step; [| | |reflexivity]; [|by intros []|done].
    match goal with |- context [finish_entry _ _ _ ?st1] =>
      destruct (IH st1) as (st' & Hrun & Hc & Hd & Hq & He) end; [done|done| |].
    { intros s' Hs'. cbn. apply dict_keys_del_other; [by intros ->|].
      apply Hin. by apply list_elem_of_further. }
    exists st'. cbn [detokenize_backlog empty_slots slot_to_id] in *.
    split; [done|]. split; [done|]. split; [done|]. split; [done|].
    by rewrite He, <-app_assoc.
Qed.
End detokenize_facts.

(** Where the [detokenize] thread goes from each point of its loop. *)
Lemma detokenize_control `{Engine} {CB : Type}
    (emit_first_token emit_token : string → Z → CB → bool * CB) (st : state) :
  (∀ newly_empty, cpc st = CRelease newly_empty [] →
     ∃ st', consumer_step emit_first_token emit_token st = Some (Tau, st')
       ∧ (cpc st' = CExited
          ↔ newly_empty ≠ [] ∧ detokenize_backlog st = [] ∧ slot_to_id st = [])
       ∧ (cpc st' ≠ CExited → cpc st' = CTop))
  ∧ (∀ result_tokens, cpc st = CStep result_tokens →
     ∃ st', consumer_step emit_first_token emit_token st = Some (Tau, st')
       ∧ let newly_empty :=
           (scan_slots emit_token (max_decode_length (self (prod st))) result_tokens
              (slot_to_id st) (cb st) []).2 in
         cpc st' = CRelease newly_empty newly_empty)
  ∧ (∀ newly_empty slot todo, cpc st = CRelease newly_empty (slot :: todo) →
     slot ∈ dict_keys (slot_to_id st) →
     ∃ st', consumer_step emit_first_token emit_token st = Some (Tau, st')
       ∧ cpc st' = CAppend newly_empty slot todo)
  ∧ (∀ newly_empty slot todo, cpc st = CAppend newly_empty slot todo →
     ∃ st', consumer_step emit_first_token emit_token st = Some (Release slot, st')
       ∧ cpc st' = CRelease newly_empty todo)
  ∧ (∀ first_token row_id slot, cpc st = CFirst first_token row_id slot →
     ∃ l st', consumer_step emit_first_token emit_token st = Some (l, st')
       ∧ cpc st' = CTop)
  ∧ (cpc st = CTop →
     ∃ st', consumer_step emit_first_token emit_token st = Some (Tau, st')
       ∧ cpc st' = if live st then CGet else CExited)
  ∧ (cpc st = CGet →
     (consumer_step emit_first_token emit_token st = None ↔ detokenize_backlog st = [])
     ∧ ∀ l st', consumer_step emit_first_token emit_token st = Some (l, st') →
         ∃ e, detokenize_backlog st = e :: detokenize_backlog st'
              ∧ cpc st' = match e with
                          | FirstTokenEntry first_token row_id slot =>
                              CFirst first_token row_id slot
                          | StepEntry result_tokens => CStep result_tokens
                          end)
  ∧ (cpc st = CExited → consumer_step emit_first_token emit_token st = None).
Proof.
  split; [|split; [|split; [|split; [|split; [|split; [|split]]]]]].
  - intros newly_empty Hpc. unfold consumer_step. rewrite Hpc.
    eexists. split; [reflexivity|]. cbn [cpc consumer_at].
    unfold drained. split.
    + split.
      * destruct (bool_decide (newly_empty ≠ [])) eqn:H1;
          destruct (bool_decide (length (detokenize_backlog st) = 0%nat)) eqn:H2;
          destruct (bool_decide (length (slot_to_id st) = 0%nat)) eqn:H3; try done.
        intros _. apply bool_decide_eq_true_1 in H1, H2, H3.
        split; [done|]. split; by apply length_zero_iff_nil.
      * intros (H1 & H2 & H3). rewrite H2, H3. cbn [length].
        rewrite !bool_decide_eq_true_2; done.
    + by destruct (_ && _).
  - intros result_tokens Hpc. unfold consumer_step. rewrite Hpc.
    destruct (scan_slots _ _ _ _ _ _) as [c newly_empty]. eexists. split; reflexivity.
  - intros newly_empty slot todo Hpc Hslot. unfold consumer_step. rewrite Hpc.
    destruct (dict_lookup slot (slot_to_id st)) as [v|] eqn:Hv.
    + eexists. split; reflexivity.
    + apply dict_lookup_None in Hv. done.
  - intros newly_empty slot todo Hpc. unfold consumer_step. rewrite Hpc.
    eexists. split; reflexivity.
  - intros first_token row_id slot Hpc. unfold consumer_step. rewrite Hpc.
    destruct (emit_first_token row_id first_token (cb st)) as [[] c];
      do 2 eexists; split; reflexivity.
  - intros Hpc. unfold consumer_step. rewrite Hpc. eexists. split; reflexivity.
  - intros Hpc. unfold consumer_step. rewrite Hpc. split.
    + destruct (detokenize_backlog st); split; done.
    + intros l st'. destruct (detokenize_backlog st) as [|e rest]; [done|].
      intros [= <- <-]. exists e. split; reflexivity.
  - intros Hpc. unfold consumer_step. by rewrite Hpc.
Qed.

Section detokenize_entry.
Context `{Engine} {CB : Type}.
Variable emit_first_token : string → Z → CB → bool * CB.
Variable emit_token : string → Z → CB → bool * CB.
Implicit Types (st : @state _ CB).

Lemma drained_true newly_empty (backlog : list entry) (occupied : dict nat string) :
  drained newly_empty backlog occupied = true
  ↔ newly_empty ≠ [] ∧ backlog = [] ∧ occupied = [].
Proof.
  unfold drained. rewrite !andb_true_iff, !bool_decide_eq_true.
  rewrite !length_zero_iff_nil. tauto.
Qed.

(** One entry processed by the consumer on its own. *)
Lemma detokenize_entry st e rest :
  cpc st = CGet →
  detokenize_backlog st = e :: rest →
  NoDup (dict_keys (slot_to_id st)) →
  ∃ st1 fuel,
    consumer_step emit_first_token emit_token st = Some (Tau, st1)
    ∧ ∀ fuel', (fuel <= fuel')%nat →
        let st' := finish_entry emit_first_token emit_token fuel' st1 in
        (cpc st' = CExited ∨ cpc st' = CTop)
        ∧ detokenize_backlog st' = rest
        ∧ (cpc st' = CExited
           ↔ ∃ result_tokens,
               e = StepEntry result_tokens
               ∧ freed_by emit_token result_tokens st ≠ []
               ∧ rest = [] ∧ slot_to_id st' = [])
        ∧ (∀ result_tokens, e = StepEntry result_tokens →
             slot_to_id st'
             = foldl (λ d s, dict_del s d) (slot_to_id st)
                 (freed_by emit_token result_tokens st)
             ∧ empty_slots st'
               = empty_slots st ++ freed_by emit_token result_tokens st).
Proof.
  intros Hpc Hq Hnd. unfold consumer_step at 1. rewrite Hpc, Hq.
  destruct e as [first_token row_id slot|result_tokens];
    match goal with |- context [Some (Tau, ?st1)] => set (s1 := st1) end;
    exists s1.
  - (* a first-token entry *)
    exists 1%nat. split; [reflexivity|]. intros fuel' Hfuel.
    replace fuel' with (1 + (fuel' - 1))%nat by lia.
    assert (∃ l s2, consumer_step emit_first_token emit_token s1 = Some (l, s2)
                    ∧ cpc s2 = CTop ∧ detokenize_backlog s2 = rest) as (l & s2 & Hs & Hc & Hb).
    { unfold consumer_step, s1. cbn [cpc cb].
      destruct (emit_first_token row_id first_token (cb st)) as [[] c];
        do 2 eexists; (split; [reflexivity|]); done. }
    assert (finish_entry emit_first_token emit_token 1 s1 = s2) as Hrun.
    { erewrite finish_entry_step; [done| | |exact Hs]; [by intros []|done]. }
    rewrite finish_entry_more by (rewrite Hrun, Hc; done). rewrite Hrun. cbv zeta.
    split; [by right|]. split; [done|]. split; [|done].
    rewrite Hc. split; [done|]. by intros (? & [=] & _).
  - (* a step entry *)
    destruct (scan_slots_freed emit_token (max_decode_length (self (prod st)))
                result_tokens (slot_to_id st) (cb st) []) as (freed & Hfreed & Hsub).
    cbn [app] in Hfreed. fold (freed_by emit_token result_tokens st) in Hfreed.
    pose (s2 := mkState (prod st) (ppc st) (live st) rest (empty_slots st) (slot_to_id st)
                  (scan_slots emit_token (max_decode_length (self (prod st)))
                     result_tokens (slot_to_id st) (cb st) []).1
                  (CRelease freed freed)).
    assert (consumer_step emit_first_token emit_token s1 = Some (Tau, s2)) as Hs.
    { unfold consumer_step, s1, s2. cbn [cpc cb prod slot_to_id].
      unfold freed_by in Hfreed.
      destruct (scan_slots _ _ _ _ _ _) as [c ne]. cbn [fst snd] in *. by subst. }
    destruct (release_loop emit_first_token emit_token freed freed s2)
      as (s3 & Hrun & Hc & Hd & Hb & He); [done| | |].
    { eapply sublist_NoDup; [exact Hnd|exact Hsub]. }
    { intros s0 Hs0. cbn. eapply elem_of_sublist; [exact Hs0|exact Hsub]. }
    cbn [detokenize_backlog empty_slots slot_to_id s2] in Hc, Hd, Hb, He.
    exists (S (2 * length freed + 1)). split; [reflexivity|]. intros fuel' Hfuel.
    replace fuel' with (S (2 * length freed + 1) + (fuel' - S (2 * length freed + 1)))%nat
      by lia.
    assert (finish_entry emit_first_token emit_token (S (2 * length freed + 1)) s1 = s3)
      as Hrun'.
    { erewrite finish_entry_step; [exact Hrun| | |exact Hs]; [by intros []|done]. }
    rewrite finish_entry_more by (rewrite Hrun', Hc; by destruct (drained _ _ _)).
    rewrite Hrun'. cbv zeta.
    split; [rewrite Hc; destruct (drained _ _ _); auto|]. split; [done|].
    split; [|by intros ? [= <-]; rewrite Hfreed].
    rewrite Hc. split.
    + destruct (drained freed rest (slot_to_id s3)) eqn:Hdr; [|done]. intros _.
      apply drained_true in Hdr as (? & ? & ?). exists result_tokens.
      by rewrite Hfreed.
    + intros (rt & [= <-] & Hne & Hrest & Hocc). rewrite Hfreed in Hne.
      by rewrite (proj2 (drained_true freed rest (slot_to_id s3))).
Qed.
End detokenize_entry.

Section detokenize_interleaved.
Context `{Engine} {CB : Type}.
Variable emit_first_token : string → Z → CB → bool * CB.
Variable emit_token : string → Z → CB → bool * CB.
Implicit Types (st : @state _ CB) (p : pstate).

Lemma flush_leftovers_config p r p' :
  flush_leftovers p = (r, p') → config (self p') = config (self p).
Proof.
  unfold flush_leftovers. mrun. intros Hrun.
  destruct (for_each (dict_keys (prefill_buckets (self p))) flush_key p)
    as [[u|e] p1] eqn:Hkeys;
    destruct (flush_keys_run _ _ _ _ Hkeys) as (ks1 & cs1 & l1 & _ & _ & Hcfg & _);
    unfold flush_key in Hkeys; rewrite Hkeys in Hrun; revert Hrun; mrun;
    intros [= ? ?]; by subst.
Qed.

(** What the consumer can see of an action of the producer: entries
    added at the tail of the queue, nothing else. *)
Lemma producer_step_view st l st' :
  producer_step st = Some (l, st') →
  cpc st' = cpc st ∧ slot_to_id st' = slot_to_id st ∧ cb st' = cb st
  ∧ max_decode_length (self (prod st')) = max_decode_length (self (prod st))
  ∧ ∃ added, detokenize_backlog st' = detokenize_backlog st ++ added.
Proof.
  assert (∀ (m : M unit) next l0 st0,
            (∀ r p, m (prod st0) = (r, p) → config (self p) = config (self (prod st0))) →
            producer_run m next l0 st0 = (l, st') →
            cpc st' = cpc st0 ∧ slot_to_id st' = slot_to_id st0 ∧ cb st' = cb st0
            ∧ max_decode_length (self (prod st')) = max_decode_length (self (prod st0))
            ∧ ∃ added, detokenize_backlog st' = detokenize_backlog st0 ++ added)
    as Hrun.
  { intros m next l0 st0 Hm. unfold producer_run.
    destruct (m (prod st0)) as [[u|e] p] eqn:Hmp; intros [= <- <-]; cbn;
      specialize (Hm _ _ eq_refl); unfold config in Hm; injection Hm as _ _ _ Hmdl _ _ _ _;
      (split_and!; [done|done|done|done|exists []; by rewrite app_nil_r]). }
  unfold producer_step.
  destruct (outbox (prod st)) as [|e rest].
  - destruct (ppc st) as [[|row data]| | | |e].
    + intros [= Hm]. apply Hrun in Hm; [done|]. intros r p. apply flush_leftovers_config.
    + destruct (last (empty_slots st)) as [slot|]; intros [= Hm]; apply Hrun in Hm;
        try done.
      * intros r p Hrow. by destruct (serve_row_accounted _ _ _ _ _ Hrow) as (? & _).
      * intros r p Hdec. destruct (decode_run _ _ _ Hdec) as (Hk & _).
        by apply kept_config.
    + destruct (slot_to_id st) as [|occupied0 occupied] eqn:Hocc.
      * intros [= <- <-]. cbn. split_and!; try done. exists []. by rewrite app_nil_r.
      * rewrite <-Hocc. intros [= Hm]. apply Hrun in Hm; [done|].
        intros r p Hdec. destruct (decode_run _ _ _ Hdec) as (Hk & _).
        by apply kept_config.
    + destruct (cpc st); intros; simplify_eq; cbn; split_and!; try done;
        exists []; by rewrite app_nil_r.
    + done.
    + done.
  - case_decide; [|done]. intros [= <- <-]. cbn. split_and!; try done. by exists [e].
Qed.

Lemma dict_keys_dels_other {V} (done : list nat) (s : nat) (d : dict nat V) :
  s ∉ done → s ∈ dict_keys d →
  s ∈ dict_keys (foldl (λ d s, dict_del s d) d done).
Proof.
  revert d. induction done as [|s0 done IH]; intros d Hs Hin; [done|].
  apply not_elem_of_cons in Hs as [Hne Hs]. cbn [foldl]. apply IH; [done|].
  by apply dict_keys_del_other.
Qed.

Lemma freed_by_occupied (rt : ResultTokens) st :
  NoDup (dict_keys (slot_to_id st)) →
  NoDup (freed_by emit_token rt st)
  ∧ ∀ s, s ∈ freed_by emit_token rt st → s ∈ dict_keys (slot_to_id st).
Proof.
  intros Hnd.
  destruct (scan_slots_freed emit_token (max_decode_length (self (prod st)))
              rt (slot_to_id st) (cb st) []) as (freed & Hfreed & Hsub).
  unfold freed_by. rewrite Hfreed. cbn [app]. split.
  - by eapply sublist_NoDup.
  - intros s Hs. by eapply elem_of_sublist.
Qed.

Lemma iteration_between st st' :
  between_entries (cpc st) → iteration emit_first_token emit_token st st' → st' = st.
Proof. intros Hb Hit. by destruct Hit. Qed.

Lemma iteration_scanning rt st0 st st' :
  NoDup (dict_keys (slot_to_id st0)) →
  iteration emit_first_token emit_token st st' →
  scanning emit_token rt st0 st →
  ∃ st_test added,
    thread_step emit_first_token emit_token Consumer st_test = Some (Tau, st')
    ∧ cpc st_test = CRelease (freed_by emit_token rt st0) []
    ∧ detokenize_backlog st_test = detokenize_backlog st0 ++ added
    ∧ slot_to_id st_test
      = foldl (λ d s, dict_del s d) (slot_to_id st0) (freed_by emit_token rt st0).
Proof.
  intros Hnd Hit. destruct (freed_by_occupied rt st0 Hnd) as [Hfnd Hfocc].
  induction Hit as [st Hb|t st l st1 st' Hin Hstep Hit IH]; intros (Hmdl & Hq & Hpc).
  { destruct (cpc st); done. }
  destruct Hq as [added Hq].
  unfold thread_step in Hstep. destruct (alive st); [|done]. destruct t.
  - (* an action of the producer *)
    apply producer_step_view in Hstep as (Hc & Hocc & Hcb & Hmdl1 & added1 & Hq1).
    apply IH. split; [congruence|]. split.
    { exists (added ++ added1). by rewrite Hq1, Hq, app_assoc. }
    rewrite Hc, Hocc, Hcb. done.
  - (* an action of the consumer *)
    unfold consumer_step in Hstep.
    destruct (cpc st) as [| |first_token row_id slot|result_tokens
                          |newly_empty [|slot todo]|newly_empty slot todo| |e] eqn:Hcpc;
      try done.
    + (* the scan *)
      destruct Hpc as (-> & Hocc & Hcb).
      rewrite Hmdl, Hocc, Hcb in Hstep.
      destruct (scan_slots emit_token (max_decode_length (self (prod st0))) rt
                  (slot_to_id st0) (cb st0) []) as [c ne] eqn:Hscan.
      assert (ne = freed_by emit_token rt st0) as Hne.
      { unfold freed_by. by rewrite Hscan. }
      injection Hstep as <- <-. apply IH. split; [done|]. split; [by exists added|].
      cbn. split; [done|]. exists []. by rewrite <-Hocc.
    + (* the test of line 385 *)
      destruct Hpc as (-> & done & Hdone & Hocc). rewrite app_nil_r in Hdone. subst done.
      injection Hstep as <- <-.
      assert (st' = consumer_at
                (if drained (freed_by emit_token rt st0) (detokenize_backlog st)
                      (slot_to_id st)
                 then CExited else CTop) st) as ->.
      { apply iteration_between in Hit; [done|]. cbn. by destruct (drained _ _ _). }
      exists st, added. split; [|done].
      unfold thread_step, alive. rewrite Hcpc. unfold consumer_step. by rewrite Hcpc.
    + (* [del slot_to_id[slot]] *)
      destruct Hpc as (-> & done & Hdone & Hocc).
      assert (slot ∈ dict_keys (slot_to_id st)) as Hslot.
      { rewrite Hocc. apply dict_keys_dels_other.
        - rewrite Hdone in Hfnd. apply NoDup_app in Hfnd as (_ & Hdisj & _).
          intros Hd. apply (Hdisj _ Hd). by left.
        - apply Hfocc. rewrite Hdone. apply elem_of_app. right. by left. }
      destruct (dict_lookup slot (slot_to_id st)) as [v|] eqn:Hlook.
      2:{ by apply dict_lookup_None in Hlook. }
      injection Hstep as <- <-. apply IH. split; [done|]. split; [by exists added|].
      cbn. split; [done|]. exists done. split; [done|].
      by rewrite foldl_snoc, Hocc.
    + (* [empty_slots.append(slot)] *)
      destruct Hpc as (-> & done & Hdone & Hocc).
      injection Hstep as <- <-. apply IH. split; [done|]. split; [by exists added|].
      cbn. split; [done|]. exists (done ++ [slot]). split; [|done].
      by rewrite <-app_assoc.
Qed.

Lemma iteration_first_token st st' first_token row_id slot :
  iteration emit_first_token emit_token st st' →
  cpc st = CFirst first_token row_id slot →
  cpc st' = CTop.
Proof.
  induction 1 as [st Hb|t st l st1 st' Hin Hstep Hit IH]; intros Hpc.
  { by rewrite Hpc in Hb. }
  unfold thread_step in Hstep. destruct (alive st); [|done]. destruct t.
  - apply producer_step_view in Hstep as (Hc & _). apply IH. congruence.
  - unfold consumer_step in Hstep. rewrite Hpc in Hstep.
    destruct (emit_first_token row_id first_token (cb st)) as [[] c];
      injection Hstep as <- <-; by apply iteration_between in Hit as ->.
Qed.
End detokenize_interleaved.

(** C7: when the [detokenize] loop is left, in runs of both threads.
    Take any run of the producer and the consumer from a state in which
    the consumer has just got an entry, up to the first state in which the
    consumer is between two entries again.  For a step entry the last
    action of that run is the consumer's test of line 385, and the
    consumer is then out of the loop exactly when the entry freed at least
    one slot, the queue is empty at the moment of the test (the queue as
    it was after the [get], followed by whatever the producer has put
    since) and no slot is occupied after the deletions; in every other
    case, and always for a first-token entry, it is back at
    [while self.live].  There it goes on to a blocking [get] if [live] is
    set and leaves if not; the [get] blocks exactly while the queue is
    empty and otherwise takes the oldest entry; out of the loop the thread
    takes no further step. *)
Theorem C7_detokenize_exit `{Engine} {CB : Type}
    (emit_first_token emit_token : string → Z → CB → bool * CB)
    (st0 st' : state) :
  iteration emit_first_token emit_token st0 st' →
  NoDup (dict_keys (slot_to_id st0)) →
  (∀ result_tokens, cpc st0 = CStep result_tokens →
     ∃ st_test added,
       thread_step emit_first_token emit_token Consumer st_test = Some (Tau, st')
       ∧ cpc st_test = CRelease (freed_by emit_token result_tokens st0) []
       ∧ detokenize_backlog st_test = detokenize_backlog st0 ++ added
       ∧ slot_to_id st_test
         = foldl (λ d s, dict_del s d) (slot_to_id st0)
             (freed_by emit_token result_tokens st0)
       ∧ (cpc st' = CExited
          ↔ freed_by emit_token result_tokens st0 ≠ []
            ∧ detokenize_backlog st_test = [] ∧ slot_to_id st_test = [])
       ∧ (cpc st' ≠ CExited → cpc st' = CTop))
  ∧ (∀ first_token row_id slot,
       cpc st0 = CFirst first_token row_id slot → cpc st' = CTop)
  ∧ (∀ st : state, cpc st = CTop →
       ∃ st2, consumer_step emit_first_token emit_token st = Some (Tau, st2)
              ∧ cpc st2 = if live st then CGet else CExited)
  ∧ (∀ st : state, cpc st = CGet →
       (consumer_step emit_first_token emit_token st = None
        ↔ detokenize_backlog st = [])
       ∧ ∀ e rest, detokenize_backlog st = e :: rest →
           ∃ st1, consumer_step emit_first_token emit_token st = Some (Tau, st1)
                  ∧ detokenize_backlog st1 = rest
                  ∧ slot_to_id st1 = slot_to_id st
                  ∧ cpc st1 = match e with
                              | FirstTokenEntry first_token row_id slot =>
                                  CFirst first_token row_id slot
                              | StepEntry result_tokens => CStep result_tokens
                              end)
  ∧ (∀ st : state, cpc st = CExited →
       consumer_step emit_first_token emit_token st = None).
Proof.
  intros Hit Hnd. split; [|split; [|split; [|split]]].
  - intros rt Hpc.
    destruct (iteration_scanning emit_first_token emit_token rt st0 st0 st' Hnd Hit)
      as (st_test & added & Hstep & Htest & Hq & Hocc).
    { split; [done|]. split; [exists []; by rewrite app_nil_r|]. by rewrite Hpc. }
    exists st_test, added. split_and!; try done.
    + unfold thread_step, alive in Hstep. rewrite Htest in Hstep.
      unfold consumer_step in Hstep. rewrite Htest in Hstep.
      injection Hstep as <-. cbn [cpc consumer_at].
      rewrite <-drained_true. by destruct (drained _ _ _).
    + unfold thread_step, alive in Hstep. rewrite Htest in Hstep.
      unfold consumer_step in Hstep. rewrite Htest in Hstep.
      injection Hstep as <-. cbn [cpc consumer_at]. by destruct (drained _ _ _).
  - intros first_token row_id slot Hpc.
    by eapply iteration_first_token.
  - intros st Hpc. by apply (detokenize_control emit_first_token emit_token st).
  - intros st Hpc. split.
    + by apply (detokenize_control emit_first_token emit_token st).
    + intros e rest Hq. unfold consumer_step. rewrite Hpc, Hq. by eexists.
  - intros st Hpc. by apply (detokenize_control emit_first_token emit_token st).
Qed.

Lemma scanning_end_iteration :
  iteration never_stop never_stop scanning_state scanning_end.
Proof.
  eapply (iteration_step _ _ Consumer); [by intros []|vm_compute; reflexivity|].
  eapply (iteration_step _ _ Consumer); [by intros []|vm_compute; reflexivity|].
  eapply (iteration_step _ _ Consumer); [by intros []|vm_compute; reflexivity|].
  eapply (iteration_step _ _ Consumer); [by intros []|vm_compute; reflexivity|].
  apply iteration_done. exact I.
Qed.

Lemma C7_detokenize_exit_witness :
  cpc scanning_end = CExited
  ∧ freed_by never_stop (λ _, (5, 1, 1024)) scanning_state ≠ []
  ∧ empty_slots scanning_end = [0%nat; 1%nat].
Proof.
  destruct (@C7_detokenize_exit counting_engine unit never_stop never_stop
              scanning_state scanning_end scanning_end_iteration)
    as (Hstep & _).
  - apply (bool_decide_unpack _). vm_compute. reflexivity.
  - destruct (Hstep (λ _, (5, 1, 1024)) eq_refl)
      as (st_test & added & _ & _ & _ & _ & Hexit & _).
    split; [reflexivity|]. split; [|reflexivity].
    apply Hexit. reflexivity.
Defined.

(** The exit depends on when the producer's [put] lands: in the same
    pass, with the same entry freeing the same slot and nothing else
    queued after the [get], the consumer is back at the loop head if the
    producer has put a result before the test. *)
Lemma exit_depends_on_schedule :
  iteration never_stop never_stop scanning_state scanning_late_end
  ∧ cpc scanning_late_end = CTop
  ∧ slot_to_id scanning_late_end = []
  ∧ length (detokenize_backlog scanning_late_end) = 1%nat.
Proof.
  split; [|by vm_compute].
  eapply (iteration_step _ _ Producer); [by intros []|vm_compute; reflexivity|].
  eapply (iteration_step _ _ Producer); [by intros []|vm_compute; reflexivity|].
  eapply (iteration_step _ _ Consumer); [by intros []|vm_compute; reflexivity|].
  eapply (iteration_step _ _ Consumer); [by intros []|vm_compute; reflexivity|].
  eapply (iteration_step _ _ Consumer); [by intros []|vm_compute; reflexivity|].
  eapply (iteration_step _ _ Consumer); [by intros []|vm_compute; reflexivity|].
  apply iteration_done. exact I.
Qed.


(** * Further properties *)

(** ** The buffers of the batched branch of [prefill] *)

(** X1: [pad_num_prompts_len_array] only ever appends zeros: the result
    has the length of the longer of the array and [pad_len], it starts
    with the array itself, everything after it is 0, and an array of
    [pad_len] or more entries comes back as it is, not cut. *)
Theorem pad_num_prompts_len_array_spec (array_to_pad : list Z) (pad_len : nat) :
  length (pad_num_prompts_len_array array_to_pad pad_len)
  = (length array_to_pad `max` pad_len)%nat
  ∧ take (length array_to_pad) (pad_num_prompts_len_array array_to_pad pad_len)
    = array_to_pad
  ∧ (∀ i, (length array_to_pad <= i < pad_len)%nat →
          pad_num_prompts_len_array array_to_pad pad_len !! i = Some 0)
  ∧ ((pad_len <= length array_to_pad)%nat →
     pad_num_prompts_len_array array_to_pad pad_len = array_to_pad).
Proof.
  unfold pad_num_prompts_len_array. case_decide as Hlt.
  - split; [rewrite length_app, length_replicate; lia|].
    split; [by rewrite take_app_length|].
    split; [|lia]. intros i Hi.
    rewrite lookup_app_r by lia. apply lookup_replicate_2. lia.
  - split; [lia|]. split; [by rewrite firstn_all|]. split; [lia|done].
Qed.

Lemma foldl_add_acc (a : Z) (l : list Z) : foldl Z.add a l = a + foldl Z.add 0 l.
Proof.
  revert a. induction l as [|x l IH]; intros a; cbn; [lia|].
  rewrite (IH (a + x)), (IH (0 + x)). lia.
Qed.

Lemma start_positions_lookup (acc : Z) (l : list Z) (i : nat) :
  (i < length l)%nat →
  start_positions acc l !! i = Some (acc + foldl Z.add 0 (take i l)).
Proof.
  revert acc i. induction l as [|x l IH]; intros acc i Hi; cbn in Hi; [lia|].
  destruct i as [|i]; cbn.
  - f_equal. lia.
  - rewrite IH by lia. f_equal. rewrite (foldl_add_acc (0 + x)). lia.
Qed.

Lemma start_positions_length (acc : Z) (l : list Z) :
  length (start_positions acc l) = length l.
Proof. revert acc. induction l as [|x l IH]; intros acc; cbn; [done|]. by rewrite IH. Qed.

(** X2: [np.cumsum([0] + l)[:-1]] has one entry per element of [l], entry
    [i] being the sum of the elements before [i]; so every entry but the
    first is its predecessor plus the predecessor's element. *)
Theorem start_positions_prefix_sums (l : list Z) :
  length (start_positions 0 l) = length l
  ∧ (∀ i, (i < length l)%nat →
          start_positions 0 l !! i = Some (foldl Z.add 0 (take i l)))
  ∧ (∀ i s x, start_positions 0 l !! i = Some s → l !! i = Some x →
              (S i < length l)%nat →
              start_positions 0 l !! S i = Some (s + x)).
Proof.
  split; [apply start_positions_length|].
  split; [intros i Hi; by rewrite start_positions_lookup|].
  intros i s x Hs Hx Hi.
  rewrite start_positions_lookup in Hs by lia.
  rewrite start_positions_lookup by lia.
  injection Hs as <-. f_equal.
  rewrite (take_S_r _ _ _ Hx), foldl_app. cbn. lia.
Qed.

Section batch_buffer_facts.
Context `{Engine}.
Implicit Types (st : pstate) (b : list (nat * ref)) (rows : list InputData).

Lemma fmap_imap_pair {A B} (g : nat → A → B) (l : list A) :
  (λ p, g p.1 p.2) <$> imap (λ idx x, (idx, x)) l = imap g l.
Proof.
  apply list_eq. intros i.
  rewrite list_lookup_fmap, !list_lookup_imap. by destruct (l !! i).
Qed.

Lemma for_each_np_full_exact (rows' : list (nat * InputData)) (f : nat → Z) st :
  Forall (λ p, 0 <= true_length p.2) rows' →
  for_each rows' (λ '(idx, x), np_full (true_length x) (f idx)) st
  = (Ok ((λ p, replicate (Z.to_nat (true_length p.2)) (f p.1)) <$> rows'), st).
Proof.
  induction 1 as [|[idx x] rows' Hx _ IH]; [done|].
  cbn [for_each]. mrun. unfold np_full at 1. cbn in Hx.
  rewrite decide_False by lia. mrun. by rewrite IH.
Qed.

Lemma for_each_np_full_negative (rows' : list (nat * InputData)) (f : nat → Z) st :
  Exists (λ p, true_length p.2 < 0) rows' →
  for_each rows' (λ '(idx, x), np_full (true_length x) (f idx)) st
  = (Raise (ValueError "negative dimensions are not allowed"), st).
Proof.
  induction rows' as [|[idx x] rows' IH]; intros Hex; [by apply Exists_nil in Hex|].
  cbn [for_each]. mrun. unfold np_full at 1.
  destruct (decide (true_length x < 0)) as [Hneg|Hpos]; [done|].
  mrun. apply Exists_cons in Hex as [Hex|Hex]; [done|]. by rewrite IH.
Qed.

Lemma total_len_rows (h : store) b :
  total_len ((λ p, h p.2) <$> b) = total_true_length h b.
Proof. apply total_true_length_rows. Qed.
End batch_buffer_facts.

Lemma total_len_cons x rows : total_len (x :: rows) = true_length x + total_len rows.
Proof. unfold total_len. cbn. rewrite foldl_add_acc. lia. Qed.

Lemma total_len_nonneg rows :
  Forall (λ x, 0 <= true_length x) rows → 0 <= total_len rows.
Proof.
  induction 1 as [|x rows Hx _ IH]; [done|]. rewrite total_len_cons. lia.
Qed.

Lemma total_len_take_le rows i :
  Forall (λ x, 0 <= true_length x) rows → total_len (take i rows) <= total_len rows.
Proof.
  intros Hrows. revert i. induction Hrows as [|x rows Hx Hrows IH]; intros i.
  - by rewrite take_nil.
  - destruct i as [|i].
    + apply (total_len_nonneg (x :: rows)). by constructor.
    + cbn [take]. rewrite !total_len_cons. specialize (IH i). lia.
Qed.

(** Segments that are as long as the true lengths say. *)
Lemma concat_length_total {A} (segs : list (list A)) rows :
  Forall2 (λ seg x, length seg = Z.to_nat (true_length x)) segs rows →
  Forall (λ x, 0 <= true_length x) rows →
  length (concat segs) = Z.to_nat (total_len rows).
Proof.
  induction 1 as [|seg x segs rows Hseg _ IH]; intros Hrows; [done|].
  apply Forall_cons in Hrows as [Hx Hrows].
  pose proof (total_len_nonneg rows Hrows).
  cbn [concat]. rewrite length_app, IH, total_len_cons, Hseg by done. lia.
Qed.

Lemma lookup_concat_segment {A} (segs : list (list A)) i seg j :
  segs !! i = Some seg → (j < length seg)%nat →
  concat segs !! (length (concat (take i segs)) + j)%nat = seg !! j.
Proof.
  intros Hi Hj.
  assert (concat segs = concat (take i segs) ++ seg ++ concat (drop (S i) segs)) as ->.
  { rewrite <-(take_drop_middle segs i seg Hi) at 1. by rewrite concat_app. }
  rewrite lookup_app_r by lia.
  replace (length (concat (take i segs)) + j - length (concat (take i segs)))%nat
    with j by lia.
  by rewrite lookup_app_l.
Qed.

Lemma indicator_segments rows :
  Forall2 (λ seg x, length seg = Z.to_nat (true_length x))
    (imap (λ idx x, replicate (Z.to_nat (true_length x)) (Z.of_nat idx * 2 + 1)) rows)
    rows.
Proof.
  apply Forall2_same_length_lookup_2; [by rewrite length_imap|].
  intros i seg x Hseg Hx. rewrite list_lookup_imap, Hx in Hseg.
  injection Hseg as <-. apply length_replicate.
Qed.

Lemma position_segments rows :
  Forall (λ x, 0 <= true_length x) rows →
  Forall2 (λ seg x, length seg = Z.to_nat (true_length x))
    ((λ x, np_arange (true_length x)) <$> rows) rows.
Proof.
  intros Hrows. apply Forall2_fmap_l, Forall_Forall2_diag.
  apply (Forall_impl _ _ _ Hrows). intros x Hx. cbn. unfold np_arange.
  by rewrite length_seqZ.
Qed.

Lemma token_segments rows :
  Forall (λ x, true_length x <= padded_length x) rows →
  Forall2 (λ seg x, length seg = Z.to_nat (true_length x))
    ((λ x, take (Z.to_nat (true_length x)) (tokens x)) <$> rows) rows.
Proof.
  intros Hrows. apply Forall2_fmap_l, Forall_Forall2_diag.
  apply (Forall_impl _ _ _ Hrows). intros x Hx. cbn. unfold padded_length in Hx.
  rewrite length_take. lia.
Qed.

Lemma packed_lengths rows maximum :
  Forall (λ x, 0 <= true_length x) rows → total_len rows <= maximum →
  length (packed_indicator rows maximum) = Z.to_nat maximum
  ∧ length (packed_positions rows maximum) = Z.to_nat maximum
  ∧ (Forall (λ x, true_length x <= padded_length x) rows →
     length (packed_tokens rows maximum) = Z.to_nat maximum).
Proof.
  intros Hrows Htotal. pose proof (total_len_nonneg rows Hrows).
  unfold packed_indicator, packed_positions, packed_tokens.
  rewrite !length_app, !length_replicate.
  rewrite (concat_length_total _ rows (indicator_segments rows) Hrows).
  rewrite (concat_length_total _ rows (position_segments rows Hrows) Hrows).
  unfold np_arange. rewrite length_seqZ.
  split; [lia|]. split; [lia|]. intros Hfit.
  rewrite (concat_length_total _ rows (token_segments rows Hfit) Hrows). lia.
Qed.

Lemma prefill_concat_exact `{Engine} (b : list (nat * ref)) (prefill_len : Z)
    (st : pstate) (fn : executable) :
  buildable st b →
  _cached_pref_batch (self st) !! (prefill_len, Z.of_nat (length b)) = Some fn →
  let rows := (λ p, heap st p.2) <$> b in
  let maximum := max_prefill_length (self st) in
  let out :=
    run_prefill_insert_batch fn (packed_tokens rows maximum)
      (pad_num_prompts_len_array ((λ p, Z.of_nat p.1) <$> b) 16)
      (packed_positions rows maximum) (packed_indicator rows maximum)
      (pad_num_prompts_len_array (start_positions 0 (true_length <$> rows)) 16)
      (pad_num_prompts_len_array (true_length <$> rows) 16)
      (decode_state (self st)) in
  prefill_concat b prefill_len st
  = (Ok (imap (λ idx p, (out.1 idx, p.1, p.2)) b),
     mkPstate (set_decode_state out.2 (self st)) (heap st) (outbox st)
              (calls st ++ [CallPrefillBatch fn b])).
Proof.
  intros [Hnonneg Htotal] Hfn. cbv zeta.
  rewrite <-total_len_rows in Htotal.
  unfold prefill_concat. rewrite run_bind. cbn [get_self].
  rewrite run_bind, for_each_get_row, run_bind.
  rewrite for_each_np_full_exact.
  2:{ apply (Forall_imap_snd (λ x, 0 <= true_length x) (λ idx, idx)).
      by apply Forall_fmap. }
  rewrite run_bind. unfold np_full.
  fold (total_len ((λ p, heap st p.2) <$> b)).
  rewrite decide_False by lia. cbn [mret M_ret]. rewrite Hfn.
  rewrite (fmap_imap_pair
             (λ idx x, replicate (Z.to_nat (true_length x)) (Z.of_nat idx * 2 + 1))).
  unfold packed_tokens, packed_positions, packed_indicator.
  destruct (run_prefill_insert_batch fn _ _ _ _ _ _ _) as [first_tokens ds].
  reflexivity.
Qed.

(** X3: what the batched branch of [prefill] hands to the compiled
    function.  For a bucket without negative true lengths whose true
    lengths total no more than the maximum prefill length, and with a
    compiled variant for (length, number of members), [prefill] makes
    exactly one call, on the packed buffers, and returns one
    (first token, slot, request) per member in bucket order.  The
    indicator and position buffers are exactly [max_prefill_length] long,
    and so is the token buffer provided no true length exceeds its
    request's padded length; with at most 16 members the three per-request
    arrays have 16 entries. *)
Theorem prefill_concat_arguments `{Engine} (prefill_bucket : list (nat * ref))
    (prefill_len : Z) (st : pstate) (prefill_fn : executable) :
  buildable st prefill_bucket →
  _cached_pref_batch (self st) !! (prefill_len, Z.of_nat (length prefill_bucket))
  = Some prefill_fn →
  let rows := (λ p, heap st p.2) <$> prefill_bucket in
  let maximum := max_prefill_length (self st) in
  let slots := pad_num_prompts_len_array ((λ p, Z.of_nat p.1) <$> prefill_bucket) 16 in
  let start_pos :=
    pad_num_prompts_len_array (start_positions 0 (true_length <$> rows)) 16 in
  let true_lengths := pad_num_prompts_len_array (true_length <$> rows) 16 in
  let out :=
    run_prefill_insert_batch prefill_fn (packed_tokens rows maximum) slots
      (packed_positions rows maximum) (packed_indicator rows maximum)
      start_pos true_lengths (decode_state (self st)) in
  prefill_concat prefill_bucket prefill_len st
  = (Ok (imap (λ idx p, (out.1 idx, p.1, p.2)) prefill_bucket),
     mkPstate (set_decode_state out.2 (self st)) (heap st) (outbox st)
              (calls st ++ [CallPrefillBatch prefill_fn prefill_bucket]))
  ∧ length (packed_indicator rows maximum) = Z.to_nat maximum
  ∧ length (packed_positions rows maximum) = Z.to_nat maximum
  ∧ (Forall (λ x, true_length x <= padded_length x) rows →
     length (packed_tokens rows maximum) = Z.to_nat maximum)
  ∧ ((length prefill_bucket <= 16)%nat →
     length slots = 16%nat ∧ length start_pos = 16%nat
     ∧ length true_lengths = 16%nat).
Proof.
  intros [Hnonneg Htotal] Hfn. cbv zeta.
  assert (Forall (λ x, 0 <= true_length x) ((λ p, heap st p.2) <$> prefill_bucket))
    as Hrows by by apply Forall_fmap.
  rewrite <-total_len_rows in Htotal.
  split; [|split; [|split; [|split]]]; try by apply packed_lengths.
  - rewrite total_len_rows in Htotal. by apply prefill_concat_exact.
  - intros Hn. unfold pad_num_prompts_len_array.
    rewrite start_positions_length, !length_fmap.
    repeat case_decide; rewrite ?length_app, ?length_replicate,
      ?start_positions_length, ?length_fmap; lia.
Qed.

Lemma segment_offset {A} (segs : list (list A)) rows i :
  Forall2 (λ seg x, length seg = Z.to_nat (true_length x)) segs rows →
  Forall (λ x, 0 <= true_length x) rows →
  length (concat (take i segs)) = Z.to_nat (segment_start rows i).
Proof.
  intros Hsegs Hrows. apply concat_length_total; [by apply Forall2_take|].
  by apply Forall_take.
Qed.

Lemma lookup_packed_segment {A} (segs : list (list A)) (padding : list A)
    rows i x seg (j : Z) :
  Forall2 (λ seg x, length seg = Z.to_nat (true_length x)) segs rows →
  Forall (λ x, 0 <= true_length x) rows →
  rows !! i = Some x → segs !! i = Some seg → 0 <= j < true_length x →
  (concat segs ++ padding) !! Z.to_nat (segment_start rows i + j)
  = seg !! Z.to_nat j.
Proof.
  intros Hsegs Hrows Hx Hseg Hj.
  assert (length seg = Z.to_nat (true_length x)) as Hlen.
  { by eapply (Forall2_lookup_lr _ _ _ _ _ _ Hsegs). }
  assert (0 <= segment_start rows i).
  { apply total_len_nonneg. by apply Forall_take. }
  rewrite Z2Nat.inj_add, <-(segment_offset segs rows i Hsegs Hrows) by lia.
  destruct (seg !! Z.to_nat j) as [y|] eqn:Hy.
  - apply lookup_app_l_Some. apply lookup_lt_Some in Hy as Hlt.
    by rewrite (lookup_concat_segment segs i seg) by (done || lia).
  - apply lookup_ge_None in Hy. lia.
Qed.

Lemma lookup_packed_padding {A} (segs : list (list A)) (padding : list A)
    rows (q : Z) :
  Forall2 (λ seg x, length seg = Z.to_nat (true_length x)) segs rows →
  Forall (λ x, 0 <= true_length x) rows → 0 <= q →
  (concat segs ++ padding) !! Z.to_nat (total_len rows + q)
  = padding !! Z.to_nat q.
Proof.
  intros Hsegs Hrows Hq. pose proof (total_len_nonneg rows Hrows).
  rewrite Z2Nat.inj_add, <-(concat_length_total segs rows Hsegs Hrows) by lia.
  rewrite lookup_app_r by lia. f_equal. lia.
Qed.

(** X4: the layout of the packed buffers.  Request [i] of the bucket
    occupies the positions from its start (the sum of the true lengths
    before it, which is also entry [i] of [start_pos]) up to its true
    length: there the indicator is [2 * i + 1], the position counts from
    0, and, provided no true length exceeds its padded length, the token
    is the request's own.  After the last request the indicator and the
    token are 0 and the position counts from 0 again. *)
Theorem packed_layout (rows : list InputData) (maximum : Z) :
  Forall (λ x, 0 <= true_length x) rows →
  (∀ i x j, rows !! i = Some x → 0 <= j < true_length x →
     let p := Z.to_nat (segment_start rows i + j) in
     start_positions 0 (true_length <$> rows) !! i = Some (segment_start rows i)
     ∧ packed_indicator rows maximum !! p = Some (Z.of_nat i * 2 + 1)
     ∧ packed_positions rows maximum !! p = Some j
     ∧ (Forall (λ x, true_length x <= padded_length x) rows →
        packed_tokens rows maximum !! p = tokens x !! Z.to_nat j))
  ∧ (∀ q, 0 <= q < maximum - total_len rows →
     let p := Z.to_nat (total_len rows + q) in
     packed_indicator rows maximum !! p = Some 0
     ∧ packed_positions rows maximum !! p = Some q
     ∧ (Forall (λ x, true_length x <= padded_length x) rows →
        packed_tokens rows maximum !! p = Some 0)).
Proof.
  intros Hrows. split.
  - intros i x j Hx Hj. cbv zeta. split; [|split; [|split]].
    + rewrite start_positions_lookup
        by (rewrite length_fmap; by eapply lookup_lt_Some).
      by rewrite <-fmap_take.
    + unfold packed_indicator.
      rewrite (lookup_packed_segment _ _ rows i x
                 (replicate (Z.to_nat (true_length x)) (Z.of_nat i * 2 + 1)) j);
        [|apply indicator_segments|done|done| |done].
      2:{ by rewrite list_lookup_imap, Hx. }
      apply lookup_replicate_2. lia.
    + unfold packed_positions.
      rewrite (lookup_packed_segment _ _ rows i x (np_arange (true_length x)) j);
        [|by apply position_segments|done|done| |done].
      2:{ by rewrite list_lookup_fmap, Hx. }
      unfold np_arange. rewrite lookup_seqZ_lt by lia. f_equal. lia.
    + intros Hfit. unfold packed_tokens.
      rewrite (lookup_packed_segment _ _ rows i x
                 (take (Z.to_nat (true_length x)) (tokens x)) j);
        [|by apply token_segments|done|done| |done].
      2:{ by rewrite list_lookup_fmap, Hx. }
      apply lookup_take_lt. lia.
  - intros q Hq. cbv zeta. split; [|split].
    + unfold packed_indicator.
      rewrite (lookup_packed_padding _ _ rows) by (done || apply indicator_segments || lia).
      apply lookup_replicate_2. lia.
    + unfold packed_positions.
      rewrite (lookup_packed_padding _ _ rows) by (done || by apply position_segments || lia).
      unfold np_arange. rewrite lookup_seqZ_lt by lia. f_equal. lia.
    + intros Hfit. unfold packed_tokens.
      rewrite (lookup_packed_padding _ _ rows) by (done || by apply token_segments || lia).
      apply lookup_replicate_2. lia.
Qed.

Lemma Exists_imap_snd {A} (P : A → Prop) (l : list A) :
  Exists P l → Exists (λ p : nat * A, P p.2) (imap (λ idx x, (idx, x)) l).
Proof.
  rewrite !Exists_exists. intros (x & Hin & Hx).
  apply list_elem_of_lookup in Hin as [i Hi].
  exists (i, x). split; [|done].
  apply list_elem_of_lookup. exists i. by rewrite list_lookup_imap, Hi.
Qed.

(** X5: the batched branch validates nothing itself; numpy does.  A
    bucket with a negative true length, or whose true lengths total more
    than the maximum prefill length, makes [prefill] raise the ValueError
    of [np.full] / [np.zeros] while it builds the indicator buffer: before
    the compiled variant is looked up, with no call made, nothing queued
    and the object unchanged. *)
Theorem prefill_concat_value_error `{Engine} (prefill_bucket : list (nat * ref))
    (prefill_len : Z) (st : pstate) :
  Exists (λ p, true_length (heap st p.2) < 0) prefill_bucket
  ∨ max_prefill_length (self st) < total_true_length (heap st) prefill_bucket →
  prefill_concat prefill_bucket prefill_len st
  = (Raise (ValueError "negative dimensions are not allowed"), st)
  ∧ (dummy (self st) = false →
     prefills_singly (self st) prefill_len (length prefill_bucket) = false →
     prefill prefill_bucket prefill_len st
     = (Raise (ValueError "negative dimensions are not allowed"), st)
     ∧ prefill_batch prefill_bucket prefill_len st
       = (Raise (ValueError "negative dimensions are not allowed"), st)).
Proof.
  intros Hbad.
  assert (prefill_concat prefill_bucket prefill_len st
          = (Raise (ValueError "negative dimensions are not allowed"), st)) as Hraise.
  { unfold prefill_concat. rewrite run_bind. cbn [get_self].
    rewrite run_bind, for_each_get_row, run_bind.
    destruct (decide (Forall (λ p : nat * ref, 0 <= true_length (heap st p.2))
                        prefill_bucket)) as [Hnonneg|Hneg%not_Forall_Exists];
      [|apply (Exists_impl _ (λ p, true_length (heap st p.2) < 0)) in Hneg;
        [|cbn; intros; lia]|apply _].
    - destruct Hbad as [Hneg|Hover].
      { rewrite for_each_np_full_negative; [done|].
        apply (Exists_imap_snd (λ x, true_length x < 0)).
        by apply Exists_fmap. }
      rewrite for_each_np_full_exact
        by (apply (Forall_imap_snd (λ x, 0 <= true_length x) (λ idx, idx));
            by apply Forall_fmap).
      rewrite run_bind, total_true_length_rows. unfold np_full.
      by rewrite decide_True by lia.
    - rewrite for_each_np_full_negative; [done|].
      apply (Exists_imap_snd (λ x, true_length x < 0)).
      by apply Exists_fmap. }
  split; [exact Hraise|]. intros Hdummy Hsingle.
  assert (prefill prefill_bucket prefill_len st
          = (Raise (ValueError "negative dimensions are not allowed"), st)) as Hp.
  { unfold prefill. mrun. rewrite Hdummy.
    fold (prefills_singly (self st) prefill_len (length prefill_bucket)).
    rewrite Hsingle. mrun. by rewrite Hraise. }
  split; [exact Hp|]. unfold prefill_batch. mrun. by rewrite Hp.
Qed.

Lemma pad_num_prompts_len_array_spec_witness :
  pad_num_prompts_len_array [3; 5] 4 !! 2%nat = Some 0
  ∧ pad_num_prompts_len_array [1; 2; 3] 2 = [1; 2; 3].
Proof.
  destruct (pad_num_prompts_len_array_spec [3; 5] 4) as (_ & _ & Hzero & _).
  destruct (pad_num_prompts_len_array_spec [1; 2; 3] 2) as (_ & _ & _ & Hsame).
  split; [apply Hzero; cbn; lia|apply Hsame; cbn; lia].
Defined.

Lemma start_positions_prefix_sums_witness :
  start_positions 0 [3; 4; 5] !! 2%nat = Some 7.
Proof.
  destruct (start_positions_prefix_sums [3; 4; 5]) as (_ & Hsum & Hnext).
  apply (Hnext 1%nat 3 4); [|reflexivity|cbn; lia].
  apply (Hsum 1%nat). cbn. lia.
Defined.

Lemma prefill_concat_arguments_witness :
  let st := two_halves_state in
  (@prefill_concat counting_engine [(0, 0); (1, 1)]%nat 512 st).1
  = Ok [(7, 0%nat, 0%nat); (7, 1%nat, 1%nat)]
  ∧ length (packed_tokens [request "r" 512 500; request "r" 512 500] 1024) = 1024%nat.
Proof.
  cbv zeta.
  destruct (@prefill_concat_arguments counting_engine [(0, 0); (1, 1)]%nat 512
              two_halves_state (PrefillInsertBatch 1024 512 2))
    as (Hcall & _ & _ & Htokens & _).
  - split; [repeat constructor; cbn; lia|]. vm_compute. discriminate.
  - vm_compute. reflexivity.
  - split; [by rewrite Hcall|]. apply Htokens.
    repeat constructor; vm_compute; discriminate.
Defined.

Lemma packed_layout_witness :
  packed_indicator [request "a" 8 3; request "b" 8 2] 8 !! 4%nat = Some 3
  ∧ packed_positions [request "a" 8 3; request "b" 8 2] 8 !! 4%nat = Some 1
  ∧ packed_indicator [request "a" 8 3; request "b" 8 2] 8 !! 6%nat = Some 0.
Proof.
  destruct (packed_layout [request "a" 8 3; request "b" 8 2] 8) as [Hseg Hpad].
  { repeat constructor; cbn; lia. }
  destruct (Hseg 1%nat (request "b" 8 2) 1 eq_refl) as (_ & Hi & Hp & _); [cbn; lia|].
  destruct (Hpad 1) as (Hz & _); [vm_compute; split; [discriminate|reflexivity]|].
  split; [exact Hi|]. split; [exact Hp|exact Hz].
Defined.

Lemma prefill_concat_value_error_witness :
  @prefill_batch counting_engine [(0, 0); (1, 1)]%nat 512 overlong_state
  = (Raise (ValueError "negative dimensions are not allowed"), overlong_state).
Proof.
  refine (proj2 (proj2 (@prefill_concat_value_error counting_engine
                          [(0, 0); (1, 1)]%nat 512 overlong_state _) _ _)).
  - right. vm_compute. reflexivity.
  - reflexivity.
  - vm_compute. reflexivity.
Defined.

(** ** [decode] *)

Section decode_facts.
Context `{Engine}.
Implicit Types (st : pstate).

Lemma set_decode_state_same (o : OfflineInference) :
  set_decode_state (decode_state o) o = o.
Proof. by destruct o. Qed.

Lemma generate_steps_length gen_fn n ds :
  length (generate_steps gen_fn n ds).2 = n.
Proof.
  revert ds. induction n as [|n IH]; intros ds; [done|].
  cbn. destruct (run_generate gen_fn ds) as [ds1 r]. specialize (IH ds1).
  destruct (generate_steps gen_fn n ds1) as [ds2 rest]. cbn in *. by rewrite IH.
Qed.

Lemma for_each_generate_exact gen_fn (l : list nat) st :
  for_each l (λ _,
      o ← get_self;
      let '(ds, result_tokens) := run_generate gen_fn (decode_state o) in
      put_self (set_decode_state ds o);;
      log_call (CallGenerate gen_fn);;
      mret result_tokens) st
  = (Ok (generate_steps gen_fn (length l) (decode_state (self st))).2,
     mkPstate
       (set_decode_state
          (generate_steps gen_fn (length l) (decode_state (self st))).1 (self st))
       (heap st) (outbox st)
       (calls st ++ replicate (length l) (CallGenerate gen_fn))).
Proof.
  revert st. induction l as [|x l IH]; intros st.
  - cbn. rewrite set_decode_state_same, app_nil_r. by destruct st.
  - cbn [for_each length generate_steps]. mrun.
    destruct (run_generate gen_fn (decode_state (self st))) as [ds1 r] eqn:Hrun.
    mrun. rewrite IH. cbn [self heap outbox calls decode_state set_decode_state].
    destruct (generate_steps gen_fn (length l) ds1) as [ds2 rest].
    cbn [fst snd replicate]. by rewrite <-app_assoc.
Qed.
Lemma decode_exact gen_fn st :
  dummy (self st) = false → _cached_generate (self st) = Some gen_fn →
  decode st
  = (Ok (),
     mkPstate
       (set_decode_state (generate_steps gen_fn 10 (decode_state (self st))).1 (self st))
       (heap st)
       (outbox st ++ (StepEntry <$> (generate_steps gen_fn 10 (decode_state (self st))).2))
       (calls st ++ replicate 10 (CallGenerate gen_fn))).
Proof.
  intros Hdummy Hgen. unfold decode. mrun. rewrite Hdummy, Hgen. mrun.
  rewrite (for_each_generate_exact gen_fn (seq 0 10) st).
  rewrite run_bind, for_each_put_steps. reflexivity.
Qed.
End decode_facts.

(** X6: the three outcomes of [decode].  With a compiled generate
    function and outside dummy mode it calls that function ten times in a
    row, threading the decode state, and only then queues the ten results
    as step entries, oldest first; buckets, requests and caches are left
    alone.  Without a compiled generate function it raises the assertion
    error, and in dummy mode it raises UnboundLocalError (the list of
    results is never bound); in both cases nothing is called, queued or
    changed. *)
Theorem decode_outcomes `{Engine} (st : pstate) :
  (∀ gen_fn, dummy (self st) = false → _cached_generate (self st) = Some gen_fn →
     let out := generate_steps gen_fn 10 (decode_state (self st)) in
     decode st
     = (Ok (),
        mkPstate (set_decode_state out.1 (self st)) (heap st)
                 (outbox st ++ (StepEntry <$> out.2))
                 (calls st ++ replicate 10 (CallGenerate gen_fn)))
     ∧ length out.2 = 10%nat)
  ∧ (dummy (self st) = false → _cached_generate (self st) = None →
     decode st = (Raise (AssertionError "no generate fn"), st))
  ∧ (dummy (self st) = true →
     decode st = (Raise (UnboundLocalError "result_tokens_l"), st)).
Proof.
  split; [|split].
  - intros gen_fn Hdummy Hgen. cbv zeta. split; [|apply generate_steps_length].
    by apply decode_exact.
  - intros Hdummy Hgen. unfold decode. mrun. by rewrite Hdummy, Hgen.
  - intros Hdummy. unfold decode. mrun. by rewrite Hdummy.
Qed.

Lemma decode_outcomes_witness :
  outbox (@decode counting_engine two_halves_state).2
  = StepEntry <$> (@generate_steps counting_engine Generate 10 0).2
  ∧ decode_state (self (@decode counting_engine two_halves_state).2) = 10.
Proof.
  destruct (@decode_outcomes counting_engine two_halves_state) as (Hrun & _ & _).
  destruct (Hrun Generate eq_refl eq_refl) as [-> _]. split; reflexivity.
Defined.

(** ** The mapping that [batch_inference] returns *)

Section dict_key_facts.
Context {K V : Type} `{EqDecision K}.

Lemma dict_keys_touch_elem (k k' : K) (d : dict K (list V)) :
  k' ∈ dict_keys (dd_touch k d) ↔ k' = k ∨ k' ∈ dict_keys d.
Proof.
  unfold dd_touch. destruct (dict_lookup k d) as [v|] eqn:Hk.
  - split; [by right|]. intros [->|?]; [|done].
    destruct (decide (k ∈ dict_keys d)) as [?|Hn]; [done|].
    apply dict_lookup_None in Hn. congruence.
  - unfold dict_keys. rewrite fmap_app, elem_of_app. cbn.
    rewrite list_elem_of_singleton. tauto.
Qed.

Lemma dict_keys_set_elem {W} (k k' : K) (v : W) (d : dict K W) :
  k' ∈ dict_keys (dict_set k v d) ↔ k' = k ∨ k' ∈ dict_keys d.
Proof.
  induction d as [|[k0 v0] d IH]; cbn.
  - rewrite list_elem_of_singleton, elem_of_nil. tauto.
  - case_decide as Hk; cbn; rewrite !elem_of_cons.
    + subst. tauto.
    + unfold dict_keys in IH. rewrite IH. tauto.
Qed.
End dict_key_facts.

Section callback_result_facts.
Variable eos_id : Z.

Lemma upto_eos_snoc (l : list Z) (token : Z) :
  upto_eos eos_id (l ++ [token])
  = if decide (upto_eos eos_id l = [] ∨ last (upto_eos eos_id l) ≠ Some eos_id)
    then upto_eos eos_id l ++ [token]
    else upto_eos eos_id l.
Proof.
  induction l as [|x l IH]; cbn [app upto_eos].
  - destruct (decide (_ ∨ _)) as [_|Hn]; [|destruct Hn; by left].
    by destruct (decide (token = eos_id)).
  - destruct (decide (x = eos_id)) as [->|Hx]; cbn.
    + clear IH. destruct (decide (_ ∨ _)) as [[?|Hl]|_]; [done|by destruct Hl|done].
    + rewrite IH. clear IH. destruct (upto_eos eos_id l) as [|y u] eqn:Hu; cbn.
      * destruct (decide (_ ∨ _)) as [_|Hn]; [|destruct Hn; by left].
        destruct (decide (_ ∨ _)) as [_|Hn]; [done|].
        destruct Hn. right. congruence.
      * destruct (decide (last (y :: u) ≠ Some eos_id)) as [Hl|Hl].
        -- destruct (decide (_ ∨ _)) as [_|Hn]; [|destruct Hn; by right].
           destruct (decide (_ ∨ _)) as [_|Hn]; [done|destruct Hn; by right].
        -- destruct (decide (_ ∨ _)) as [[?|?]|_]; [done|done|].
           destruct (decide (_ ∨ _)) as [[?|?]|_]; done.
Qed.

Lemma run_callbacks_snoc emissions e res :
  run_callbacks eos_id (emissions ++ [e]) res
  = (callback eos_id e.1 e.2 (run_callbacks eos_id emissions res)).2.
Proof. unfold run_callbacks. by rewrite foldl_snoc. Qed.

Lemma emitted_for_snoc id_ emissions e :
  emitted_for id_ (emissions ++ [e])
  = if decide (e.1 = id_) then emitted_for id_ emissions ++ [e.2]
    else emitted_for id_ emissions.
Proof.
  unfold emitted_for. rewrite filter_app, fmap_app.
  case_decide as He.
  - by rewrite (filter_cons_True (λ e, e.1 = id_)) by done.
  - rewrite (filter_cons_False (λ e, e.1 = id_)) by done. cbn. by rewrite app_nil_r.
Qed.

Lemma callback_get id_ token (res : dict string (list Z)) i :
  dd_get i (callback eos_id id_ token res).2
  = if decide (id_ = i)
    then if decide (dd_get i res = [] ∨ last (dd_get i res) ≠ Some eos_id)
         then dd_get i res ++ [token] else dd_get i res
    else dd_get i res.
Proof.
  unfold callback. cbn [snd]. rewrite dd_get_touch.
  destruct (decide (id_ = i)) as [<-|Hne].
  - case_decide; [by rewrite dd_get_set_eq|by rewrite dd_get_touch].
  - case_decide; [by rewrite dd_get_set_ne, dd_get_touch|by rewrite dd_get_touch].
Qed.

Lemma callback_keys id_ token (res : dict string (list Z)) i :
  i ∈ dict_keys (callback eos_id id_ token res).2
  ↔ i = id_ ∨ i ∈ dict_keys res.
Proof.
  unfold callback. cbn [snd]. case_decide.
  - rewrite dict_keys_set_elem, dict_keys_touch_elem. tauto.
  - apply dict_keys_touch_elem.
Qed.

Lemma callback_keys_NoDup id_ token (res : dict string (list Z)) :
  NoDup (dict_keys res) → NoDup (dict_keys (callback eos_id id_ token res).2).
Proof.
  intros Hnd. unfold callback. cbn [snd]. case_decide.
  - by apply dict_keys_set, dict_keys_touch.
  - by apply dict_keys_touch.
Qed.
End callback_result_facts.

(** X7: what the mapping returned by [batch_inference] holds.  After
    any sequence of callback invocations on an empty [res], the entry of
    an identity is the sequence of tokens emitted for it, in order, cut
    after the first end-of-sequence marker; an identity for which nothing
    was emitted has no entry, and no identity has two.  The callback asks
    for termination exactly on the marker. *)
Theorem callback_accumulates (eos_id : Z) (emissions : list (string * Z)) :
  let res := run_callbacks eos_id emissions [] in
  (∀ id_, dd_get id_ res = upto_eos eos_id (emitted_for id_ emissions))
  ∧ (∀ id_, id_ ∈ dict_keys res ↔ id_ ∈ emissions.*1)
  ∧ NoDup (dict_keys res)
  ∧ (∀ id_ token, (callback eos_id id_ token res).1 = bool_decide (token = eos_id)).
Proof.
  cbv zeta. induction emissions as [|e emissions IH] using rev_ind.
  - split; [done|]. split; [done|]. split; [constructor|done].
  - destruct IH as (Hget & Hkeys & Hnd & _). rewrite run_callbacks_snoc.
    split; [|split; [|split]].
    + intros id_. rewrite callback_get, emitted_for_snoc, Hget.
      case_decide; [|done]. by rewrite upto_eos_snoc.
    + intros id_. rewrite callback_keys, Hkeys, fmap_app, elem_of_app. cbn.
      rewrite list_elem_of_singleton. tauto.
    + by apply callback_keys_NoDup.
    + done.
Qed.

(** ** The order in which [batch_inference] serves *)

Lemma nondecreasing_constant {A} (f : A → Z) (l : list A) c :
  (∀ x, x ∈ l → f x = c) → nondecreasing f l.
Proof.
  intros Hc i j x y _ Hx Hy.
  apply list_elem_of_lookup_2 in Hx, Hy. rewrite (Hc x), (Hc y) by done. lia.
Qed.

Lemma nondecreasing_app {A} (f : A → Z) (l1 l2 : list A) c :
  (∀ x, x ∈ l1 → f x <= c) → (∀ y, y ∈ l2 → c <= f y) →
  nondecreasing f l1 → nondecreasing f l2 → nondecreasing f (l1 ++ l2).
Proof.
  intros H1 H2 Ho1 Ho2 i j x y Hij Hx Hy.
  apply lookup_app_Some in Hx as [Hx|[Hi Hx]];
    apply lookup_app_Some in Hy as [Hy|[Hj Hy]].
  - by apply (Ho1 i j).
  - apply list_elem_of_lookup_2 in Hx, Hy. specialize (H1 x Hx).
    specialize (H2 y Hy). lia.
  - apply lookup_lt_Some in Hy. lia.
  - apply (Ho2 (i - length l1)%nat (j - length l1)%nat); [lia|done|done].
Qed.

Section sort_data_order_facts.
Variable shuffle : Z → list ref → list ref.
Variable h : store.
Hypothesis shuffle_permutes : ∀ k l, shuffle k l ≡ₚ l.

Local Existing Instance has_length_dec.

Lemma shuffled_group_key (k : Z) (data : list ref) r :
  r ∈ shuffle k (filter (has_length h k) data) → padded_length (h r) = k.
Proof.
  rewrite shuffle_permutes. intros Hr. by apply list_elem_of_filter in Hr as [Hr _].
Qed.

Lemma sort_data_nondecreasing (data : list ref) :
  nondecreasing (λ r, bucket_key (padded_length (h r))) (sort_data shuffle h data).
Proof.
  rewrite sort_data_groups.
  assert (∀ k, k ≠ 64 → ∀ r, r ∈ shuffle k (filter (has_length h k) data) →
               bucket_key (padded_length (h r)) = k) as Hkey.
  { intros k Hk r Hr. rewrite (shuffled_group_key k data r Hr).
    unfold bucket_key. by rewrite decide_False. }
  assert (∀ r, r ∈ shuffle 128 (filter (has_length h 128) data
                                 ++ filter (has_length h 64) data) →
               bucket_key (padded_length (h r)) = 128) as Hkey128.
  { intros r. rewrite shuffle_permutes, elem_of_app, !list_elem_of_filter.
    unfold has_length, bucket_key. intros [[-> _]|[-> _]]; by case_decide. }
  apply (nondecreasing_app _ _ _ 128).
  - intros r Hr. rewrite Hkey128 by done. lia.
  - intros r. rewrite !elem_of_app. intros [Hr|[Hr|Hr]];
      apply Hkey in Hr; lia.
  - by apply (nondecreasing_constant _ _ 128).
  - apply (nondecreasing_app _ _ _ 256).
    + intros r Hr. apply Hkey in Hr; lia.
    + intros r. rewrite !elem_of_app. intros [Hr|Hr]; apply Hkey in Hr; lia.
    + apply (nondecreasing_constant _ _ 256). intros r Hr. by apply Hkey in Hr.
    + apply (nondecreasing_app _ _ _ 512).
      * intros r Hr. apply Hkey in Hr; lia.
      * intros r Hr. apply Hkey in Hr; lia.
      * apply (nondecreasing_constant _ _ 512). intros r Hr. by apply Hkey in Hr.
      * apply (nondecreasing_constant _ _ 1024). intros r Hr. by apply Hkey in Hr.
Qed.
End sort_data_order_facts.

(** X8: [batch_inference] serves in order of bucket length.  Whatever
    rearrangement [random.shuffle] picks within each group, a request that
    is served earlier never has a greater bucket length (the padded
    length, with 64 counted as 128) than one served later: all of the
    128 group, then all of 256, of 512, of 1024. *)
Theorem sort_data_order (shuffle : Z → list ref → list ref) (h : store)
    (data : list ref) :
  (∀ k l, shuffle k l ≡ₚ l) →
  ∀ i j earlier later,
    (i < j)%nat →
    sort_data shuffle h data !! i = Some earlier →
    sort_data shuffle h data !! j = Some later →
    bucket_key (padded_length (h earlier)) <= bucket_key (padded_length (h later)).
Proof.
  intros Hshuffle i j earlier later.
  apply (sort_data_nondecreasing shuffle h Hshuffle data).
Qed.

Lemma sort_data_order_witness :
  sort_data (λ _ l, reverse l) mixed_store [0; 1; 2; 3]%nat = [3; 2; 1; 0]%nat
  ∧ bucket_key (padded_length (mixed_store 3%nat))
    <= bucket_key (padded_length (mixed_store 0%nat)).
Proof.
  split; [vm_compute; reflexivity|].
  apply (sort_data_order (λ _ l, reverse l) mixed_store [0; 1; 2; 3]%nat
           (λ _ l, reverse_Permutation l) 0%nat 3%nat);
    [lia|vm_compute; reflexivity|vm_compute; reflexivity].
Defined.

(** ** What [warmup] stores *)

Section warmup_value_facts.
Context `{Engine}.
Implicit Types (o : OfflineInference).

Lemma compile_batch_variants_value max_length l ps o l' n' :
  _cached_pref_batch (compile_batch_variants max_length l ps o) !! (l', n')
  = if decide (l' = l ∧ n' ∈ ps)
    then Some (PrefillInsertBatch max_length l' n')
    else _cached_pref_batch o !! (l', n').
Proof.
  revert o. induction ps as [|p ps IH]; intros o.
  - cbn. rewrite decide_False; [done|]. rewrite elem_of_nil. tauto.
  - rewrite compile_batch_variants_cons, IH. cbn [_cached_pref_batch set_cached_pref_batch].
    destruct (decide (l' = l ∧ n' ∈ ps)) as [[-> Hin]|Hout].
    + rewrite decide_True; [done|]. rewrite elem_of_cons. auto.
    + destruct (decide ((l, p) = (l', n'))) as [[= <- <-]|Hne].
      * rewrite lookup_insert_eq, decide_True; [done|]. rewrite elem_of_cons. auto.
      * rewrite lookup_insert_ne by done. rewrite decide_False; [done|].
        rewrite elem_of_cons. intros [-> [->|?]]; tauto.
Qed.

Lemma compile_batch_variants_frame max_length l ps o :
  let o' := compile_batch_variants max_length l ps o in
  _cached_pref o' = _cached_pref o ∧ _cached_generate o' = _cached_generate o
  ∧ config_fields o' = config_fields o.
Proof.
  cbv zeta. revert o. induction ps as [|p ps IH]; intros o; [done|].
  rewrite compile_batch_variants_cons.
  destruct (IH (set_cached_pref_batch
                  (<[(l, p):=PrefillInsertBatch max_length l p]> (_cached_pref_batch o)) o))
    as (-> & -> & ->). done.
Qed.

Lemma compile_variants_frame max_length ls o :
  let o' := compile_variants max_length ls o in
  _cached_generate o' = _cached_generate o ∧ config_fields o' = config_fields o.
Proof.
  cbv zeta. revert o. induction ls as [|a ls IH]; intros o; cbn; [done|].
  case_decide; [done|]. case_decide.
  - destruct (IH (set_cached_pref (<[a:=PrefillInsert a]> (_cached_pref o)) o))
      as (-> & ->). done.
  - match goal with |- context [compile_variants _ _ ?o1] =>
      destruct (IH o1) as (-> & ->) end.
    match goal with |- context [compile_batch_variants ?m ?l ?ps ?o1] =>
      destruct (compile_batch_variants_frame m l ps o1) as (_ & -> & ->) end.
    done.
Qed.

Lemma compile_variants_value_pref max_length ls o l :
  _cached_pref (compile_variants max_length ls o) !! l
  = if decide (l ∈ compiled_lengths max_length ls)
    then Some (PrefillInsert l) else _cached_pref o !! l.
Proof.
  revert o. induction ls as [|a ls IH]; intros o; cbn.
  - rewrite decide_False; [done|]. apply not_elem_of_nil.
  - destruct (decide (a > max_length));
      [rewrite decide_False; [done|]; apply not_elem_of_nil|].
    assert (∀ o1, _cached_pref o1 = <[a:=PrefillInsert a]> (_cached_pref o) →
              _cached_pref (compile_variants max_length ls o1) !! l
              = if decide (l ∈ a :: compiled_lengths max_length ls)
                then Some (PrefillInsert l) else _cached_pref o !! l) as Hstep.
    { intros o1 Ho1. rewrite IH, Ho1.
      destruct (decide (l ∈ compiled_lengths max_length ls)) as [Hin|Hout].
      - rewrite decide_True; [done|]. rewrite elem_of_cons. auto.
      - destruct (decide (a = l)) as [<-|Hne].
        + rewrite lookup_insert_eq, decide_True; [done|]. rewrite elem_of_cons. auto.
        + rewrite lookup_insert_ne by done. rewrite decide_False; [done|].
          rewrite elem_of_cons. intros [->|?]; tauto. }
    destruct (decide (a = 64 ∨ a = 1024)); apply Hstep; [done|].
    by rewrite compile_batch_variants_pref.
Qed.

Lemma compile_variants_value_batch max_length ls o l n :
  _cached_pref_batch (compile_variants max_length ls o) !! (l, n)
  = if decide (l ∈ compiled_lengths max_length ls ∧ l ≠ 64 ∧ l ≠ 1024
               ∧ max_length `div` l <= n < max_length `div` (l `div` 2))
    then Some (PrefillInsertBatch max_length l n)
    else _cached_pref_batch o !! (l, n).
Proof.
  revert o. induction ls as [|a ls IH]; intros o; cbn.
  - rewrite decide_False; [done|]. rewrite elem_of_nil. tauto.
  - destruct (decide (a > max_length));
      [rewrite decide_False; [done|]; rewrite elem_of_nil; tauto|].
    destruct (decide (a = 64 ∨ a = 1024)) as [Hskip|Hskip]; rewrite IH.
    + cbn [_cached_pref_batch set_cached_pref].
      destruct (decide (l ∈ compiled_lengths max_length ls ∧ _)) as [Hin|Hout].
      * rewrite decide_True; [done|]. rewrite elem_of_cons. tauto.
      * rewrite decide_False; [done|]. rewrite elem_of_cons.
        intros ([->|?] & ? & ? & ?); [lia|tauto].
    + rewrite compile_batch_variants_value. cbn [_cached_pref_batch set_cached_pref].
      unfold range.
      destruct (decide (l ∈ compiled_lengths max_length ls ∧ _)) as [Hin|Hout].
      * rewrite decide_True; [done|]. rewrite elem_of_cons. tauto.
      * destruct (decide (l = a ∧ _)) as [[-> Hn%elem_of_seqZ]|Hne].
        -- rewrite decide_True; [done|]. rewrite elem_of_cons.
           split; [by left|]. lia.
        -- rewrite decide_False; [done|]. rewrite elem_of_cons.
           intros ([->|?] & ? & ? & ?); [|tauto]. apply Hne. split; [done|].
           apply elem_of_seqZ. lia.
Qed.
End warmup_value_facts.

(** X9: what [warmup] leaves in the object.  The generate function is
    set; under every interesting length up to [max_length] the
    single-request cache holds the variant compiled for that very length,
    and under every (length, count) that the inner loop reaches the
    batched cache holds the variant compiled for that length and count;
    every other key of either cache keeps what it had; the configuration
    and the buckets are not touched. *)
Theorem warmup_stores `{Engine} (max_length : Z) (o : OfflineInference) :
  let o' := warmup max_length o in
  _cached_generate o' = Some Generate
  ∧ (∀ l, l ∈ interesting_buckets → l <= max_length →
          _cached_pref o' !! l = Some (PrefillInsert l))
  ∧ (∀ l, ¬ (l ∈ interesting_buckets ∧ l <= max_length) →
          _cached_pref o' !! l = _cached_pref o !! l)
  ∧ (∀ l n, l ∈ interesting_buckets → l <= max_length → l ≠ 64 → l ≠ 1024 →
            max_length `div` l <= n < max_length `div` (l `div` 2) →
            _cached_pref_batch o' !! (l, n)
            = Some (PrefillInsertBatch max_length l n))
  ∧ (∀ l n, ¬ (l ∈ interesting_buckets ∧ l <= max_length ∧ l ≠ 64 ∧ l ≠ 1024
               ∧ max_length `div` l <= n < max_length `div` (l `div` 2)) →
            _cached_pref_batch o' !! (l, n) = _cached_pref_batch o !! (l, n))
  ∧ config_fields o' = config_fields o.
Proof.
  cbv zeta. unfold warmup.
  destruct (compile_variants_frame max_length interesting_buckets
              (set_cached_generate (Some Generate) o)) as [Hgen Hconfig].
  split; [by rewrite Hgen|].
  split; [|split; [|split; [|split]]].
  - intros l Hl Hle. rewrite compile_variants_value_pref, decide_True; [done|].
    by apply compiled_lengths_interesting.
  - intros l Hl. rewrite compile_variants_value_pref, decide_False; [done|].
    by rewrite compiled_lengths_interesting.
  - intros l n Hl Hle H64 H1024 Hn.
    rewrite compile_variants_value_batch, decide_True; [done|].
    by rewrite compiled_lengths_interesting.
  - intros l n Hl. rewrite compile_variants_value_batch, decide_False; [done|].
    rewrite compiled_lengths_interesting. tauto.
  - by rewrite Hconfig.
Qed.

Lemma warmup_stores_witness :
  _cached_pref (warmup 1024 (fresh_object true 16 1024 1024)) !! 256
  = Some (PrefillInsert 256)
  ∧ _cached_pref_batch (warmup 1024 (fresh_object true 16 1024 1024)) !! (256, 5)
    = Some (PrefillInsertBatch 1024 256 5)
  ∧ _cached_pref_batch (warmup 1024 (fresh_object true 16 1024 1024)) !! (256, 8)
    = None.
Proof.
  destruct (@warmup_stores counting_engine 1024 (fresh_object true 16 1024 1024))
    as (_ & Hpref & _ & Hbatch & Hother & _).
  split; [apply Hpref; [apply (bool_decide_unpack _); vm_compute; reflexivity|lia]|].
  split.
  - apply Hbatch; [apply (bool_decide_unpack _); vm_compute; reflexivity|lia|lia|lia|].
    vm_compute. split; [discriminate|reflexivity].
  - rewrite Hother; [reflexivity|].
    intros (_ & _ & _ & _ & _ & Hn). vm_compute in Hn. discriminate.
Defined.

(** ** Warm-up and prefill together *)

Section warmed_up_facts.
Context `{Engine}.
Implicit Types (st : pstate) (o : OfflineInference) (b : list (nat * ref)).

Lemma warmed_up_pref max_length o l :
  warmed_up max_length o →
  _cached_pref o !! l
  = if decide (l ∈ interesting_buckets ∧ l <= max_length)
    then Some (PrefillInsert l) else None.
Proof.
  intros (o0 & Hp & _ & -> & _). unfold warmup.
  rewrite compile_variants_value_pref. cbn [_cached_pref set_cached_generate].
  rewrite Hp, lookup_empty.
  destruct (decide (l ∈ compiled_lengths max_length interesting_buckets)) as [Hl|Hl];
    rewrite compiled_lengths_interesting in Hl;
    [by rewrite decide_True|by rewrite decide_False].
Qed.

Lemma warmed_up_batch max_length o l n :
  warmed_up max_length o →
  _cached_pref_batch o !! (l, n)
  = if decide (l ∈ interesting_buckets ∧ l <= max_length ∧ l ≠ 64 ∧ l ≠ 1024
               ∧ max_length `div` l <= n < max_length `div` (l `div` 2))
    then Some (PrefillInsertBatch max_length l n) else None.
Proof.
  intros (o0 & _ & Hb & _ & ->). unfold warmup.
  rewrite compile_variants_value_batch. cbn [_cached_pref_batch set_cached_generate].
  rewrite Hb, lookup_empty.
  destruct (decide (l ∈ compiled_lengths max_length interesting_buckets ∧ _)) as [Hl|Hl];
    rewrite compiled_lengths_interesting in Hl;
    [rewrite decide_True|rewrite decide_False]; tauto.
Qed.

Lemma prefill_single_exact b prefill_len st fn :
  dummy (self st) = false →
  prefills_singly (self st) prefill_len (length b) = true →
  _cached_pref (self st) !! prefill_len = Some fn →
  ∃ l st', prefill b prefill_len st = (Ok (RetList l), st')
    ∧ targets l = b ∧ kept st st' ∧ outbox st' = outbox st
    ∧ calls st' = calls st ++ ((λ p, CallPrefill fn p.1 p.2) <$> b).
Proof.
  intros Hdummy Hsingle Hfn.
  destruct (prefill_each_run fn b st) as (l & st' & Hrun & ?).
  exists l, st'. split; [|done].
  unfold prefill. mrun. rewrite Hdummy.
  fold (prefills_singly (self st) prefill_len (length b)).
  rewrite Hsingle, Hfn. mrun. by rewrite Hrun.
Qed.

Lemma prefills_batched_count o prefill_len n :
  prefills_singly o prefill_len n = false → 0 < prefill_len →
  enable_batch_prefill o = true ∧ prefill_len ≠ max_prefill_length o
  ∧ max_prefill_length o `div` prefill_len <= Z.of_nat n.
Proof.
  unfold prefills_singly. intros Hs Hpos.
  apply orb_false_iff in Hs as [Hs Hlt]. apply orb_false_iff in Hs as [Hen Heq].
  apply negb_false_iff in Hen. apply bool_decide_eq_false in Heq, Hlt.
  split; [done|]. split; [done|].
  apply Z.div_le_upper_bound; lia.
Qed.
End warmed_up_facts.

(** X10: warm-up covers every single-request prefill.  On an object
    warmed up for [max_length] and outside dummy mode, whenever [prefill]
    takes its single-request branch for an interesting length up to
    [max_length], it succeeds: it calls the variant compiled for that
    length once per member, in bucket order, and returns one result per
    member in the same order, leaving buckets, requests and queue as they
    were.  For any other length it fails with the assertion error. *)
Theorem warmed_up_single_prefill `{Engine} (max_length : Z)
    (prefill_bucket : list (nat * ref)) (prefill_len : Z) (st : pstate) :
  warmed_up max_length (self st) →
  dummy (self st) = false →
  prefills_singly (self st) prefill_len (length prefill_bucket) = true →
  (prefill_len ∈ interesting_buckets → prefill_len <= max_length →
     ∃ l st', prefill prefill_bucket prefill_len st = (Ok (RetList l), st')
       ∧ targets l = prefill_bucket ∧ kept st st' ∧ outbox st' = outbox st
       ∧ calls st' = calls st
           ++ ((λ p, CallPrefill (PrefillInsert prefill_len) p.1 p.2) <$> prefill_bucket))
  ∧ (¬ (prefill_len ∈ interesting_buckets ∧ prefill_len <= max_length) →
     prefill prefill_bucket prefill_len st
     = (Raise (AssertionError "prefill fn not found"), st)).
Proof.
  intros Hwarm Hdummy Hsingle. split.
  - intros Hl Hle. apply prefill_single_exact; [done|done|].
    by rewrite (warmed_up_pref max_length), decide_True.
  - intros Hl. apply prefill_missing_single; [done|done|].
    by rewrite (warmed_up_pref max_length), decide_False.
Qed.

(** X11: warm-up covers the batched prefill only up to twice the
    capacity.  On an object warmed up for its own maximum prefill length
    and outside dummy mode, when [prefill] takes its batched branch for an
    interesting length [L] on a bucket whose buffers can be built: if [L]
    is neither 64 nor 1024 and the bucket has fewer than
    [maximum // (L // 2)] members, it makes one call of the variant
    compiled for [(L, members)]; otherwise (a bucket that has grown to
    [maximum // (L // 2)] members or more, or length 1024 under a larger
    maximum) no variant exists and it fails with the assertion error,
    nothing called or changed. *)
Theorem warmed_up_batched_prefill `{Engine} (prefill_bucket : list (nat * ref))
    (prefill_len : Z) (st : pstate) :
  let maximum := max_prefill_length (self st) in
  let num_prompts := Z.of_nat (length prefill_bucket) in
  warmed_up maximum (self st) →
  dummy (self st) = false →
  prefills_singly (self st) prefill_len (length prefill_bucket) = false →
  buildable st prefill_bucket →
  prefill_len ∈ interesting_buckets → prefill_len <= maximum →
  (prefill_len ≠ 64 → prefill_len ≠ 1024 →
   num_prompts < maximum `div` (prefill_len `div` 2) →
     ∃ l st', prefill prefill_bucket prefill_len st = (Ok (RetList l), st')
       ∧ targets l = prefill_bucket ∧ kept st st' ∧ outbox st' = outbox st
       ∧ calls st' = calls st
           ++ [CallPrefillBatch (PrefillInsertBatch maximum prefill_len num_prompts)
                 prefill_bucket])
  ∧ (prefill_len = 64 ∨ prefill_len = 1024
     ∨ maximum `div` (prefill_len `div` 2) <= num_prompts →
     prefill prefill_bucket prefill_len st
     = (Raise (AssertionError "prefill batch not found"), st)).
Proof.
  cbv zeta. intros Hwarm Hdummy Hsingle Hbuild Hl Hle.
  assert (0 < prefill_len) as Hpos.
  { unfold interesting_buckets in Hl. rewrite !elem_of_cons, elem_of_nil in Hl. lia. }
  destruct (prefills_batched_count _ _ _ Hsingle Hpos) as (_ & _ & Hmin).
  split.
  - intros H64 H1024 Hn.
    pose proof (prefill_concat_exact prefill_bucket prefill_len st
                  (PrefillInsertBatch (max_prefill_length (self st)) prefill_len
                     (Z.of_nat (length prefill_bucket))) Hbuild) as Hrun.
    cbv zeta in Hrun.
    rewrite (warmed_up_batch (max_prefill_length (self st))), decide_True in Hrun
      by (done || tauto).
    specialize (Hrun eq_refl).
    eexists _, _. split.
    { unfold prefill. mrun. rewrite Hdummy.
      fold (prefills_singly (self st) prefill_len (length prefill_bucket)).
      rewrite Hsingle. mrun. rewrite Hrun. reflexivity. }
    split; [apply targets_imap|]. split; [|done]. split; reflexivity.
  - intros Hout. apply prefill_missing_batch; [done|done|done|].
    rewrite (warmed_up_batch (max_prefill_length (self st))), decide_False;
      [done| |done].
    lia.
Qed.

Lemma warmed_up_fresh (enable : bool) (n : nat) (maximum decode_len : Z)
    (buckets : dict Z (list (nat * ref))) :
  @warmed_up counting_engine maximum
    (set_prefill_buckets buckets (warmup maximum (fresh_object enable n maximum decode_len))).
Proof. exists (fresh_object enable n maximum decode_len). done. Qed.

Lemma warmed_up_single_prefill_witness :
  calls (@prefill counting_engine [(0, 0)]%nat 512 two_halves_state).2
  = [CallPrefill (PrefillInsert 512) 0%nat 0%nat].
Proof.
  destruct (@warmed_up_single_prefill counting_engine 1024 [(0, 0)]%nat 512
              two_halves_state) as [Hok _].
  - exists (fresh_object true 16 1024 1024). done.
  - reflexivity.
  - vm_compute. reflexivity.
  - destruct Hok as (l & st' & Hrun & _ & _ & _ & Hcalls).
    + apply (bool_decide_unpack _). vm_compute. reflexivity.
    + lia.
    + rewrite Hrun. exact Hcalls.
Defined.

Lemma warmed_up_batched_prefill_witness :
  @prefill counting_engine ((λ i, (i, i)) <$> seq 0 16) 128 overgrown_state
  = (Raise (AssertionError "prefill batch not found"), overgrown_state).
Proof.
  refine (proj2 (@warmed_up_batched_prefill counting_engine
                   ((λ i, (i, i)) <$> seq 0 16) 128 overgrown_state _ _ _ _ _ _) _).
  - apply warmed_up_fresh.
  - reflexivity.
  - vm_compute. reflexivity.
  - split; [repeat constructor; vm_compute; discriminate|vm_compute; discriminate].
  - apply (bool_decide_unpack _). vm_compute. reflexivity.
  - vm_compute. discriminate.
  - right. right. vm_compute. discriminate.
Defined.

(** ** The [detokenize] thread over whole runs *)

Section consumer_run_facts.
Context `{Engine} {CB : Type}.
Variable emit_first_token : string → Z → CB → bool * CB.
Variable emit_token : string → Z → CB → bool * CB.
Implicit Types (st : @state _ CB).

Lemma producer_run_consumer_frame (m : M unit) next l st :
  slot_to_id (producer_run m next l st).2 = slot_to_id st
  ∧ cpc (producer_run m next l st).2 = cpc st
  ∧ cb (producer_run m next l st).2 = cb st
  ∧ live (producer_run m next l st).2 = live st
  ∧ detokenize_backlog (producer_run m next l st).2 = detokenize_backlog st
  ∧ empty_slots (producer_run m next l st).2 = empty_slots st.
Proof. unfold producer_run. by destruct (m (prod st)) as [[?|?] ?]. Qed.

Lemma producer_step_consumer_frame st l st' :
  producer_step st = Some (l, st') →
  slot_to_id st' = slot_to_id st ∧ cpc st' = cpc st ∧ cb st' = cb st.
Proof.
  assert (∀ m next l0 st0, producer_run m next l0 st0 = (l, st') →
            slot_to_id st' = slot_to_id st0 ∧ cpc st' = cpc st0 ∧ cb st' = cb st0)
    as Hrun.
  { intros m next l0 st0 Hm.
    destruct (producer_run_consumer_frame m next l0 st0) as (? & ? & ? & _).
    rewrite Hm in *. done. }
  unfold producer_step.
  destruct (outbox (prod st)) as [|e rest].
  - destruct (ppc st) as [[|row data]| | | |e].
    + intros [= Hm]. by apply Hrun in Hm.
    + destruct (last (empty_slots st)) as [slot|]; intros [= Hm]; by apply Hrun in Hm.
    + destruct (slot_to_id st) eqn:Hocc.
      * by intros [= <- <-].
      * rewrite <-Hocc. intros [= Hm]. by apply Hrun in Hm.
    + destruct (cpc st); intros; by simplify_eq.
    + done.
    + done.
  - case_decide; intros; by simplify_eq.
Qed.

Lemma dict_keys_del_NoDup {V} (k : nat) (d : dict nat V) :
  NoDup (dict_keys d) → NoDup (dict_keys (dict_del k d)).
Proof.
  induction d as [|[k0 v0] d IH]; [done|]. cbn. intros [Hk0 Hd]%NoDup_cons.
  case_decide; [done|]. cbn. apply NoDup_cons. split; [|by apply IH].
  intros Hin. apply Hk0. clear -Hin. induction d as [|[k1 v1] d IH]; [done|].
  cbn in *. case_decide; [by right|].
  cbn in Hin. apply elem_of_cons in Hin as [->|Hin]; [by left|right; by apply IH].
Qed.

Lemma consumer_step_consumer_ok st l st' :
  consumer_ok st →
  consumer_step emit_first_token emit_token st = Some (l, st') →
  consumer_ok st'.
Proof.
  intros [Hnd Hrel]. unfold consumer_step, consumer_ok.
  destruct (cpc st) as [| |first_token row_id slot|result_tokens
                        |newly_empty [|slot todo]|newly_empty slot todo| |e] eqn:Hpc;
    cbn [release_ok] in Hrel.
  - intros [= <- <-]. cbn. by destruct (live st).
  - destruct (detokenize_backlog st) as [|[]]; intros; by simplify_eq.
  - destruct (emit_first_token row_id first_token (cb st)) as [[] c];
      intros [= <- <-]; cbn; [done|]. split; [|done]. by apply dict_keys_set.
  - destruct (scan_slots_freed emit_token (max_decode_length (self (prod st)))
                result_tokens (slot_to_id st) (cb st) []) as (freed & Hfreed & Hsub).
    destruct (scan_slots _ _ _ _ _ _) as [c newly_empty]. cbn in Hfreed. subst.
    intros [= <- <-]. cbn. split; [done|]. split.
    + by eapply sublist_NoDup.
    + intros s Hs. by eapply elem_of_sublist.
  - intros [= <- <-]. cbn. by destruct (drained _ _ _).
  - destruct Hrel as [[Hslot Htodo]%NoDup_cons Hin].
    destruct (dict_lookup slot (slot_to_id st)) as [v|] eqn:Hlook.
    + intros [= <- <-]. cbn. split; [by apply dict_keys_del_NoDup|].
      split; [done|]. intros s Hs. apply dict_keys_del_other.
      * intros ->. done.
      * apply Hin. by right.
    + apply dict_lookup_None in Hlook. destruct Hlook. apply Hin. by left.
  - intros [= <- <-]. cbn. done.
  - done.
  - done.
Qed.

Lemma thread_step_consumer_ok t st l st' :
  consumer_ok st →
  thread_step emit_first_token emit_token t st = Some (l, st') →
  consumer_ok st'.
Proof.
  intros Hok. unfold thread_step. destruct (alive st); [|done].
  destruct t.
  - intros (Hocc & Hpc & _)%producer_step_consumer_frame.
    unfold consumer_ok. by rewrite Hocc, Hpc.
  - by apply consumer_step_consumer_ok.
Qed.

Lemma execution_consumer_ok st0 tr st :
  execution emit_first_token emit_token st0 tr st →
  consumer_ok st0 → consumer_ok st.
Proof.
  induction 1 as [|st0 tr st1 l st2 _ IH Hstep]; [done|].
  intros Hok. specialize (IH Hok). inversion Hstep as [t ? ? ? Hts]; subst.
  exact (thread_step_consumer_ok t st1 l st2 IH Hts).
Qed.
End consumer_run_facts.

(** X12: the [detokenize] thread never fails on [del slot_to_id[slot]].
    In every state that a run of [batch_inference_with_callback] can
    reach, with callbacks that return normally, the thread has not been
    killed; the occupancy map has no slot twice; and while the thread
    works through [newly_empty], every slot it is still to delete is there
    to be deleted. *)
Theorem detokenize_never_killed `{Engine} {CB : Type}
    (emit_first_token emit_token : string → Z → CB → bool * CB)
    (o : OfflineInference) (h : store) (data : list ref) (cb0 : CB)
    (tr : list label) (st : state) :
  execution emit_first_token emit_token (initial o h data cb0) tr st →
  alive st = true
  ∧ (∀ e, cpc st ≠ CKilled e)
  ∧ NoDup (dict_keys (slot_to_id st))
  ∧ (∀ newly_empty slot todo, cpc st = CRelease newly_empty (slot :: todo) →
       is_Some (dict_lookup slot (slot_to_id st))).
Proof.
  intros Hexec.
  destruct (execution_consumer_ok _ _ _ _ _ Hexec) as [Hnd Hrel].
  { split; [constructor|done]. }
  split; [|split; [|split]].
  - unfold alive. by destruct (cpc st).
  - intros e He. by rewrite He in Hrel.
  - done.
  - intros newly_empty slot todo Hpc. rewrite Hpc in Hrel. destruct Hrel as [_ Hin].
    destruct (dict_lookup slot (slot_to_id st)) eqn:Hlook; [done|].
    apply dict_lookup_None in Hlook. destruct Hlook. apply Hin. by left.
Qed.

Lemma detokenize_never_killed_witness :
  alive pair_reached.2 = true ∧ NoDup (dict_keys (slot_to_id pair_reached.2)).
Proof.
  destruct (@detokenize_never_killed counting_engine unit never_stop never_stop
              (warmup 1024 (fresh_object false 2 1024 1024))
              (λ r, request (if decide (r = 0%nat) then "a" else "b") 128 100)
              [0%nat; 1%nat] tt pair_reached.1 pair_reached.2
              pair_reached_execution) as (Halive & _ & Hnd & _).
  split; [exact Halive|exact Hnd].
Defined.

Section freed_slot_facts.
Context `{Engine} {CB : Type}.
Variable emit_first_token : string → Z → CB → bool * CB.
Variable emit_token : string → Z → CB → bool * CB.
Implicit Types (st : @state _ CB).

Lemma dict_keys_del_elem {V} (k k' : nat) (d : dict nat V) :
  NoDup (dict_keys d) →
  k' ∈ dict_keys (dict_del k d) ↔ k' ∈ dict_keys d ∧ k' ≠ k.
Proof.
  induction d as [|[k0 v0] d IH]; cbn.
  - rewrite elem_of_nil. tauto.
  - intros [Hk0 Hd]%NoDup_cons. case_decide as Hk; cbn; rewrite !elem_of_cons.
    + subst k0. split; [|tauto]. intros Hin. split; [by right|]. by intros ->.
    + unfold dict_keys in IH. rewrite IH by done. split; [|tauto].
      intros [->|[? ?]]; [split; [by left|congruence]|tauto].
Qed.

Lemma dict_keys_dels_elem {V} (todo : list nat) (k' : nat) (d : dict nat V) :
  NoDup (dict_keys d) →
  k' ∈ dict_keys (foldl (λ d s, dict_del s d) d todo) ↔ k' ∈ dict_keys d ∧ k' ∉ todo.
Proof.
  revert d. induction todo as [|s todo IH]; intros d Hnd; cbn [foldl].
  - rewrite elem_of_nil. tauto.
  - rewrite IH by by apply dict_keys_del_NoDup.
    rewrite dict_keys_del_elem, not_elem_of_cons by done. tauto.
Qed.

Lemma scan_slots_mono mdl (rt : ResultTokens) items (c : CB) ne s :
  s ∈ ne → s ∈ (scan_slots emit_token mdl rt items c ne).2.
Proof.
  intros Hs. destruct (scan_slots_freed emit_token mdl rt items c ne) as (freed & -> & _).
  apply elem_of_app. by left.
Qed.

Lemma scan_slots_at_max mdl (rt : ResultTokens) items (c : CB) ne slot :
  slot ∈ items.*1 → (rt slot).2 >= mdl →
  slot ∈ (scan_slots emit_token mdl rt items c ne).2.
Proof.
  revert c ne. induction items as [|[s id_] items IH]; intros c ne Hin Hlen; cbn in *.
  - by apply elem_of_nil in Hin.
  - destruct (rt s) as [[token is_valid] len] eqn:Hrt.
    destruct (if decide (is_valid ≠ 0) then emit_token id_ token c else (false, c))
      as [should_finish c'].
    apply elem_of_cons in Hin as [->|Hin].
    + rewrite Hrt in Hlen. cbn in Hlen.
      rewrite (bool_decide_eq_true_2 (len >= mdl)) by done.
      rewrite orb_true_r. apply scan_slots_mono, elem_of_app. right. by left.
    + by apply IH.
Qed.

Lemma scan_slots_invalid mdl (rt : ResultTokens) items (c : CB) ne slot :
  (rt slot).1.2 = 0 → (rt slot).2 < mdl → slot ∉ ne →
  slot ∉ (scan_slots emit_token mdl rt items c ne).2.
Proof.
  revert c ne. induction items as [|[s id_] items IH]; intros c ne Hval Hlen Hne; cbn.
  - done.
  - destruct (rt s) as [[token is_valid] len] eqn:Hrt.
    destruct (decide (s = slot)) as [->|Hs].
    + pose proof Hval as Hval'. pose proof Hlen as Hlen'.
      rewrite Hrt in Hval', Hlen'. cbn in Hval', Hlen'. subst is_valid.
      rewrite decide_False by (intros Hc; by apply Hc).
      rewrite (bool_decide_eq_false_2 (len >= mdl)) by lia. cbn. by apply IH.
    + destruct (if decide (is_valid ≠ 0) then emit_token id_ token c else (false, c))
        as [should_finish c'].
      destruct (should_finish || bool_decide (len >= mdl)); apply IH; try done.
      rewrite elem_of_app, list_elem_of_singleton. intros [?|?]; [done|congruence].
Qed.
End freed_slot_facts.

(** X13: what a step entry does to a slot.  Let the consumer get a
    step entry and process it to the end of the loop body.  An occupied
    slot for which the entry reports an output length of at least
    [max_decode_length] is then no longer occupied and is back in the free
    list, whatever the callback answered.  An occupied slot whose token is
    marked invalid and whose length is below [max_decode_length] stays
    occupied (its callback is not called).  Only occupied slots are
    freed. *)
Theorem step_entry_frees `{Engine} {CB : Type}
    (emit_first_token emit_token : string → Z → CB → bool * CB)
    (st : state) (result_tokens : ResultTokens) (rest : list entry) :
  cpc st = CGet →
  detokenize_backlog st = StepEntry result_tokens :: rest →
  NoDup (dict_keys (slot_to_id st)) →
  ∃ st1 fuel,
    consumer_step emit_first_token emit_token st = Some (Tau, st1)
    ∧ ∀ fuel', (fuel <= fuel')%nat →
        let st' := finish_entry emit_first_token emit_token fuel' st1 in
        (∀ slot, slot ∈ dict_keys (slot_to_id st) →
           (result_tokens slot).2 >= max_decode_length (self (prod st)) →
           (slot ∉ dict_keys (slot_to_id st')) ∧ slot ∈ empty_slots st')
        ∧ (∀ slot, slot ∈ dict_keys (slot_to_id st) →
             (result_tokens slot).1.2 = 0 →
             (result_tokens slot).2 < max_decode_length (self (prod st)) →
             slot ∈ dict_keys (slot_to_id st'))
        ∧ (∀ slot, slot ∈ empty_slots st' →
             slot ∈ empty_slots st ∨ slot ∈ dict_keys (slot_to_id st)).
Proof.
  intros Hpc Hq Hnd.
  destruct (detokenize_entry emit_first_token emit_token st _ rest Hpc Hq Hnd)
    as (st1 & fuel & Hstep & Hrun).
  exists st1, fuel. split; [done|]. intros fuel' Hfuel.
  destruct (Hrun fuel' Hfuel) as (_ & _ & _ & Hfreed).
  destruct (Hfreed result_tokens eq_refl) as [Hocc Hempty]. cbv zeta.
  rewrite Hempty. split; [|split].
  - intros slot Hslot Hlen.
    assert (slot ∈ freed_by emit_token result_tokens st) as Hin.
    { by apply scan_slots_at_max. }
    split; [|apply elem_of_app; by right].
    rewrite Hocc, dict_keys_dels_elem by done. tauto.
  - intros slot Hslot Hval Hlen. rewrite Hocc, dict_keys_dels_elem by done.
    split; [done|]. apply scan_slots_invalid; [done|done|apply not_elem_of_nil].
  - intros slot [Hin|Hin]%elem_of_app; [by left|right].
    destruct (scan_slots_freed emit_token (max_decode_length (self (prod st)))
                result_tokens (slot_to_id st) (cb st) []) as (freed & Hf & Hsub).
    unfold freed_by in Hin. rewrite Hf in Hin. cbn in Hin.
    by eapply elem_of_sublist.
Qed.

Lemma step_entry_frees_witness :
  ∃ st1 fuel,
    consumer_step never_stop never_stop last_step_state = Some (Tau, st1)
    ∧ (1%nat ∉ dict_keys (slot_to_id (finish_entry never_stop never_stop fuel st1)))
    ∧ 1%nat ∈ empty_slots (finish_entry never_stop never_stop fuel st1).
Proof.
  destruct (@step_entry_frees counting_engine unit never_stop never_stop
              last_step_state (λ _, (5, 1, 1024)) [])
    as (st1 & fuel & Hstep & Hrun).
  - reflexivity.
  - reflexivity.
  - apply (bool_decide_unpack _). vm_compute. reflexivity.
  - exists st1, fuel. split; [exact Hstep|].
    destruct (Hrun fuel (Nat.le_refl _)) as (Hmax & _ & _).
    apply (Hmax 1%nat).
    + apply (bool_decide_unpack _). vm_compute. reflexivity.
    + vm_compute. discriminate.
Defined.

(** ** Serving with batch prefill disabled *)

Section unbatched_facts.
Context `{Engine}.
Implicit Types (st : pstate) (work : list (nat * ref)).

Lemma prefill_one_single_exact slot row padded_len st fn :
  dummy (self st) = false →
  prefills_singly (self st) padded_len 1 = true →
  _cached_pref (self st) !! padded_len = Some fn →
  ∃ first_token st',
    prefill_one slot row padded_len st = (Ok (), st')
    ∧ kept st st'
    ∧ outbox st' = outbox st ++ [FirstTokenEntry first_token (id (heap st row)) slot]
    ∧ calls st' = calls st ++ [CallPrefill fn slot row].
Proof.
  intros Hdummy Hsingle Hfn.
  destruct (prefill_single_exact [(slot, row)] padded_len st fn Hdummy Hsingle Hfn)
    as (l & st1 & Hrun & Ht & Hk & Ho & Hc).
  destruct l as [|[[tok slot'] row'] [|??]]; try done. injection Ht as -> ->.
  exists tok. unfold prefill_one. mrun. rewrite Hrun. mrun.
  eexists. split; [reflexivity|]. cbn. destruct Hk as [Hk1 Hk2].
  rewrite Ho, Hk2. done.
Qed.

Lemma flush_leftovers_no_buckets st :
  prefill_buckets (self st) = [] → flush_leftovers st = (Ok (), st).
Proof.
  intros Hb. unfold flush_leftovers. mrun. rewrite Hb. cbn [dict_keys fmap list_fmap for_each].
  mrun. f_equal. destruct st as [o ? ? ?]. cbn in *. f_equal.
  destruct o. cbn in *. by subst.
Qed.

Lemma serve_rows_unbatched work st :
  enable_batch_prefill (self st) = false →
  dummy (self st) = false →
  Forall (λ p, is_Some (_cached_pref (self st) !! padded_length (heap st p.2))) work →
  ∃ st' cs es,
    serve_rows work st = (Ok (), st')
    ∧ kept st st'
    ∧ calls st' = calls st ++ cs ∧ Forall2 (prefills_alone st) cs work
    ∧ outbox st' = outbox st ++ es ∧ entry_tags es = tagged (heap st) work
    ∧ length es = length work.
Proof.
  intros Hen Hdummy Hwork. revert st Hen Hdummy Hwork.
  induction work as [|[slot row] work IH]; intros st Hen Hdummy Hwork.
  - exists st, [], []. cbn. rewrite !app_nil_r.
    repeat split; [apply kept_refl|constructor].
  - apply Forall_cons in Hwork as [[fn Hfn] Hwork]. cbn in Hfn.
    destruct (prefill_one_single_exact slot row (padded_length (heap st row)) st fn)
      as (tok & st1 & Hrun & Hk & Ho & Hc); [done| |done|].
    { unfold prefills_singly. by rewrite Hen. }
    pose proof (kept_config _ _ Hk) as Hcfg. destruct Hk as [Hself Hheap].
    assert (self_fields : enable_batch_prefill (self st1) = false
            ∧ dummy (self st1) = false ∧ _cached_pref (self st1) = _cached_pref (self st)).
    { rewrite Hself. done. }
    destruct self_fields as (Hen1 & Hdummy1 & Hpref1).
    destruct (IH st1 Hen1 Hdummy1) as (st' & cs & es & Hrest & Hk' & Hc' & Hcs & Ho' & Hes & Hlen).
    { rewrite Hpref1, Hheap. done. }
    exists st', (CallPrefill fn slot row :: cs),
      (FirstTokenEntry tok (id (heap st row)) slot :: es).
    split.
    { cbn [serve_rows]. mrun. rewrite serve_row_unfold. cbv zeta. rewrite Hen, Hrun.
      exact Hrest. }
    split; [by eapply kept_trans|].
    split; [rewrite Hc', Hc, <-app_assoc; done|].
    split.
    { constructor; [by exists fn|].
      eapply Forall2_impl; [exact Hcs|]. intros c p (fn' & Hfn' & ->).
      exists fn'. by rewrite <-Hpref1, <-Hheap. }
    split; [rewrite Ho', Ho, <-app_assoc; done|].
    split; [|cbn; by rewrite Hlen].
    change (FirstTokenEntry tok (id (heap st row)) slot :: es)
      with ([FirstTokenEntry tok (id (heap st row)) slot] ++ es).
    rewrite entry_tags_app, Hes, Hheap. reflexivity.
Qed.
End unbatched_facts.

(** X14: serving with batch prefill disabled.  If every request of the
    input has a single-request variant compiled for its padded length, the
    producer's sequential work succeeds: it prefills the requests one by
    one in input order, each with the variant for its own length and in
    the slot it was given, queues their first tokens in that same order,
    changes no request, and never puts anything in a bucket. *)
Theorem unbatched_serving `{Engine} (work : list (nat * ref)) (st : pstate) :
  enable_batch_prefill (self st) = false →
  dummy (self st) = false →
  prefill_buckets (self st) = [] →
  Forall (λ p, is_Some (_cached_pref (self st) !! padded_length (heap st p.2))) work →
  ∃ st' cs es,
    serve_all work st = (Ok (), st')
    ∧ calls st' = calls st ++ cs ∧ Forall2 (prefills_alone st) cs work
    ∧ outbox st' = outbox st ++ es ∧ entry_tags es = tagged (heap st) work
    ∧ length es = length work
    ∧ heap st' = heap st ∧ prefill_buckets (self st') = [].
Proof.
  intros Hen Hdummy Hb Hwork.
  destruct (serve_rows_unbatched work st Hen Hdummy Hwork)
    as (st' & cs & es & Hrun & Hk & Hc & Hcs & Ho & Hes & Hlen).
  pose proof (kept_buckets _ _ Hk) as Hb'. rewrite Hb in Hb'.
  exists st', cs, es. split.
  { unfold serve_all. mrun. rewrite Hrun. by apply flush_leftovers_no_buckets. }
  destruct Hk as [_ Hheap]. done.
Qed.

Lemma unbatched_serving_witness :
  let st := fresh_pstate (warmup 1024 (fresh_object false 2 1024 1024)) mixed_store in
  ∃ st', @serve_all counting_engine [(1, 0); (0, 1)]%nat st = (Ok (), st')
         ∧ heap st' = heap st.
Proof.
  cbv zeta.
  destruct (@unbatched_serving counting_engine [(1, 0); (0, 1)]%nat
              (fresh_pstate (warmup 1024 (fresh_object false 2 1024 1024)) mixed_store))
    as (st' & cs & es & Hrun & _ & _ & _ & _ & _ & Hheap & _).
  - reflexivity.
  - reflexivity.
  - reflexivity.
  - repeat constructor; vm_compute; eexists; reflexivity.
  - exists st'. split; [exact Hrun|exact Hheap].
Defined.

(** ** Bucket keys *)

Section bucket_key_facts.
Context `{Engine}.
Implicit Types (st : pstate) (work : list (nat * ref)).

Lemma keys_touched k k' st :
  k' ∈ dict_keys (prefill_buckets (self (touched k st)))
  ↔ k' = k ∨ k' ∈ dict_keys (prefill_buckets (self st)).
Proof. unfold touched. rewrite buckets_with_buckets. apply dict_keys_touch_elem. Qed.

Lemma keys_flushed_leaving flushed keep k k' st st' :
  flushed_leaving flushed keep k st st' →
  k' ∈ dict_keys (prefill_buckets (self st'))
  ↔ k' = k ∨ k' ∈ dict_keys (prefill_buckets (self st)).
Proof.
  intros (st1 & _ & ->). rewrite buckets_with_buckets. apply dict_keys_set_elem.
Qed.

Lemma flush_half_keys k st r st' k' :
  flush_half k st = (r, st') →
  k' ∈ dict_keys (prefill_buckets (self st'))
  ↔ k' = k ∨ k' ∈ dict_keys (prefill_buckets (self st)).
Proof.
  intros Hrun. apply flush_half_run in Hrun as [(_ & _ & ->)|[(_ & _ & Hf)|(_ & _ & ->)]].
  - apply keys_touched.
  - rewrite (keys_flushed_leaving _ _ _ _ _ _ Hf), keys_touched. tauto.
  - apply keys_touched.
Qed.

Lemma flush_if_full_keys k st r st' k' :
  flush_if_full k st = (r, st') →
  k' ∈ dict_keys (prefill_buckets (self st'))
  ↔ k' = k ∨ k' ∈ dict_keys (prefill_buckets (self st)).
Proof.
  intros Hrun. apply flush_if_full_run in Hrun. cbv zeta in Hrun.
  fold (touched k st) in Hrun.
  assert (∀ flushed keep, flushed_leaving flushed keep k (touched k st) st' →
            k' ∈ dict_keys (prefill_buckets (self st'))
            ↔ k' = k ∨ k' ∈ dict_keys (prefill_buckets (self st))) as Hfl.
  { intros flushed keep Hf.
    rewrite (keys_flushed_leaving _ _ _ _ _ _ Hf), keys_touched. tauto. }
  repeat case_decide.
  - destruct Hrun as [[_ Hf]|[_ ->]]; [by eapply Hfl|apply keys_touched].
  - destruct (last _); [|destruct Hrun as [_ ->]; apply keys_touched].
    destruct Hrun as [[_ Hf]|[_ ->]]; [by eapply Hfl|apply keys_touched].
  - destruct Hrun as [_ ->]. apply keys_touched.
  - destruct Hrun as [_ ->]. apply keys_touched.
Qed.

Lemma keys_bucketed slot row padded_len st k' :
  k' ∈ dict_keys (prefill_buckets (self (bucketed slot row padded_len st)))
  ↔ k' = bucket_key padded_len ∨ k' ∈ dict_keys (prefill_buckets (self st)).
Proof.
  rewrite buckets_bucketed, dict_keys_set_elem, dict_keys_touch_elem. tauto.
Qed.

Lemma serve_row_keys slot row st r st' :
  serve_row slot row st = (r, st') →
  (∀ k, k ∈ dict_keys (prefill_buckets (self st)) →
        k ∈ dict_keys (prefill_buckets (self st')))
  ∧ (r = Ok () → enable_batch_prefill (self st) = true →
     padded_length (heap st row) `div` 2 ∈ dict_keys (prefill_buckets (self st'))).
Proof.
  rewrite serve_row_unfold. cbv zeta.
  destruct (enable_batch_prefill (self st)) eqn:Hen.
  - destruct (flush_half _ st) as [[[]|e] st1] eqn:Hhalf.
    + assert (∀ k, k ∈ dict_keys (prefill_buckets (self st1))
                   ↔ k = padded_length (heap st row) `div` 2
                     ∨ k ∈ dict_keys (prefill_buckets (self st))) as Hk1.
      { intros k. by eapply flush_half_keys. }
      case_decide.
      * intros Hone%prefill_one_buckets. rewrite Hone.
        split; [intros k; rewrite Hk1; tauto|]. intros _ _. rewrite Hk1. by left.
      * intros Hfull.
        assert (∀ k, k ∈ dict_keys (prefill_buckets (self st1)) →
                     k ∈ dict_keys (prefill_buckets (self st'))) as Hk2.
        { intros k Hk. rewrite (flush_if_full_keys _ _ _ _ k Hfull), keys_bucketed.
          tauto. }
        split; [intros k Hk; apply Hk2, Hk1; tauto|].
        intros _ _. apply Hk2, Hk1. by left.
    + intros [= <- <-]. split; [|done]. intros k Hk.
      rewrite (flush_half_keys _ _ _ _ k Hhalf). by right.
  - intros Hone%prefill_one_buckets. rewrite Hone. done.
Qed.

Lemma serve_rows_keys work st r st' :
  serve_rows work st = (r, st') →
  ∀ k, k ∈ dict_keys (prefill_buckets (self st)) →
       k ∈ dict_keys (prefill_buckets (self st')).
Proof.
  revert st. induction work as [|[slot row] work IH]; intros st.
  - by intros [= <- <-].
  - cbn [serve_rows]. rewrite run_bind.
    destruct (serve_row slot row st) as [[[]|e] st1] eqn:Hrow.
    + intros Hrest k Hk. apply (IH _ Hrest). by apply (serve_row_keys _ _ _ _ _ Hrow).
    + intros [= <- <-] k Hk. by apply (serve_row_keys _ _ _ _ _ Hrow).
Qed.

Lemma flush_key_config k st r st' :
  flush_key k st = (r, st') → config (self st') = config (self st).
Proof.
  unfold flush_key. rewrite run_bind, read_bucket_run.
  match goal with |- context [prefill_batch ?b k ?st0] =>
    destruct (prefill_batch_run b k st0) as [[e ->]|(st1 & -> & Hf)] end.
  - by intros [= <- <-].
  - intros [= <- <-]. destruct Hf as (_ & _ & _ & Hk & _).
    by rewrite (kept_config _ _ Hk).
Qed.

(** A key for which nothing is compiled cannot be flushed. *)
Lemma flush_key_blocked k st :
  dummy (self st) = false →
  _cached_pref (self st) !! k = None →
  (∀ n, _cached_pref_batch (self st) !! (k, n) = None) →
  ∃ e st', flush_key k st = (Raise e, st').
Proof.
  intros Hdummy Hpref Hbatch. unfold flush_key. rewrite run_bind, read_bucket_run.
  match goal with |- context [prefill_batch ?b k ?st0] =>
    destruct (prefill_batch_run b k st0) as [[e ->]|(st1 & -> & Hf)] end.
  - by eexists _, _.
  - exfalso. destruct Hf as (l & cs & _ & _ & _ & _ & Hcs).
    unfold compiled_calls in Hcs. cbn [self with_buckets] in Hcs.
    destruct (prefills_singly _ _ _); destruct Hcs as (fn & Hfn & _);
      cbn in Hfn; congruence.
Qed.

Lemma flush_keys_blocked k ks st :
  k ∈ ks →
  dummy (self st) = false →
  _cached_pref (self st) !! k = None →
  (∀ n, _cached_pref_batch (self st) !! (k, n) = None) →
  ∃ e st', for_each ks flush_key st = (Raise e, st').
Proof.
  intros Hin. revert st. induction ks as [|k1 ks IH]; intros st Hdummy Hpref Hbatch.
  - by apply elem_of_nil in Hin.
  - cbn [for_each]. rewrite run_bind.
    destruct (flush_key k1 st) as [[[]|e] st1] eqn:Hk1; [|by eexists _, _].
    pose proof (flush_key_config _ _ _ _ Hk1) as Hcfg.
    apply elem_of_cons in Hin as [->|Hin].
    { destruct (flush_key_blocked k1 st Hdummy Hpref Hbatch) as (e & st2 & Hb).
      congruence. }
    unfold config in Hcfg. injection Hcfg as _ _ _ _ Hd Hp Hb _.
    destruct (IH Hin st1) as (e & st2 & Hrest).
    { congruence. } { congruence. } { intros n. rewrite Hb. apply Hbatch. }
    rewrite run_bind, Hrest. by eexists _, _.
Qed.

Lemma flush_leftovers_blocked k st :
  k ∈ dict_keys (prefill_buckets (self st)) →
  dummy (self st) = false →
  _cached_pref (self st) !! k = None →
  (∀ n, _cached_pref_batch (self st) !! (k, n) = None) →
  ∃ e st', flush_leftovers st = (Raise e, st').
Proof.
  intros Hk Hdummy Hpref Hbatch. unfold flush_leftovers. mrun.
  destruct (flush_keys_blocked k _ st Hk Hdummy Hpref Hbatch) as (e & st' & Hrun).
  unfold flush_key in Hrun. rewrite Hrun. by eexists _, _.
Qed.

Lemma serve_all_blocked k work st :
  k ∈ dict_keys (prefill_buckets (self st)) →
  dummy (self st) = false →
  _cached_pref (self st) !! k = None →
  (∀ n, _cached_pref_batch (self st) !! (k, n) = None) →
  ∃ e st', serve_all work st = (Raise e, st').
Proof.
  intros Hk Hdummy Hpref Hbatch. unfold serve_all. rewrite run_bind.
  destruct (serve_rows work st) as [[[]|e] st1] eqn:Hrows; [|by eexists _, _].
  pose proof (serve_rows_accounted _ _ _ _ Hrows) as (Hcfg & _).
  unfold config in Hcfg. injection Hcfg as _ _ _ _ Hd Hp Hb _.
  apply (flush_leftovers_blocked k).
  - by apply (serve_rows_keys _ _ _ _ Hrows).
  - congruence.
  - congruence.
  - intros n. rewrite Hb. apply Hbatch.
Qed.
End bucket_key_facts.

(** X15: a bucket key without a compiled variant blocks the end of the
    run.  The end-of-input flush goes through every key of the buckets,
    empty or not, and [prefill] looks the variant up before anything else;
    keys are never removed while requests are served.  So once the
    buckets have the key 32, for which nothing is ever compiled, the
    producer's sequential work cannot finish normally, whatever is served
    afterwards; and with batch prefill enabled a first request of padded
    length 64 creates exactly that key (by reading the bucket for half its
    length), so no run that starts with such a request finishes normally. *)
Theorem short_request_never_completes `{Engine} (st : pstate) :
  dummy (self st) = false →
  _cached_pref (self st) !! 32 = None →
  (∀ n, _cached_pref_batch (self st) !! (32, n) = None) →
  (32 ∈ dict_keys (prefill_buckets (self st)) →
     ∀ work, ∃ e st', serve_all work st = (Raise e, st'))
  ∧ (enable_batch_prefill (self st) = true →
     ∀ slot row work, padded_length (heap st row) = 64 →
       ∃ e st', serve_all ((slot, row) :: work) st = (Raise e, st')).
Proof.
  intros Hdummy Hpref Hbatch. split.
  - intros Hk work. by apply (serve_all_blocked 32).
  - intros Hen slot row work Hlen. unfold serve_all. rewrite run_bind.
    cbn [serve_rows]. rewrite run_bind.
    destruct (serve_row slot row st) as [[[]|e] st1] eqn:Hrow; [|by eexists _, _].
    pose proof (serve_row_accounted _ _ _ _ _ Hrow) as (Hcfg & _).
    unfold config in Hcfg. injection Hcfg as _ _ _ _ Hd Hp Hb _.
    destruct (serve_row_keys _ _ _ _ _ Hrow) as [_ Hkey].
    specialize (Hkey eq_refl Hen). rewrite Hlen in Hkey.
    change (64 `div` 2) with 32 in Hkey.
    destruct (serve_all_blocked 32 work st1) as (e & st' & Hrun);
      [done|congruence|congruence|intros n; rewrite Hb; apply Hbatch|].
    unfold serve_all in Hrun. rewrite run_bind in Hrun. by eexists _, _.
Qed.

Lemma short_request_never_completes_witness :
  ∃ e st', @serve_all counting_engine [(0, 0); (1, 1)]%nat short_request_state
           = (Raise e, st').
Proof.
  refine (proj2 (@short_request_never_completes counting_engine short_request_state
                   _ _ _) _ 0%nat 0%nat [(1, 1)]%nat _).
  - reflexivity.
  - vm_compute. reflexivity.
  - intros n. unfold short_request_state. cbn [self fresh_pstate].
    rewrite (warmed_up_batch 1024) by apply (warmed_up_fresh true 8 1024 1024 []).
    apply decide_False. intros (Hl & _).
    apply (bool_decide_pack _) in Hl. vm_compute in Hl. exact Hl.
  - reflexivity.
  - reflexivity.
Defined.

(** ** Dummy mode *)

Section dummy_facts.
Context `{Engine} {CB : Type}.
Variable emit_first_token : string → Z → CB → bool * CB.
Variable emit_token : string → Z → CB → bool * CB.
Implicit Types (st : @state _ CB) (p : pstate).

Lemma consumer_step_producer_frame st l st' :
  consumer_step emit_first_token emit_token st = Some (l, st') →
  prod st' = prod st ∧ ppc st' = ppc st ∧ live st' = live st.
Proof.
  unfold consumer_step.
  destruct (cpc st) as [| |first_token row_id slot|result_tokens
                        |newly_empty [|slot todo]|newly_empty slot todo| |e].
  - by intros [= <- <-].
  - destruct (detokenize_backlog st) as [|e rest]; [done|]. by intros [= <- <-].
  - destruct (emit_first_token row_id first_token (cb st)) as [[] c];
      by intros [= <- <-].
  - destruct (scan_slots _ _ _ _ _ _) as [c newly_empty]. by intros [= <- <-].
  - by intros [= <- <-].
  - destruct (dict_lookup slot (slot_to_id st)); by intros [= <- <-].
  - by intros [= <- <-].
  - done.
  - done.
Qed.

Lemma prefill_dummy b prefill_len p :
  dummy (self p) = true → prefill b prefill_len p = (Ok (RetInt 123), p).
Proof. intros Hd. unfold prefill. mrun. by rewrite Hd. Qed.

Lemma prefill_one_dummy slot row padded_len p :
  dummy (self p) = true →
  prefill_one slot row padded_len p
  = (Raise (TypeError "'int' object is not subscriptable"), p).
Proof. intros Hd. unfold prefill_one. mrun. by rewrite prefill_dummy. Qed.

Lemma prefill_batch_dummy b padded_len p :
  dummy (self p) = true →
  prefill_batch b padded_len p
  = (Raise (TypeError "'int' object is not iterable"), p).
Proof. intros Hd. unfold prefill_batch. mrun. by rewrite prefill_dummy. Qed.

Lemma decode_dummy p :
  dummy (self p) = true →
  decode p = (Raise (UnboundLocalError "result_tokens_l"), p).
Proof. intros Hd. unfold decode. mrun. by rewrite Hd. Qed.

Lemma flush_leftovers_dummy p :
  dummy (self p) = true → dict_keys (prefill_buckets (self p)) ≠ [] →
  ∃ e p', flush_leftovers p = (Raise e, p') ∧ dummy (self p') = true.
Proof.
  intros Hd Hk. unfold flush_leftovers. mrun.
  destruct (dict_keys (prefill_buckets (self p))) as [|k ks]; [done|].
  cbn [for_each]. mrun. rewrite read_bucket_run. rewrite prefill_batch_dummy by done.
  by eexists _, _.
Qed.

Lemma serve_row_dummy slot row p r p' :
  dummy (self p) = true → serve_row slot row p = (r, p') →
  dummy (self p') = true
  ∧ (r = Ok () → dict_keys (prefill_buckets (self p')) ≠ []).
Proof.
  intros Hd Hrow. pose proof (serve_row_accounted _ _ _ _ _ Hrow) as (Hcfg & _).
  unfold config in Hcfg. injection Hcfg as _ _ _ _ Hd' _ _ _.
  split; [congruence|]. intros ->.
  destruct (enable_batch_prefill (self p)) eqn:Hen.
  - destruct (serve_row_keys _ _ _ _ _ Hrow) as [_ Hkey].
    specialize (Hkey eq_refl Hen). intros Hnil. rewrite Hnil in Hkey.
    by apply elem_of_nil in Hkey.
  - rewrite serve_row_unfold in Hrow. cbv zeta in Hrow.
    rewrite Hen, prefill_one_dummy in Hrow by done. done.
Qed.

Lemma producer_run_result (m : M unit) next l st r p :
  m (prod st) = (r, p) →
  (producer_run m next l st).1 = l
  ∧ prod (producer_run m next l st).2 = p
  ∧ ppc (producer_run m next l st).2
    = match r with Ok _ => next | Raise e => PRaised e end.
Proof. unfold producer_run. intros ->. by destruct r. Qed.

Lemma producer_step_dummy_bound st l st' :
  dummy_bound st → producer_step st = Some (l, st') → dummy_bound st'.
Proof.
  intros [Hd Hpc]. unfold producer_step, dummy_bound.
  destruct (outbox (prod st)) as [|e rest].
  - destruct (ppc st) as [[|row data]| | | |e]; try done.
    + destruct (flush_leftovers_dummy (prod st) Hd Hpc) as (e & p' & Hrun & Hd').
      destruct (producer_run_result flush_leftovers PDrain Tau st _ _ Hrun)
        as (_ & Hprod & Hppc).
      intros [= Hst]. rewrite Hst in Hprod, Hppc. cbn in Hprod, Hppc.
      by rewrite Hprod, Hppc.
    + destruct (last (empty_slots st)) as [slot|].
      * destruct (serve_row slot row (prod st)) as [r p'] eqn:Hrow.
        destruct (serve_row_dummy _ _ _ _ _ Hd Hrow) as [Hd' Hkeys].
        destruct (producer_run_result (serve_row slot row) (PLoop data) (Acquire slot)
                    (with_empty_slots (removelast (empty_slots st)) st) _ _ Hrow)
          as (_ & Hprod & Hppc).
        intros [= Hst]. rewrite Hst in Hprod, Hppc. cbn in Hprod, Hppc.
        rewrite Hprod, Hppc. split; [done|].
        destruct r as [[]|e]; [|done]. destruct data; [by apply Hkeys|done].
      * pose proof (decode_dummy (prod st) Hd) as Hrun.
        destruct (producer_run_result decode (PLoop (row :: data)) Tau st _ _ Hrun)
          as (_ & Hprod & Hppc).
        intros [= Hst]. rewrite Hst in Hprod, Hppc. cbn in Hprod, Hppc.
        by rewrite Hprod, Hppc.
  - case_decide; [|done]. intros [= <- <-]. cbn. done.
Qed.

Lemma thread_step_dummy_bound t st l st' :
  dummy_bound st →
  thread_step emit_first_token emit_token t st = Some (l, st') → dummy_bound st'.
Proof.
  intros Hb. unfold thread_step. destruct (alive st); [|done]. destruct t.
  - by apply producer_step_dummy_bound.
  - intros (Hprod & Hppc & _)%consumer_step_producer_frame.
    unfold dummy_bound. by rewrite Hprod, Hppc.
Qed.

Lemma execution_dummy_bound st0 tr st :
  execution emit_first_token emit_token st0 tr st →
  dummy_bound st0 → dummy_bound st.
Proof.
  induction 1 as [|st0 tr st1 l st2 _ IH Hstep]; [done|].
  intros Hok. specialize (IH Hok). inversion Hstep as [t ? ? ? Hts]; subst.
  exact (thread_step_dummy_bound t st1 l st2 IH Hts).
Qed.
End dummy_facts.

(** X16: dummy mode cannot serve anything.  With [dummy] set, [prefill]
    returns the integer 123 where its callers expect a list, and [decode]
    reads a list that it never bound.  So a run of
    [batch_inference_with_callback] over a non-empty input never gets to
    its drain loop and never returns: in every reachable state the
    producer is still in the request loop or has raised. *)
Theorem dummy_run_never_returns `{Engine} {CB : Type}
    (emit_first_token emit_token : string → Z → CB → bool * CB)
    (o : OfflineInference) (h : store) (data : list ref) (cb0 : CB)
    (tr : list label) (st : state) :
  dummy o = true → data ≠ [] →
  execution emit_first_token emit_token (initial o h data cb0) tr st →
  ((∃ rest, ppc st = PLoop rest) ∨ (∃ e, ppc st = PRaised e))
  ∧ ppc st ≠ PDrain ∧ ppc st ≠ PJoin ∧ ppc st ≠ PReturned
  ∧ (∀ slot row p r p', dummy (self p) = true →
       (enable_batch_prefill (self p) = false →
        serve_row slot row p
        = (Raise (TypeError "'int' object is not subscriptable"), p))
       ∧ decode p = (Raise (UnboundLocalError "result_tokens_l"), p)
       ∧ (flush_leftovers p = (r, p') →
          dict_keys (prefill_buckets (self p)) ≠ [] → ∃ e, r = Raise e)).
Proof.
  intros Hd Hdata Hexec.
  destruct (execution_dummy_bound _ _ _ _ _ Hexec) as [_ Hpc].
  { split; [done|]. cbn. by destruct data. }
  split; [|split; [|split; [|split]]].
  - destruct (ppc st); try done; eauto.
  - intros Heq. by rewrite Heq in Hpc.
  - intros Heq. by rewrite Heq in Hpc.
  - intros Heq. by rewrite Heq in Hpc.
  - intros slot row p r p' Hdp. split; [|split].
    + intros Hen. rewrite serve_row_unfold. cbv zeta. rewrite Hen.
      by apply prefill_one_dummy.
    + by apply decode_dummy.
    + intros Hrun Hkeys.
      destruct (flush_leftovers_dummy p Hdp Hkeys) as (e & p'' & Hraise & _).
      exists e. congruence.
Qed.

Lemma dummy_reached_execution :
  execution never_stop never_stop dummy_run dummy_reached.1 dummy_reached.2.
Proof.
  apply run_schedule_execution with [Producer; Producer]. vm_compute. reflexivity.
Qed.

Lemma dummy_run_never_returns_witness :
  ppc dummy_reached.2 = PRaised (TypeError "'int' object is not iterable")
  ∧ ppc dummy_reached.2 ≠ PReturned.
Proof.
  split; [vm_compute; reflexivity|].
  refine (proj1 (proj2 (proj2 (proj2
    (@dummy_run_never_returns counting_engine unit never_stop never_stop
       dummy_object (λ _, request "a" 128 100) [0%nat] tt
       dummy_reached.1 dummy_reached.2 _ _ dummy_reached_execution))))).
  - reflexivity.
  - discriminate.
Defined.

(** ** When every slot waits in a bucket *)

Section starved_facts.
Context `{Engine} {CB : Type}.
Variable emit_first_token : string → Z → CB → bool * CB.
Variable emit_token : string → Z → CB → bool * CB.
Implicit Types (st : @state _ CB) (p : pstate).

Lemma Forall_is_step_fmap (rs : list ResultTokens) :
  Forall is_step (StepEntry <$> rs).
Proof. apply Forall_fmap, Forall_true. done. Qed.

Lemma producer_step_starved st l st' row rest :
  starved st → ppc st = PLoop (row :: rest) →
  producer_step st = Some (l, st') →
  starved st' ∧ ppc st' = PLoop (row :: rest)
  ∧ heap (prod st') = heap (prod st)
  ∧ prefill_buckets (self (prod st')) = prefill_buckets (self (prod st))
  ∧ prefilled (calls (prod st')) = prefilled (calls (prod st)).
Proof.
  intros (Hlive & Hempty & Hocc & Hout & Hback & Hidle & Hd & [gen_fn Hgen]) Hpc.
  unfold producer_step, starved.
  destruct (outbox (prod st)) as [|e out] eqn:Houtbox.
  - rewrite Hpc, Hempty. cbn [last].
    pose proof (decode_exact gen_fn (prod st) Hd Hgen) as Hrun.
    destruct (producer_run_result decode (PLoop (row :: rest)) Tau st _ _ Hrun)
      as (_ & Hprod & Hppc).
    destruct (producer_run_consumer_frame decode (PLoop (row :: rest)) Tau st)
      as (Hocc' & Hcpc' & _ & Hlive' & Hback' & Hempty').
    intros [= Hst]. rewrite Hst in Hprod, Hppc, Hocc', Hcpc', Hlive', Hback', Hempty'.
    cbn [snd] in Hprod, Hppc, Hocc', Hcpc', Hlive', Hback', Hempty'.
    rewrite Hprod, Hppc, Hocc', Hcpc', Hlive', Hback', Hempty'.
    cbn [self heap outbox calls prefill_buckets set_decode_state dummy _cached_generate].
    rewrite Houtbox. cbn [app].
    split_and!; try done; [apply Forall_is_step_fmap|].
    rewrite prefilled_app.
    replace (prefilled (replicate 10 (CallGenerate gen_fn))) with (@nil (nat * ref))
      by reflexivity.
    by rewrite app_nil_r.
  - apply Forall_cons in Hout as [He Hout].
    case_decide; [|done]. intros [= <- <-]. cbn.
    split_and!; try done.
    apply Forall_app. split; [done|]. by constructor.
Qed.

Lemma consumer_step_starved st l st' :
  starved st → consumer_step emit_first_token emit_token st = Some (l, st') →
  starved st'.
Proof.
  intros (Hlive & Hempty & Hocc & Hout & Hback & Hidle & Hd & Hgen).
  unfold consumer_step, starved.
  destruct (cpc st) as [| |first_token row_id slot|result_tokens
                        |[|] [|slot todo]|newly_empty slot todo| |e];
    cbn in Hidle; try done.
  - intros [= <- <-]. cbn. rewrite Hlive. done.
  - destruct (detokenize_backlog st) as [|e back]; [done|].
    apply Forall_cons in Hback as [He Hback].
    destruct e as [|rt]; [done|]. intros [= <- <-]. cbn. done.
  - rewrite Hocc. cbn [scan_slots]. intros [= <- <-]. cbn. done.
  - intros [= <- <-]. cbn. done.
Qed.

Lemma starved_can_step st row rest :
  starved st → ppc st = PLoop (row :: rest) →
  ∃ t l st', thread_step emit_first_token emit_token t st = Some (l, st').
Proof.
  intros (Hlive & Hempty & Hocc & Hout & Hback & Hidle & Hd & [gen_fn Hgen]) Hpc.
  assert (alive st = true) as Halive.
  { unfold alive. by destruct (cpc st). }
  unfold thread_step. rewrite Halive.
  destruct (outbox (prod st)) as [|e out] eqn:Houtbox.
  - exists Producer. unfold producer_step. rewrite Houtbox, Hpc, Hempty. cbn [last].
    destruct (producer_run decode (PLoop (row :: rest)) Tau st) as [l st'].
    by eexists _, _.
  - destruct (decide (length (detokenize_backlog st) < backlog_capacity)%nat)
      as [Hroom|Hfull].
    + exists Producer. unfold producer_step. rewrite Houtbox.
      rewrite decide_True by done. by eexists _, _.
    + exists Consumer. unfold consumer_step.
      destruct (cpc st) as [| |first_token row_id slot|result_tokens
                            |[|] [|slot todo]|newly_empty slot todo| |e0];
        cbn in Hidle; try done; try by eexists _, _.
      * destruct (detokenize_backlog st) as [|e' back]; [|by eexists _, _].
        unfold backlog_capacity in Hfull. cbn in Hfull. lia.
      * destruct (scan_slots _ _ _ _ _ _). by eexists _, _.
Qed.

Lemma thread_step_starved t st l st' row rest :
  starved st → ppc st = PLoop (row :: rest) →
  thread_step emit_first_token emit_token t st = Some (l, st') →
  starved st' ∧ ppc st' = PLoop (row :: rest)
  ∧ heap (prod st') = heap (prod st)
  ∧ prefill_buckets (self (prod st')) = prefill_buckets (self (prod st))
  ∧ prefilled (calls (prod st')) = prefilled (calls (prod st)).
Proof.
  intros Hst Hpc. unfold thread_step. destruct (alive st); [|done]. destruct t.
  - by apply producer_step_starved.
  - intros Hstep. pose proof (consumer_step_starved _ _ _ Hst Hstep) as Hst'.
    apply consumer_step_producer_frame in Hstep as (Hprod & Hppc & _).
    rewrite Hprod, Hppc. done.
Qed.

Lemma execution_starved st0 tr st row rest :
  execution emit_first_token emit_token st0 tr st →
  starved st0 → ppc st0 = PLoop (row :: rest) →
  starved st ∧ ppc st = PLoop (row :: rest)
  ∧ heap (prod st) = heap (prod st0)
  ∧ prefill_buckets (self (prod st)) = prefill_buckets (self (prod st0))
  ∧ prefilled (calls (prod st)) = prefilled (calls (prod st0)).
Proof.
  induction 1 as [|st0 tr st1 l st2 _ IH Hstep]; [done|].
  intros Hst0 Hpc0. destruct (IH Hst0 Hpc0) as (Hst1 & Hpc1 & Hh & Hb & Hc).
  inversion Hstep as [t ? ? ? Hts]; subst.
  destruct (thread_step_starved t st1 l st2 row rest Hst1 Hpc1 Hts)
    as (? & ? & Hh' & Hb' & Hc').
  rewrite Hh', Hb', Hc'. done.
Qed.
End starved_facts.

(** X17: a producer without slots spins for ever.  Slots are taken when
    a request is put in a bucket and given back only by the consumer, for
    requests that have been prefilled.  So in a state where no slot is
    free, none is occupied and no first token is on its way (every slot is
    held by a request waiting in a bucket), with the next request still to
    be served, nothing the two threads can do gets the producer past
    [while not empty_slots: decode()]: every reachable state is again such
    a state with the same request next, no request is prefilled, the
    buckets and the requests stay as they are, and some thread can always
    take a further step. *)
Theorem starved_producer_spins `{Engine} {CB : Type}
    (emit_first_token emit_token : string → Z → CB → bool * CB)
    (st0 : state) (row : ref) (rest : list ref) (tr : list label) (st : state) :
  starved st0 → ppc st0 = PLoop (row :: rest) →
  execution emit_first_token emit_token st0 tr st →
  ppc st = PLoop (row :: rest)
  ∧ starved st
  ∧ prefilled (calls (prod st)) = prefilled (calls (prod st0))
  ∧ prefill_buckets (self (prod st)) = prefill_buckets (self (prod st0))
  ∧ heap (prod st) = heap (prod st0)
  ∧ ∃ t l st', thread_step emit_first_token emit_token t st = Some (l, st').
Proof.
  intros Hst0 Hpc0 Hexec.
  destruct (execution_starved _ _ _ _ _ row rest Hexec Hst0 Hpc0)
    as (Hst & Hpc & Hh & Hb & Hc).
  split_and!; try done. by eapply starved_can_step.
Qed.

Lemma single_slot_later_execution :
  execution never_stop never_stop single_slot_start
    single_slot_later.1 single_slot_later.2.
Proof.
  apply run_schedule_execution
    with [Producer; Producer; Consumer; Consumer; Consumer; Consumer; Producer].
  vm_compute. reflexivity.
Qed.

Lemma starved_producer_spins_witness :
  ppc single_slot_later.2 = PLoop [1%nat]
  ∧ prefilled (calls (prod single_slot_later.2)) = []
  ∧ length single_slot_later.1 = 7%nat.
Proof.
  destruct (@starved_producer_spins counting_engine unit never_stop never_stop
              single_slot_start 1%nat [] single_slot_later.1 single_slot_later.2)
    as (Hpc & _ & Hcalls & _).
  - unfold starved. split_and!; try reflexivity; try constructor.
    eexists. reflexivity.
  - reflexivity.
  - exact single_slot_later_execution.
  - split; [exact Hpc|]. split; [exact Hcalls|]. reflexivity.
Defined.

(** ** Slots and identities stay within what was submitted *)

Section range_facts.
Context `{Engine} {CB : Type}.
Variable emit_first_token : string → Z → CB → bool * CB.
Variable emit_token : string → Z → CB → bool * CB.
Implicit Types (st : @state _ CB).



End range_facts.



(** ** The end of a run with nothing to serve *)

Section empty_input_facts.
Context `{Engine} {CB : Type}.
Variable emit_first_token : string → Z → CB → bool * CB.
Variable emit_token : string → Z → CB → bool * CB.
Implicit Types (st : @state _ CB).

Lemma empty_input_hang o h (cb0 : CB) :
  prefill_buckets o = [] →
  run_schedule emit_first_token emit_token [Consumer; Producer; Producer]
    (initial o h [] cb0)
  = Some ([Tau; Tau; Tau],
          mkState (mkPstate o h [] []) PJoin false [] (seq 0 (batch_size o)) [] cb0 CGet).
Proof. intros Hb. destruct o. cbn in Hb. subst. reflexivity. Qed.

Lemma empty_input_return o h (cb0 : CB) :
  prefill_buckets o = [] →
  run_schedule emit_first_token emit_token [Producer; Producer; Consumer; Producer]
    (initial o h [] cb0)
  = Some ([Tau; Tau; Tau; Tau],
          mkState (mkPstate o h [] []) PReturned false [] (seq 0 (batch_size o)) []
                  cb0 CExited).
Proof. intros Hb. destruct o. cbn in Hb. subst. reflexivity. Qed.
End empty_input_facts.

(** X19: an empty input can hang.  [batch_inference_with_callback]
    starts the [detokenize] thread before it looks at [data].  With no
    request to serve, if that thread tests [self.live] before the producer
    clears it, it blocks in [detokenize_backlog.get] on a queue that nobody
    will ever fill, and the producer blocks in [join]: a state in which no
    thread can take a step and the call has not returned.  If the producer
    clears [live] first, the thread leaves its loop and the call returns. *)
Theorem empty_input_may_hang `{Engine} {CB : Type}
    (emit_first_token emit_token : string → Z → CB → bool * CB)
    (o : OfflineInference) (h : store) (cb0 : CB) :
  prefill_buckets o = [] →
  (∃ tr st,
     execution emit_first_token emit_token (initial o h [] cb0) tr st
     ∧ ppc st = PJoin ∧ cpc st = CGet ∧ detokenize_backlog st = []
     ∧ ∀ t, thread_step emit_first_token emit_token t st = None)
  ∧ (∃ tr st,
       execution emit_first_token emit_token (initial o h [] cb0) tr st
       ∧ ppc st = PReturned ∧ cpc st = CExited).
Proof.
  intros Hb. split.
  - eexists _, _. split.
    { eapply run_schedule_execution. by apply empty_input_hang. }
    split; [done|]. split; [done|]. split; [done|]. by intros [].
  - eexists _, _. split.
    { eapply run_schedule_execution. by apply empty_input_return. }
    done.
Qed.

Lemma empty_input_may_hang_witness :
  ∃ tr st,
    execution never_stop never_stop
      (initial (warmup 1024 (fresh_object true 2 1024 1024))
               (λ _, request "a" 128 100) [] tt) tr st
    ∧ ppc st = PJoin
    ∧ ∀ t, thread_step never_stop never_stop t st = None.
Proof.
  destruct (@empty_input_may_hang counting_engine unit never_stop never_stop
              (warmup 1024 (fresh_object true 2 1024 1024))
              (λ _, request "a" 128 100) tt eq_refl)
    as [(tr & st & Hexec & Hpc & _ & _ & Hstuck) _].
  exists tr, st. split; [exact Hexec|]. split; [exact Hpc|exact Hstuck].
Defined.
